(** * GoVaultFS: a shallow embedding of the store, the stream codec and the
    transport's decoder, with the properties of the specification.

    Layout: the Go standard-library pieces the repository calls (SHA-1,
    hex, AES, CTR, bytes.Buffer, the [os] file calls) come first, then
    [crypto.go], [store.go], [p2p/encoding.go], [p2p/tcp_transport.go]
    and [server.go]; the theorems follow the definitions. *)

From Stdlib Require Import ZArith Lia Strings.Byte Ascii String List Bool.
From stdpp Require Import base option list strings gmap.

Local Open Scope Z_scope.

(* ------------------------------------------------------------------ *)
(** ** Bytes *)

Abbreviation byte := Byte.byte.

Definition byte_to_Z (b : byte) : Z := Z.of_N (Byte.to_N b).

Definition byte_of_Z (z : Z) : byte :=
  match Byte.of_N (Z.to_N (z mod 256)) with
  | Some b => b
  | None => Byte.x00
  end.

(** Go strings are byte sequences: [[]byte(s)] and [string(b)]. *)
Definition bytes_of_string (s : string) : list byte := list_byte_of_string s.

(* ------------------------------------------------------------------ *)
(** ** crypto/sha1 and encoding/hex (Go standard library, FIPS 180-4) *)

Module Sha1.

Definition w32 (x : Z) : Z := x mod 2 ^ 32.

Definition rotl (n x : Z) : Z :=
  w32 (Z.lor (Z.shiftl x n) (Z.shiftr x (32 - n))).

Definition add32 (x y : Z) : Z := w32 (x + y).

(** Big-endian serialisation of a [n]-byte unsigned integer. *)
Fixpoint be_bytes (n : nat) (x : Z) : list byte :=
  match n with
  | O => []
  | S k => byte_of_Z (Z.shiftr x (8 * Z.of_nat k)) :: be_bytes k x
  end.

Definition be_word (bs : list byte) : Z :=
  fold_left (fun acc b => acc * 256 + byte_to_Z b) bs 0.

(** Message padding: 0x80, zeros up to 56 mod 64, the bit length on 8 bytes. *)
Definition pad (msg : list byte) : list byte :=
  let len := Z.of_nat (length msg) in
  let zeros := Z.to_nat ((55 - len) mod 64) in
  msg ++ Byte.x80 :: repeat Byte.x00 zeros ++ be_bytes 8 (8 * len).

Fixpoint chunks (fuel n : nat) (l : list byte) : list (list byte) :=
  match fuel with
  | O => []
  | S f =>
      match l with
      | [] => []
      | _ => take n l :: chunks f n (drop n l)
      end
  end.

Definition block_words (blk : list byte) : list Z :=
  map be_word (chunks 16 4 blk).

(** The message schedule, most recent word first. *)
Fixpoint extend (n : nat) (rev_ws : list Z) : list Z :=
  match n with
  | O => rev_ws
  | S k =>
      let w := rotl 1 (Z.lxor (Z.lxor (nth 2 rev_ws 0) (nth 7 rev_ws 0))
                              (Z.lxor (nth 13 rev_ws 0) (nth 15 rev_ws 0))) in
      extend k (w :: rev_ws)
  end.

Definition schedule (blk : list byte) : list Z :=
  rev (extend 64 (rev (block_words blk))).

Record state := State { ha : Z; hb : Z; hc : Z; hd : Z; he : Z }.

Definition init : state :=
  State 0x67452301 0xEFCDAB89 0x98BADCFE 0x10325476 0xC3D2E1F0.

Definition f_k (i : nat) (b c d : Z) : Z * Z :=
  if (i <? 20)%nat then
    (Z.lor (Z.land b c) (Z.land (w32 (Z.lnot b)) d), 0x5A827999)
  else if (i <? 40)%nat then
    (Z.lxor (Z.lxor b c) d, 0x6ED9EBA1)
  else if (i <? 60)%nat then
    (Z.lor (Z.lor (Z.land b c) (Z.land b d)) (Z.land c d), 0x8F1BBCDC)
  else
    (Z.lxor (Z.lxor b c) d, 0xCA62C1D6).

Definition round (st : state) (iw : nat * Z) : state :=
  let '(i, w) := iw in
  let '(f, k) := f_k i (hb st) (hc st) (hd st) in
  let t := add32 (add32 (add32 (add32 (rotl 5 (ha st)) f) (he st)) k) w in
  State t (ha st) (rotl 30 (hb st)) (hc st) (hd st).

Definition compress (h : state) (blk : list byte) : state :=
  let ws := schedule blk in
  let r := fold_left round (combine (seq 0 80) ws) h in
  State (add32 (ha h) (ha r)) (add32 (hb h) (hb r)) (add32 (hc h) (hc r))
        (add32 (hd h) (hd r)) (add32 (he h) (he r)).

Definition digest (h : state) : list byte :=
  be_bytes 4 (ha h) ++ be_bytes 4 (hb h) ++ be_bytes 4 (hc h)
    ++ be_bytes 4 (hd h) ++ be_bytes 4 (he h).

(** [sha1.Sum]. *)
Definition Sum (msg : list byte) : list byte :=
  let p := pad msg in
  digest (fold_left compress (chunks (length p) 64 p) init).

End Sha1.

Module Hex.

Definition hextable : string := "0123456789abcdef".

Definition digit (n : Z) : ascii :=
  match String.get (Z.to_nat n) hextable with
  | Some c => c
  | None => "0"%char
  end.

(** [hex.EncodeToString]: two lower-case digits per byte. *)
Fixpoint EncodeToString (bs : list byte) : string :=
  match bs with
  | [] => EmptyString
  | b :: rest =>
      String (digit (byte_to_Z b / 16))
        (String (digit (byte_to_Z b mod 16)) (EncodeToString rest))
  end.

End Hex.

(* ------------------------------------------------------------------ *)
(** ** crypto/md5 (Go standard library, RFC 1321) *)

Module Md5.

Definition K : list Z :=
  [ 0xd76aa478; 0xe8c7b756; 0x242070db; 0xc1bdceee;
    0xf57c0faf; 0x4787c62a; 0xa8304613; 0xfd469501;
    0x698098d8; 0x8b44f7af; 0xffff5bb1; 0x895cd7be;
    0x6b901122; 0xfd987193; 0xa679438e; 0x49b40821;
    0xf61e2562; 0xc040b340; 0x265e5a51; 0xe9b6c7aa;
    0xd62f105d; 0x02441453; 0xd8a1e681; 0xe7d3fbc8;
    0x21e1cde6; 0xc33707d6; 0xf4d50d87; 0x455a14ed;
    0xa9e3e905; 0xfcefa3f8; 0x676f02d9; 0x8d2a4c8a;
    0xfffa3942; 0x8771f681; 0x6d9d6122; 0xfde5380c;
    0xa4beea44; 0x4bdecfa9; 0xf6bb4b60; 0xbebfbc70;
    0x289b7ec6; 0xeaa127fa; 0xd4ef3085; 0x04881d05;
    0xd9d4d039; 0xe6db99e5; 0x1fa27cf8; 0xc4ac5665;
    0xf4292244; 0x432aff97; 0xab9423a7; 0xfc93a039;
    0x655b59c3; 0x8f0ccc92; 0xffeff47d; 0x85845dd1;
    0x6fa87e4f; 0xfe2ce6e0; 0xa3014314; 0x4e0811a1;
    0xf7537e82; 0xbd3af235; 0x2ad7d2bb; 0xeb86d391 ].

Definition shifts : list Z :=
  [ 7; 12; 17; 22; 7; 12; 17; 22; 7; 12; 17; 22; 7; 12; 17; 22;
    5; 9; 14; 20; 5; 9; 14; 20; 5; 9; 14; 20; 5; 9; 14; 20;
    4; 11; 16; 23; 4; 11; 16; 23; 4; 11; 16; 23; 4; 11; 16; 23;
    6; 10; 15; 21; 6; 10; 15; 21; 6; 10; 15; 21; 6; 10; 15; 21 ].

(** Little-endian serialisation of a [n]-byte unsigned integer. *)
Definition le_bytes (n : nat) (x : Z) : list byte :=
  map (fun i => byte_of_Z (Z.shiftr x (8 * Z.of_nat i))) (seq 0 n).

Definition le_word (bs : list byte) : Z :=
  fold_right (fun b acc => byte_to_Z b + 256 * acc) 0 bs.

Definition pad (msg : list byte) : list byte :=
  let len := Z.of_nat (length msg) in
  let zeros := Z.to_nat ((55 - len) mod 64) in
  msg ++ Byte.x80 :: repeat Byte.x00 zeros ++ le_bytes 8 (8 * len).

Definition block_words (blk : list byte) : list Z :=
  map le_word (Sha1.chunks 16 4 blk).

Record state := State { sa : Z; sb : Z; sc : Z; sd : Z }.

Definition init : state := State 0x67452301 0xefcdab89 0x98badcfe 0x10325476.

Definition f_g (i : nat) (b c d : Z) : Z * nat :=
  let nb := Sha1.w32 (Z.lnot b) in
  let nd := Sha1.w32 (Z.lnot d) in
  if (i <? 16)%nat then (Z.lor (Z.land b c) (Z.land nb d), i)
  else if (i <? 32)%nat then (Z.lor (Z.land d b) (Z.land nd c), (5 * i + 1) mod 16)%nat
  else if (i <? 48)%nat then (Z.lxor (Z.lxor b c) d, (3 * i + 5) mod 16)%nat
  else (Z.lxor c (Z.lor b nd), (7 * i) mod 16)%nat.

Definition round (m : list Z) (st : state) (i : nat) : state :=
  let '(f, g) := f_g i (sb st) (sc st) (sd st) in
  let f := Sha1.add32 (Sha1.add32 (Sha1.add32 f (sa st)) (nth i K 0)) (nth g m 0) in
  State (sd st) (Sha1.add32 (sb st) (Sha1.rotl (nth i shifts 0) f)) (sb st) (sc st).

Definition compress (h : state) (blk : list byte) : state :=
  let r := fold_left (round (block_words blk)) (seq 0 64) h in
  State (Sha1.add32 (sa h) (sa r)) (Sha1.add32 (sb h) (sb r))
        (Sha1.add32 (sc h) (sc r)) (Sha1.add32 (sd h) (sd r)).

Definition digest (h : state) : list byte :=
  le_bytes 4 (sa h) ++ le_bytes 4 (sb h) ++ le_bytes 4 (sc h) ++ le_bytes 4 (sd h).

(** [md5.Sum]. *)
Definition Sum (msg : list byte) : list byte :=
  let p := pad msg in
  digest (fold_left compress (Sha1.chunks (length p) 64 p) init).

End Md5.

(* ------------------------------------------------------------------ *)
(** ** crypto/aes (Go standard library, FIPS 197): the forward cipher *)

Module Aes.

Definition xtime (x : Z) : Z :=
  let y := Z.shiftl x 1 in
  if Z.testbit x 7 then Z.land (Z.lxor y 0x1b) 0xff else Z.land y 0xff.

(** Multiplication in GF(2^8) modulo x^8 + x^4 + x^3 + x + 1. *)
Fixpoint gmul_aux (n : nat) (a b acc : Z) : Z :=
  match n with
  | O => acc
  | S k =>
      gmul_aux k (xtime a) (Z.shiftr b 1)
               (if Z.testbit b 0 then Z.lxor acc a else acc)
  end.

Definition gmul (a b : Z) : Z := gmul_aux 8 a b 0.

Fixpoint gpow (n : nat) (a : Z) : Z :=
  match n with
  | O => 1
  | S k => gmul a (gpow k a)
  end.

Definition rotl8 (x n : Z) : Z :=
  Z.land (Z.lor (Z.shiftl x n) (Z.shiftr x (8 - n))) 0xff.

Definition sbox_calc (x : Z) : Z :=
  let i := gpow 254 x in
  Z.lxor (Z.lxor (Z.lxor i (rotl8 i 1)) (Z.lxor (rotl8 i 2) (rotl8 i 3)))
         (Z.lxor (rotl8 i 4) 0x63).

Definition sbox_table : list Z :=
  Eval vm_compute in map (fun n => sbox_calc (Z.of_nat n)) (seq 0 256).

Definition sbox (x : Z) : Z := nth (Z.to_nat x) sbox_table 0.

Definition xor_bytes (a b : list Z) : list Z :=
  map (fun p => Z.lxor (fst p) (snd p)) (combine a b).

Definition SubWord (w : list Z) : list Z := map sbox w.

Definition RotWord (w : list Z) : list Z :=
  match w with
  | [] => []
  | x :: rest => rest ++ [x]
  end.

Definition Rcon (j : nat) : list Z := [gpow (j - 1) 2; 0; 0; 0].

Fixpoint words (n : nat) (l : list Z) : list (list Z) :=
  match n with
  | O => []
  | S k => take 4 l :: words k (drop 4 l)
  end.

(** Key expansion: [w] holds the words so far, in order; [i] is the index
    of the next word. *)
Fixpoint expand (n : nat) (Nk i : nat) (w : list (list Z)) : list (list Z) :=
  match n with
  | O => w
  | S k =>
      let temp := nth (i - 1) w [] in
      let temp :=
        if (i mod Nk =? 0)%nat then xor_bytes (SubWord (RotWord temp)) (Rcon (i / Nk))
        else if ((6 <? Nk) && (i mod Nk =? 4))%nat then SubWord temp
        else temp in
      expand k Nk (S i) (w ++ [xor_bytes (nth (i - Nk) w []) temp])
  end.

Definition KeyExpansion (key : list Z) : list (list Z) :=
  let Nk := (length key / 4)%nat in
  let Nr := (Nk + 6)%nat in
  expand (4 * (Nr + 1) - Nk) Nk Nk (words Nk key).

Definition round_key (w : list (list Z)) (r : nat) : list Z :=
  concat (take 4 (drop (4 * r) w)).

(** The state is column-major: byte [r + 4c] is row [r], column [c]. *)
Definition ShiftRows (s : list Z) : list Z :=
  map (fun i => nth (i mod 4 + 4 * ((i / 4 + i mod 4) mod 4)) s 0) (seq 0 16).

Definition mix_column (c : list Z) : list Z :=
  match c with
  | [a0; a1; a2; a3] =>
      [ Z.lxor (Z.lxor (gmul 2 a0) (gmul 3 a1)) (Z.lxor a2 a3);
        Z.lxor (Z.lxor a0 (gmul 2 a1)) (Z.lxor (gmul 3 a2) a3);
        Z.lxor (Z.lxor a0 a1) (Z.lxor (gmul 2 a2) (gmul 3 a3));
        Z.lxor (Z.lxor (gmul 3 a0) a1) (Z.lxor a2 (gmul 2 a3)) ]
  | _ => c
  end.

Definition MixColumns (s : list Z) : list Z :=
  concat (map mix_column (words 4 s)).

Fixpoint rounds (n : nat) (w : list (list Z)) (r : nat) (s : list Z) : list Z :=
  match n with
  | O => s
  | S k =>
      rounds k w (S r)
        (xor_bytes (MixColumns (ShiftRows (map sbox s))) (round_key w r))
  end.

Definition Cipher (w : list (list Z)) (Nr : nat) (input : list Z) : list Z :=
  let s := xor_bytes input (round_key w 0) in
  let s := rounds (Nr - 1) w 1 s in
  xor_bytes (ShiftRows (map sbox s)) (round_key w Nr).

Definition BlockSize : nat := 16.

(** [Block.Encrypt] for an expanded key, on one 16-byte block. *)
Definition encrypt_block (w : list (list Z)) (Nr : nat) (blk : list byte)
  : list byte :=
  map byte_of_Z (Cipher w Nr (map byte_to_Z blk)).

End Aes.

(* ------------------------------------------------------------------ *)
(** ** package strings *)

(** [strings.Join(elems, sep)]. *)
Fixpoint Join (elems : list string) (sep : string) : string :=
  match elems with
  | [] => EmptyString
  | [e] => e
  | e :: rest => e ++ sep ++ Join rest sep
  end.

(** [strings.Split(s, sep)] for a one-byte separator, the only use in the
    repository ([sep = "/"]): always at least one element. *)
Fixpoint Split (s : string) (sep : ascii) : list string :=
  match s with
  | EmptyString => [EmptyString]
  | String c rest =>
      if Ascii.eqb c sep then EmptyString :: Split rest sep
      else
        match Split rest sep with
        | [] => [String c EmptyString]
        | w :: ws => String c w :: ws
        end
  end.

(* ------------------------------------------------------------------ *)
(** ** store.go: path transforms *)

Record PathKey := mkPathKey { PathName : string; Filename : string }.

Definition blocksize : nat := 5.

Definition CASPathTransformFunc (key : string) : PathKey :=
  let hashStr := Hex.EncodeToString (Sha1.Sum (bytes_of_string key)) in
  let sliceLen := (String.length hashStr / blocksize)%nat in
  let paths :=
    map (fun i => substring (i * blocksize) blocksize hashStr) (seq 0 sliceLen) in
  {| PathName := Join paths "/"; Filename := hashStr |}.

Definition PathTransformFunc : Type := string -> PathKey.

Definition DefaultPathTransformFunc : PathTransformFunc :=
  fun key => {| PathName := key; Filename := key |}.

Definition FirstPathName (p : PathKey) : string :=
  let paths := Split (PathName p) "/" in
  match paths with
  | [] => EmptyString
  | first :: _ => first
  end.

Definition FullPath (p : PathKey) : string :=
  PathName p ++ "/" ++ Filename p.


(* ------------------------------------------------------------------ *)
(** ** Errors, outcomes, and the io interfaces *)

Inductive Errno := ENOENT | ENOTDIR | EISDIR | EINVAL | EACCES | EBUSY.

(** The Go [error] values the modelled code can see; [nil] is [None] of
    [option error]. *)
Inductive error :=
  | EOF
  | ErrUnexpectedEOF
  | ErrShortWrite
  | ErrClosed
  | KeySizeError (n : nat)
  | PathError (op path : string) (e : Errno)
  | Errorf (msg : string).

(** [errors.Is(err, os.ErrNotExist)]: on Unix only ENOENT matches. *)
Definition is_ErrNotExist (err : option error) : bool :=
  match err with
  | Some (PathError _ _ ENOENT) => true
  | _ => false
  end.

(** What a call that may wait or loop comes to: it returns, it waits for
    ever on a source that has no data yet, it panics, or the model's loop
    bound was too small. *)
Inductive outcome (A : Type) :=
  | Done (a : A)
  | Blocked
  | Panic (msg : string)
  | OutOfFuel.
Arguments Done {A} a.
Arguments Blocked {A}.
Arguments Panic {A} msg.
Arguments OutOfFuel {A}.

Definition obind {A B} (m : outcome A) (k : A -> outcome B) : outcome B :=
  match m with
  | Done a => k a
  | Blocked => Blocked
  | Panic msg => Panic msg
  | OutOfFuel => OutOfFuel
  end.

Notation "'let*' x ':=' m 'in' k" := (obind m (fun x => k))
  (at level 10, x pattern, m at level 100, k at level 200).

(** [io.Reader]: [Read r n] is [r.Read(p)] with [len(p) = n]; it gives the
    bytes stored in [p[:n']], the error and the reader afterwards, or
    [None] when the call would wait. *)
Class Reader (R : Type) := Read : R -> nat -> option (list byte * option error * R).

(** [io.Writer]: the count written, the error and the writer afterwards. *)
Class Writer (W : Type) := Write : W -> list byte -> Z * option error * W.

Definition len {A} (l : list A) : Z := Z.of_nat (length l).

(** [bytes.Buffer]: the unread bytes. *)
Record Buffer := mkBuffer { unread : list byte }.

#[export] Instance Buffer_Reader : Reader Buffer := fun b n =>
  match unread b with
  | [] => if (n =? 0)%nat then Some ([], None, b) else Some ([], Some EOF, b)
  | _ => Some (take n (unread b), None, mkBuffer (drop n (unread b)))
  end.

#[export] Instance Buffer_Writer : Writer Buffer := fun b p =>
  (len p, None, mkBuffer (unread b ++ p)).

(** [crypto/rand.Reader]: an endless source; every read fills the buffer. *)
Record RandReader := mkRand { rand_at : nat -> byte; rand_pos : nat }.

#[export] Instance Rand_Reader : Reader RandReader := fun r n =>
  Some (map (rand_at r) (seq (rand_pos r) n), None,
        mkRand (rand_at r) (rand_pos r + n)).

(** [io.ReadFull(r, buf)] with [len(buf) = n]: [have] are the bytes read so
    far. *)
Fixpoint ReadFull_loop {R} `{Reader R} (fuel : nat) (r : R) (n : nat)
    (have : list byte) : outcome (list byte * option error * R) :=
  match fuel with
  | O => OutOfFuel
  | S f =>
      match Read r (n - length have) with
      | None => Blocked
      | Some (bs, err, r') =>
          let have' := have ++ bs in
          if (n <=? length have')%nat then Done (have', None, r')
          else
            match err with
            | None => ReadFull_loop f r' n have'
            | Some EOF =>
                Done (have', Some (if (0 <? length have')%nat
                                   then ErrUnexpectedEOF else EOF), r')
            | Some e => Done (have', Some e, r')
            end
      end
  end.

Definition ReadFull {R} `{Reader R} (fuel : nat) (r : R) (n : nat)
  : outcome (list byte * option error * R) :=
  if (n =? 0)%nat then Done ([], None, r) else ReadFull_loop fuel r n [].

(** [io.LimitReader(r, n)]. *)
Record LimitedReader (R : Type) := mkLimited { lr_R : R; lr_N : Z }.
Arguments mkLimited {R}.
Arguments lr_R {R}.
Arguments lr_N {R}.

#[export] Instance Limited_Reader {R} `{Reader R} : Reader (LimitedReader R) :=
  fun l n =>
    if lr_N l <=? 0 then Some ([], Some EOF, l)
    else
      let n' := if lr_N l <? Z.of_nat n then Z.to_nat (lr_N l) else n in
      match Read (lr_R l) n' with
      | None => None
      | Some (bs, err, r') => Some (bs, err, mkLimited r' (lr_N l - len bs))
      end.

(** [io.TeeReader(r, w)]: what is read from [r] is written to [w]. *)
Record TeeReader (R W : Type) := mkTee { tee_r : R; tee_w : W }.
Arguments mkTee {R W}.
Arguments tee_r {R W}.
Arguments tee_w {R W}.

#[export] Instance Tee_Reader {R W} `{Reader R} `{Writer W} : Reader (TeeReader R W) :=
  fun t n =>
    match Read (tee_r t) n with
    | None => None
    | Some (bs, err, r') =>
        if (0 <? length bs)%nat then
          let '(nw, werr, w') := Write (tee_w t) bs in
          match werr with
          | Some e => Some (take (Z.to_nat nw) bs, Some e, mkTee r' w')
          | None => Some (bs, err, mkTee r' w')
          end
        else Some (bs, err, mkTee r' (tee_w t))
    end.

(** [io.MultiWriter(writers...)]: each write goes to every writer in turn
    and stops at the first that fails or is short. *)
Record MultiWriter (W : Type) := mkMulti { writers : list W }.
Arguments mkMulti {W}.
Arguments writers {W}.

Fixpoint multi_write {W} `{Writer W} (ws : list W) (p : list byte)
  : Z * option error * list W :=
  match ws with
  | [] => (len p, None, [])
  | w :: rest =>
      let '(n, err, w') := Write w p in
      match err with
      | Some e => (n, Some e, w' :: rest)
      | None =>
          if n =? len p then
            let '(n2, e2, rest') := multi_write rest p in (n2, e2, w' :: rest')
          else (n, Some ErrShortWrite, w' :: rest)
      end
  end.

#[export] Instance Multi_Writer {W} `{Writer W} : Writer (MultiWriter W) :=
  fun m p => let '(n, err, ws) := multi_write (writers m) p in (n, err, mkMulti ws).

(** The buffer of the copy loops: [make([]byte, 32*1024)]. *)
Definition chunk : nat := 32 * 1024.

(** [io.Copy(dst, src)]: the generic 32 KiB loop. *)
Fixpoint Copy_loop {W R} `{Writer W} `{Reader R} (fuel : nat) (dst : W) (src : R)
    (written : Z) : outcome (Z * option error * W * R) :=
  match fuel with
  | O => OutOfFuel
  | S f =>
      match Read src chunk with
      | None => Blocked
      | Some (bs, er, src') =>
          let step (dst' : W) (written' : Z) :=
            match er with
            | None => Copy_loop f dst' src' written'
            | Some EOF => Done (written', None, dst', src')
            | Some e => Done (written', Some e, dst', src')
            end in
          if (0 <? length bs)%nat then
            let '(nw, ew, dst') := Write dst bs in
            let written' := written + nw in
            match ew with
            | Some e => Done (written', Some e, dst', src')
            | None =>
                if len bs =? nw then step dst' written'
                else Done (written', Some ErrShortWrite, dst', src')
            end
          else step dst written
      end
  end.

Definition Copy {W R} `{Writer W} `{Reader R} (fuel : nat) (dst : W) (src : R)
  : outcome (Z * option error * W * R) :=
  Copy_loop fuel dst src 0.

(* ------------------------------------------------------------------ *)
(** ** crypto/cipher: blocks and the CTR stream *)

Definition xor8 (a b : bool * (bool * (bool * (bool * (bool * (bool * (bool * bool)))))))
  : bool * (bool * (bool * (bool * (bool * (bool * (bool * bool)))))) :=
  let '(a0, (a1, (a2, (a3, (a4, (a5, (a6, a7))))))) := a in
  let '(b0, (b1, (b2, (b3, (b4, (b5, (b6, b7))))))) := b in
  (xorb a0 b0, (xorb a1 b1, (xorb a2 b2, (xorb a3 b3,
    (xorb a4 b4, (xorb a5 b5, (xorb a6 b6, xorb a7 b7))))))).

Definition byte_xor (a b : byte) : byte :=
  Byte.of_bits (xor8 (Byte.to_bits a) (Byte.to_bits b)).

(** [cipher.Block], with the 16-byte block of AES. *)
Record Block := mkBlock { Encrypt : list byte -> list byte }.

(** [aes.NewCipher]: the key is 16, 24 or 32 bytes. *)
Definition aes_NewCipher (key : list byte) : error + Block :=
  let k := length key in
  if ((k =? 16) || (k =? 24) || (k =? 32))%nat then
    let w := Aes.KeyExpansion (map byte_to_Z key) in
    let Nr := (k / 4 + 6)%nat in
    inr (mkBlock (Aes.encrypt_block w Nr))
  else inl (KeySizeError k).

(** The counter is a big-endian integer on the whole block, with wrap. *)
Fixpoint inc_le (l : list byte) : list byte :=
  match l with
  | [] => []
  | b :: rest =>
      let b' := byte_of_Z (byte_to_Z b + 1) in
      if Byte.eqb b' Byte.x00 then b' :: inc_le rest else b' :: rest
  end.

Definition ctr_inc (ctr : list byte) : list byte := rev (inc_le (rev ctr)).

Record ctrStream := mkCTR {
  cs_block : Block;
  cs_ctr : list byte;      (* the next counter block *)
  cs_out : list byte       (* key-stream bytes of the current block, unused *)
}.

Definition NewCTR (b : Block) (iv : list byte) : ctrStream := mkCTR b iv [].

Definition next_key (s : ctrStream) : byte * ctrStream :=
  match cs_out s with
  | k :: ks => (k, mkCTR (cs_block s) (cs_ctr s) ks)
  | [] =>
      let ks := Encrypt (cs_block s) (cs_ctr s) in
      (hd Byte.x00 ks, mkCTR (cs_block s) (ctr_inc (cs_ctr s)) (tl ks))
  end.

(** [stream.XORKeyStream(dst, src)]: the bytes stored in [dst] and the
    stream afterwards. *)
Fixpoint XORKeyStream (s : ctrStream) (src : list byte) : list byte * ctrStream :=
  match src with
  | [] => ([], s)
  | b :: rest =>
      let '(k, s1) := next_key s in
      let '(o, s2) := XORKeyStream s1 rest in
      (byte_xor b k :: o, s2)
  end.

(* ------------------------------------------------------------------ *)
(** ** crypto.go *)

Definition hashKey (key : string) : string :=
  Hex.EncodeToString (Md5.Sum (bytes_of_string key)).

(** The loop of [copyStream]; [nw] is the running total. *)
Fixpoint copyStream_loop {R W} `{Reader R} `{Writer W} (fuel : nat)
    (stream : ctrStream) (nw : Z) (src : R) (dst : W)
  : outcome (Z * option error * R * W) :=
  match fuel with
  | O => OutOfFuel
  | S f =>
      match Read src chunk with
      | None => Blocked
      | Some (bs, err, src') =>
          let next (stream' : ctrStream) (nw' : Z) (dst' : W) :=
            match err with
            | Some EOF => Done (nw', None, src', dst')
            | Some e => Done (0, Some e, src', dst')
            | None => copyStream_loop f stream' nw' src' dst'
            end in
          if (0 <? length bs)%nat then
            let '(out, stream') := XORKeyStream stream bs in
            let '(nn, werr, dst') := Write dst out in
            match werr with
            | Some e => Done (0, Some e, src', dst')
            | None => next stream' (nw + nn) dst'
            end
          else next stream nw dst
      end
  end.

Definition copyStream {R W} `{Reader R} `{Writer W} (fuel : nat)
    (stream : ctrStream) (blockSize : Z) (src : R) (dst : W)
  : outcome (Z * option error * R * W) :=
  copyStream_loop fuel stream blockSize src dst.

Definition copyDecrypt {R W} `{Reader R} `{Writer W} (fuel : nat)
    (key : list byte) (src : R) (dst : W)
  : outcome (Z * option error * R * W) :=
  match aes_NewCipher key with
  | inl e => Done (0, Some e, src, dst)
  | inr block =>
      match Read src Aes.BlockSize with
      | None => Blocked
      | Some (bs, Some e, src') => Done (0, Some e, src', dst)
      | Some (bs, None, src') =>
          let iv := bs ++ repeat Byte.x00 (Aes.BlockSize - length bs) in
          copyStream fuel (NewCTR block iv) (Z.of_nat Aes.BlockSize) src' dst
      end
  end.

Definition copyEncrypt {R W} `{Reader R} `{Writer W} (fuel : nat)
    (rnd : RandReader) (key : list byte) (src : R) (dst : W)
  : outcome (Z * option error * R * W * RandReader) :=
  match aes_NewCipher key with
  | inl e => Done (0, Some e, src, dst, rnd)
  | inr block =>
      let* (iv, err, rnd') := ReadFull fuel rnd Aes.BlockSize in
      match err with
      | Some e => Done (0, Some e, src, dst, rnd')
      | None =>
          let '(_, werr, dst') := Write dst iv in
          match werr with
          | Some e => Done (0, Some e, src, dst', rnd')
          | None =>
              let* (n, e, src', dst'') :=
                copyStream fuel (NewCTR block iv) (Z.of_nat Aes.BlockSize) src dst' in
              Done (n, e, src', dst'', rnd')
          end
      end
  end.

(* ------------------------------------------------------------------ *)
(** ** package os: a tree of directories and regular files

    A location is the list of names from the root of the tree; the process
    runs with the root of the tree as its working directory, so relative
    and absolute paths resolve alike.  There are no symbolic links and no
    permissions.  The root itself is a directory and has no entry. *)

Inductive node := Dir | File (data : list byte).

Abbreviation FS := (gmap (list string) node).

Definition kind (fs : FS) (l : list string) : option node :=
  match l with
  | [] => Some Dir
  | _ => fs !! l
  end.

Definition is_dot (c : string) : bool :=
  (String.eqb c "" || String.eqb c ".")%bool.

(** Path resolution, one component at a time: a component is looked up in
    the directory reached so far, which must exist and be a directory. *)
Fixpoint walk (fs : FS) (cur : list string) (comps : list string)
  : Errno + list string :=
  match comps with
  | [] => inr cur
  | c :: rest =>
      match kind fs cur with
      | None => inl ENOENT
      | Some (File _) => inl ENOTDIR
      | Some Dir =>
          if is_dot c then walk fs cur rest
          else if String.eqb c ".." then walk fs (removelast cur) rest
          else walk fs (cur ++ [c]) rest
      end
  end.

Definition resolve (fs : FS) (path : string) : Errno + list string :=
  walk fs [] (Split path "/").

(** [os.FileInfo]: what the store looks at. *)
Record FileInfo := mkFileInfo { IsDir : bool; Size : Z }.

(** The size reported for a directory (one block). *)
Definition dir_size : Z := 4096.

Definition info_of (n : node) : FileInfo :=
  match n with
  | Dir => mkFileInfo true dir_size
  | File d => mkFileInfo false (len d)
  end.

(** [os.Stat]. *)
Definition Stat (fs : FS) (path : string) : error + FileInfo :=
  match resolve fs path with
  | inl e => inl (PathError "stat" path e)
  | inr l =>
      match kind fs l with
      | None => inl (PathError "stat" path ENOENT)
      | Some n => inr (info_of n)
      end
  end.

(** [os.MkdirAll]: every missing directory on the way is created. *)
Fixpoint mkdir_walk (fs : FS) (cur : list string) (comps : list string)
  : FS * option Errno :=
  match comps with
  | [] => (fs, None)
  | c :: rest =>
      if is_dot c then mkdir_walk fs cur rest
      else if String.eqb c ".." then mkdir_walk fs (removelast cur) rest
      else
        let l := cur ++ [c] in
        match kind fs l with
        | None => mkdir_walk (<[l := Dir]> fs) l rest
        | Some Dir => mkdir_walk fs l rest
        | Some (File _) => (fs, Some ENOTDIR)
        end
  end.

Definition MkdirAll (fs : FS) (path : string) : FS * option error :=
  let '(fs', e) := mkdir_walk fs [] (Split path "/") in
  (fs', option_map (PathError "mkdir" path) e).

(** An open [*os.File]: for writing, the location written to; for reading,
    the node that was opened and the read offset. *)
Record WFile := mkWFile { wf_fs : FS; wf_loc : list string }.

Record RFile := mkRFile { rf_node : node; rf_off : nat }.

(** [os.Create]: open for writing, create or truncate. *)
Definition Create (fs : FS) (path : string) : error + WFile :=
  let comps := Split path "/" in
  match walk fs [] comps with
  | inl e => inl (PathError "open" path e)
  | inr l =>
      let final := List.last comps "" in
      if (is_dot final || String.eqb final "..")%bool
      then inl (PathError "open" path EISDIR)
      else
        match kind fs l with
        | Some Dir => inl (PathError "open" path EISDIR)
        | _ => inr (mkWFile (<[l := File []]> fs) l)
        end
  end.

#[export] Instance WFile_Writer : Writer WFile := fun f p =>
  match wf_fs f !! wf_loc f with
  | Some (File d) =>
      (len p, None, mkWFile (<[wf_loc f := File (d ++ p)]> (wf_fs f)) (wf_loc f))
  | _ => (len p, None, f)
  end.

(** [os.Open] followed by reads of the open file. *)
Definition Open (fs : FS) (path : string) : error + RFile :=
  match resolve fs path with
  | inl e => inl (PathError "open" path e)
  | inr l =>
      match kind fs l with
      | None => inl (PathError "open" path ENOENT)
      | Some n => inr (mkRFile n 0)
      end
  end.

#[export] Instance RFile_Reader : Reader RFile := fun f n =>
  match rf_node f with
  | Dir => Some ([], Some (PathError "read" "" EISDIR), f)
  | File d =>
      let rest := drop (rf_off f) d in
      match rest with
      | [] => if (n =? 0)%nat then Some ([], None, f) else Some ([], Some EOF, f)
      | _ => Some (take n rest, None,
                   mkRFile (rf_node f) (rf_off f + length (take n rest)))
      end
  end.

(** [endsWithDot] of os/removeall: the path is [.] or ends in [/.]. *)
Definition endsWithDot (path : string) : bool :=
  String.eqb (List.last (Split path "/") "") ".".

(** The last component that is not empty, if any. *)
Definition last_name (comps : list string) : string :=
  List.last (List.filter (fun c => negb (String.eqb c "")) comps) "".

Definition below (l : list string) (strict : bool) (k : list string) : bool :=
  (bool_decide (l `prefix_of` k) && (negb strict || negb (bool_decide (k = l))))%bool.

Definition remove_tree (l : list string) (strict : bool) (fs : FS) : FS :=
  filter (fun kv => below l strict kv.1 = false) fs.

(** [os.RemoveAll]: nothing to do is no error; the tree below the path is
    removed; the root of the tree, and a directory named through [.] or
    [..], lose their entries but stay, and the call reports it. *)
Definition RemoveAll (fs : FS) (path : string) : FS * option error :=
  if String.eqb path "" then (fs, None)
  else if endsWithDot path then (fs, Some (PathError "RemoveAll" path EINVAL))
  else
    match resolve fs path with
    | inl ENOENT => (fs, None)
    | inl e => (fs, Some (PathError "unlinkat" path e))
    | inr l =>
        match kind fs l with
        | None => (fs, None)
        | Some _ =>
            let name := last_name (Split path "/") in
            match l with
            | [] => (remove_tree l true fs, Some (PathError "unlinkat" path EBUSY))
            | _ =>
                if (String.eqb name "." || String.eqb name "..")%bool
                then (remove_tree l true fs, Some (PathError "unlinkat" path EINVAL))
                else (remove_tree l false fs, None)
            end
        end
    end.

(* ------------------------------------------------------------------ *)
(** ** store.go: the store *)

Definition defaultRootFolderName : string := "ggnetwork".

Record StoreOpts := mkStoreOpts {
  Root : string;
  PathTransform : option PathTransformFunc   (* a nil func is [None] *)
}.

Record Store := mkStore {
  s_Root : string;
  s_PathTransformFunc : PathTransformFunc
}.

Definition NewStore (opts : StoreOpts) : Store :=
  let f := match PathTransform opts with
           | None => DefaultPathTransformFunc
           | Some f => f
           end in
  let root := if (String.length (Root opts) =? 0)%nat
              then defaultRootFolderName else Root opts in
  mkStore root f.

(** [fmt.Sprintf("%s/%s/%s", a, b, c)]. *)
Definition Sprintf3 (a b c : string) : string := a ++ "/" ++ b ++ "/" ++ c.

Definition Has (s : Store) (fs : FS) (id key : string) : bool :=
  let pathKey := s_PathTransformFunc s key in
  let fullPathWithRoot := Sprintf3 (s_Root s) id (FullPath pathKey) in
  match Stat fs fullPathWithRoot with
  | inl err => negb (is_ErrNotExist (Some err))
  | inr _ => negb (is_ErrNotExist None)
  end.


Definition Delete (s : Store) (fs : FS) (id key : string) : FS * option error :=
  let pathKey := s_PathTransformFunc s key in
  let firstPathNameWithRoot := Sprintf3 (s_Root s) id (FirstPathName pathKey) in
  RemoveAll fs firstPathNameWithRoot.

Definition openFileForWriting (s : Store) (fs : FS) (id key : string)
  : FS * (error + WFile) :=
  let pathKey := s_PathTransformFunc s key in
  let pathNameWithRoot := Sprintf3 (s_Root s) id (PathName pathKey) in
  match MkdirAll fs pathNameWithRoot with
  | (fs', Some err) => (fs', inl err)
  | (fs', None) =>
      let fullPathWithRoot := Sprintf3 (s_Root s) id (FullPath pathKey) in
      (fs', Create fs' fullPathWithRoot)
  end.

(** The results are the count, the error, the file system and the reader
    afterwards. *)
Definition writeStream {R} `{Reader R} (fuel : nat) (s : Store) (fs : FS)
    (id key : string) (r : R) : outcome (Z * option error * FS * R) :=
  match openFileForWriting s fs id key with
  | (fs', inl err) => Done (0, Some err, fs', r)
  | (_, inr f) =>
      let* (n, err, f', r') := Copy fuel f r in
      Done (n, err, wf_fs f', r')
  end.

Definition Store_Write {R} `{Reader R} (fuel : nat) (s : Store) (fs : FS)
    (id key : string) (r : R) : outcome (Z * option error * FS * R) :=
  writeStream fuel s fs id key r.

Definition WriteDecrypt {R} `{Reader R} (fuel : nat) (s : Store) (fs : FS)
    (encKey : list byte) (id key : string) (r : R)
  : outcome (Z * option error * FS * R) :=
  match openFileForWriting s fs id key with
  | (fs', inl err) => Done (0, Some err, fs', r)
  | (_, inr f) =>
      let* (n, err, r', f') := copyDecrypt fuel encKey r f in
      Done (n, err, wf_fs f', r')
  end.

Definition readStream (s : Store) (fs : FS) (id key : string)
  : Z * option RFile * option error :=
  let pathKey := s_PathTransformFunc s key in
  let fullPathWithRoot := Sprintf3 (s_Root s) id (FullPath pathKey) in
  match Open fs fullPathWithRoot with
  | inl err => (0, None, Some err)
  | inr file => (Size (info_of (rf_node file)), Some file, None)
  end.

Definition Store_Read (s : Store) (fs : FS) (id key : string)
  : Z * option RFile * option error :=
  readStream s fs id key.

(* ------------------------------------------------------------------ *)
(** ** p2p/message.go, p2p/encoding.go *)

Definition IncomingMessage : byte := Byte.x01.
Definition IncomingStream : byte := Byte.x02.

Record RPC := mkRPC { From : string; Payload : list byte; Stream : bool }.

(** [RPC{}]. *)
Definition RPC_zero : RPC := mkRPC "" [] false.

(** The frame cap of the default decoder: [make([]byte, 1028)]. *)
Definition frame_cap : nat := 1028.

(** The [Decoder] interface: the error, the message and the reader after
    the call, or [None] when a read waits.  [GOBDecoder] hands the reader
    to encoding/gob, which is outside the repository; the read loop below
    is stated for any decoder. *)
Class Decoder (D : Type) :=
  Decode : forall {R} `{Reader R}, D -> R -> RPC -> option (option error * RPC * R).

Inductive DefaultDecoder : Set := mkDefaultDecoder.

Definition DefaultDecoder_Decode {R} `{Reader R} (dec : DefaultDecoder)
    (r : R) (msg : RPC) : option (option error * RPC * R) :=
  match Read r 1 with
  | None => None
  | Some (_, Some _, r1) => Some (None, msg, r1)
  | Some (peekBuf, None, r1) =>
      let stream := Byte.eqb (hd Byte.x00 peekBuf) IncomingStream in
      if stream then Some (None, mkRPC (From msg) (Payload msg) true, r1)
      else
        match Read r1 frame_cap with
        | None => None
        | Some (_, Some err, r2) => Some (Some err, msg, r2)
        | Some (buf, None, r2) => Some (None, mkRPC (From msg) buf (Stream msg), r2)
        end
  end.

#[export] Instance DefaultDecoder_Decoder : Decoder DefaultDecoder :=
  fun R H dec r msg => DefaultDecoder_Decode dec r msg.

(* ------------------------------------------------------------------ *)
(** ** p2p/tcp_transport.go *)

(** One side of a [net.Conn]: the bytes that have arrived and are unread,
    what a read gives once they are used up ([None]: it waits), the bytes
    written so far and the error writes give, if any. *)
Record Conn := mkConn {
  RemoteAddr : string;
  c_in : list byte;
  c_in_err : option error;
  c_out : list byte;
  c_out_err : option error
}.

#[export] Instance Conn_Reader : Reader Conn := fun c n =>
  match c_in c with
  | [] =>
      if (n =? 0)%nat then Some ([], None, c)
      else match c_in_err c with
           | None => None
           | Some e => Some ([], Some e, c)
           end
  | _ => Some (take n (c_in c), None,
               mkConn (RemoteAddr c) (drop n (c_in c)) (c_in_err c) (c_out c) (c_out_err c))
  end.

#[export] Instance Conn_Writer : Writer Conn := fun c p =>
  match c_out_err c with
  | Some e => (0, Some e, c)
  | None => (len p, None,
             mkConn (RemoteAddr c) (c_in c) (c_in_err c) (c_out c ++ p) (c_out_err c))
  end.

(** [TCPPeer]: the connection, the direction and the counter of the
    [sync.WaitGroup]. *)
Record TCPPeer := mkTCPPeer { conn : Conn; outbound : bool; wg : Z }.

Definition NewTCPPeer (c : Conn) (outbound : bool) : TCPPeer := mkTCPPeer c outbound 0.

Definition with_conn (p : TCPPeer) (c : Conn) : TCPPeer :=
  mkTCPPeer c (outbound p) (wg p).

#[export] Instance TCPPeer_Reader : Reader TCPPeer := fun p n =>
  match Read (conn p) n with
  | None => None
  | Some (bs, err, c') => Some (bs, err, with_conn p c')
  end.

#[export] Instance TCPPeer_Writer : Writer TCPPeer := fun p b =>
  let '(n, err, c') := Write (conn p) b in (n, err, with_conn p c').

(** [CloseStream] is [wg.Done()], which panics below zero. *)
Definition CloseStream (p : TCPPeer) : outcome TCPPeer :=
  if wg p - 1 <? 0 then Panic "sync: negative WaitGroup counter"
  else Done (mkTCPPeer (conn p) (outbound p) (wg p - 1)).

Definition Send (p : TCPPeer) (b : list byte) : option error * TCPPeer :=
  let '(_, err, p') := Write p b in (err, p').

(** The capacity of [rpcch]: [make(chan RPC, 1024)]. *)
Definition rpcch_cap : nat := 1024.

(** Where [handleConn] stands for one connection. *)
Inductive Phase :=
  | Start                      (* before the handshake *)
  | Decoding                   (* at the top of the read loop *)
  | Waiting                    (* in [peer.wg.Wait()] *)
  | Sending (rpc : RPC)        (* at [t.rpcch <- rpc] *)
  | Dropped (err : option error)   (* returned; the connection is closed *)
  | Crashed.                   (* the process panicked *)

Record ConnState := mkConnState {
  cs_peer : TCPPeer;
  cs_phase : Phase;
  cs_rpcch : list RPC          (* the queue, oldest first *)
}.

Inductive Label :=
  | LHandshake
  | LDecode
  | LWake
  | LEnqueue (rpc : RPC)
  | LCloseStream
  | LConsume (rpc : RPC)
  | LArrive (bs : list byte)
  | LRemoteClose (e : error)
  | LStreamRead (n : nat).

Section HandleConn.

Context {D : Type} `{Decoder D}.
Variable decoder : D.
Variable HandshakeFunc : TCPPeer -> option error.
Variable OnPeer : option (TCPPeer -> option error).

(** What the prologue of [handleConn] comes to. *)
Definition prologue (peer : TCPPeer) : Phase :=
  match HandshakeFunc peer with
  | Some err => Dropped (Some err)
  | None =>
      match OnPeer with
      | None => Decoding
      | Some f =>
          match f peer with
          | Some err => Dropped (Some err)
          | None => Decoding
          end
      end
  end.

(** One pass of the read loop up to the point where it waits or sends. *)
Definition decode_step (peer : TCPPeer) : option (TCPPeer * Phase) :=
  match Decode decoder (conn peer) RPC_zero with
  | None => None
  | Some (Some err, _, c') => Some (with_conn peer c', Dropped (Some err))
  | Some (None, rpc, c') =>
      let rpc := mkRPC (RemoteAddr c') (Payload rpc) (Stream rpc) in
      if Stream rpc
      then Some (mkTCPPeer c' (outbound peer) (wg peer + 1), Waiting)
      else Some (with_conn peer c', Sending rpc)
  end.

(** The steps of the goroutine that runs [handleConn]. *)
Inductive loop_step : ConnState -> Label -> ConnState -> Prop :=
  | step_handshake peer q :
      loop_step (mkConnState peer Start q) LHandshake
                (mkConnState peer (prologue peer) q)
  | step_decode peer q peer' ph :
      decode_step peer = Some (peer', ph) ->
      loop_step (mkConnState peer Decoding q) LDecode (mkConnState peer' ph q)
  | step_wake peer q :
      wg peer = 0 ->
      loop_step (mkConnState peer Waiting q) LWake (mkConnState peer Decoding q)
  | step_enqueue peer q rpc :
      (length q < rpcch_cap)%nat ->
      loop_step (mkConnState peer (Sending rpc) q) (LEnqueue rpc)
                (mkConnState peer Decoding (q ++ [rpc])).

(** The steps of everything else: the orchestrator and its handlers
    ([CloseStream], taking from the queue, reading the stream off the
    connection) and the network. *)
Inductive env_step : ConnState -> Label -> ConnState -> Prop :=
  | step_close_stream peer ph q peer' :
      CloseStream peer = Done peer' ->
      env_step (mkConnState peer ph q) LCloseStream (mkConnState peer' ph q)
  | step_close_panic peer ph q msg :
      CloseStream peer = Panic msg ->
      env_step (mkConnState peer ph q) LCloseStream (mkConnState peer Crashed q)
  | step_consume peer ph rpc q :
      env_step (mkConnState peer ph (rpc :: q)) (LConsume rpc) (mkConnState peer ph q)
  | step_arrive peer ph q bs :
      let c := conn peer in
      env_step (mkConnState peer ph q) (LArrive bs)
        (mkConnState
           (with_conn peer (mkConn (RemoteAddr c) (c_in c ++ bs) (c_in_err c)
                                   (c_out c) (c_out_err c))) ph q)
  | step_remote_close peer ph q e :
      let c := conn peer in
      env_step (mkConnState peer ph q) (LRemoteClose e)
        (mkConnState
           (with_conn peer (mkConn (RemoteAddr c) (c_in c) (Some e)
                                   (c_out c) (c_out_err c))) ph q)
  | step_stream_read peer ph q n :
      let c := conn peer in
      env_step (mkConnState peer ph q) (LStreamRead n)
        (mkConnState
           (with_conn peer (mkConn (RemoteAddr c) (drop n (c_in c)) (c_in_err c)
                                   (c_out c) (c_out_err c))) ph q).

Inductive step (s : ConnState) (l : Label) (s' : ConnState) : Prop :=
  | step_loop : loop_step s l s' -> step s l s'
  | step_env : env_step s l s' -> step s l s'.

(** Executions, with the labels in order. *)
Inductive run : ConnState -> list Label -> ConnState -> Prop :=
  | run_nil s : run s [] s
  | run_cons s l s1 ls s2 : step s l s1 -> run s1 ls s2 -> run s (l :: ls) s2.

(** The transport: every connection runs [handleConn] in a goroutine of
    its own, and all of them send on the one [rpcch]. *)
Record TCPTransport := mkTransport {
  t_conns : list (TCPPeer * Phase);
  t_rpcch : list RPC
}.

Definition NewTCPTransport : TCPTransport := mkTransport [] [].

Inductive TLabel :=
  | TConn (i : nat) (l : Label)              (* connection [i] moves *)
  | TNew (c : Conn) (outbound : bool).       (* [go t.handleConn(conn, outbound)] *)

Inductive tstep : TCPTransport -> TLabel -> TCPTransport -> Prop :=
  | tstep_conn conns q i l peer ph peer' ph' q' :
      conns !! i = Some (peer, ph) ->
      step (mkConnState peer ph q) l (mkConnState peer' ph' q') ->
      tstep (mkTransport conns q) (TConn i l)
            (mkTransport (<[i := (peer', ph')]> conns) q')
  | tstep_new conns q c ob :
      tstep (mkTransport conns q) (TNew c ob)
            (mkTransport (conns ++ [(NewTCPPeer c ob, Start)]) q).

Inductive trun : TCPTransport -> list TLabel -> TCPTransport -> Prop :=
  | trun_nil t : trun t [] t
  | trun_cons t l t1 ls t2 : tstep t l t1 -> trun t1 ls t2 -> trun t (l :: ls) t2.

End HandleConn.

Definition NOPHandshakeFunc (p : TCPPeer) : option error := None.

(* ------------------------------------------------------------------ *)
(** ** server.go *)

Inductive MessagePayload :=
  | MessageStoreFile (ID Key : string) (Size : Z)
  | MessageGetFile (ID Key : string).

(** [Message{Payload any}]: the zero value has no payload. *)
Record Message := mkMessage { msg_Payload : option MessagePayload }.

(** [binary.Read(r, binary.LittleEndian, &int64)]: eight bytes, signed. *)
Definition le_int64 (bs : list byte) : Z :=
  let u := fold_right (fun b acc => byte_to_Z b + 256 * acc) 0 bs in
  if u <? 2 ^ 63 then u else u - 2 ^ 64.

(** The node: its options, the peers, the store, and the two things of
    the process it works on, the disk and the entropy source. *)
Record FileServer := mkFileServer {
  ID : string;
  EncKey : list byte;
  Addr : string;                    (* [s.Transport.Addr()] *)
  peers : gmap string TCPPeer;
  store : Store;
  disk : FS;
  entropy : RandReader
}.

Definition set_peers (s : FileServer) (ps : gmap string TCPPeer) : FileServer :=
  mkFileServer (ID s) (EncKey s) (Addr s) ps (store s) (disk s) (entropy s).

Definition set_disk (s : FileServer) (fs : FS) : FileServer :=
  mkFileServer (ID s) (EncKey s) (Addr s) (peers s) (store s) fs (entropy s).

Section Server.

(** encoding/gob is outside the repository: the encoding of a message
    and its decoding are parameters. *)
Variable gob_encode : Message -> error + list byte.
Variable gob_decode : list byte -> error + Message.

(** The loop of [broadcast] over the peers still to visit.  Go ranges
    over the map in no fixed order; the model takes the order of
    [map_to_list]. *)
Fixpoint broadcast_loop (s : FileServer) (addrs : list string) (buf : list byte)
  : option error * FileServer :=
  match addrs with
  | [] => (None, s)
  | a :: rest =>
      match peers s !! a with
      | None => broadcast_loop s rest buf
      | Some peer =>
          let '(_, peer1) := Send peer [IncomingMessage] in
          let '(err, peer2) := Send peer1 buf in
          let s' := set_peers s (<[a := peer2]> (peers s)) in
          match err with
          | Some e => (Some e, s')
          | None => broadcast_loop s' rest buf
          end
      end
  end.

Definition peer_addrs (s : FileServer) : list string :=
  map fst (map_to_list (peers s)).

Definition broadcast (s : FileServer) (msg : Message) : option error * FileServer :=
  match gob_encode msg with
  | inl err => (Some err, s)
  | inr buf => broadcast_loop s (peer_addrs s) buf
  end.

(** The receiving loop of [Get]. *)
Fixpoint Get_receive (fuel : nat) (s : FileServer) (key : string)
    (addrs : list string) : outcome (option error * FileServer) :=
  match addrs with
  | [] => Done (None, s)
  | a :: rest =>
      match peers s !! a with
      | None => Get_receive fuel s key rest
      | Some peer =>
          let* (bs, rerr, peer1) := ReadFull fuel peer 8 in
          let fileSize := match rerr with None => le_int64 bs | Some _ => 0 end in
          let* (n, err, fs', lr) :=
            WriteDecrypt fuel (store s) (disk s) (EncKey s) (ID s) key
                         (mkLimited peer1 fileSize) in
          let s1 := set_disk (set_peers s (<[a := lr_R lr]> (peers s))) fs' in
          match err with
          | Some e => Done (Some e, s1)
          | None =>
              let* peer2 := CloseStream (lr_R lr) in
              Get_receive fuel (set_peers s1 (<[a := peer2]> (peers s1))) key rest
          end
      end
  end.

(** [Get]: the reader, the error and the node afterwards. *)
Definition Get (fuel : nat) (s : FileServer) (key : string)
  : outcome (option RFile * option error * FileServer) :=
  if Has (store s) (disk s) (ID s) key then
    let '(_, r, err) := Store_Read (store s) (disk s) (ID s) key in
    Done (r, err, s)
  else
    let msg := mkMessage (Some (MessageGetFile (ID s) (hashKey key))) in
    match broadcast s msg with
    | (Some err, s1) => Done (None, Some err, s1)
    | (None, s1) =>
        let* (err, s2) := Get_receive fuel s1 key (peer_addrs s1) in
        match err with
        | Some e => Done (None, Some e, s2)
        | None =>
            let '(_, r, err) := Store_Read (store s2) (disk s2) (ID s2) key in
            Done (r, err, s2)
        end
    end.

Definition set_entropy (s : FileServer) (rnd : RandReader) : FileServer :=
  mkFileServer (ID s) (EncKey s) (Addr s) (peers s) (store s) (disk s) rnd.

(** The peers written back after the fan-out write. *)
Fixpoint put_peers (ps : gmap string TCPPeer) (addrs : list string)
    (ws : list TCPPeer) : gmap string TCPPeer :=
  match addrs, ws with
  | a :: addrs', w :: ws' => put_peers (<[a := w]> ps) addrs' ws'
  | _, _ => ps
  end.

(** [FileServer.Store]: the error, the node and the reader afterwards. *)
Definition FileServer_Store {R} `{Reader R} (fuel : nat) (s : FileServer)
    (key : string) (r : R) : outcome (option error * FileServer * R) :=
  let tee := mkTee r (mkBuffer []) in
  let* (size, err, fs', tee') :=
    Store_Write fuel (store s) (disk s) (ID s) key tee in
  let s1 := set_disk s fs' in
  match err with
  | Some e => Done (Some e, s1, tee_r tee')
  | None =>
      let msg := mkMessage (Some (MessageStoreFile (ID s) (hashKey key) (size + 16))) in
      match broadcast s1 msg with
      | (Some e, s2) => Done (Some e, s2, tee_r tee')
      | (None, s2) =>
          let addrs := peer_addrs s2 in
          let mw := mkMulti (map snd (map_to_list (peers s2))) in
          let '(_, _, mw1) := Write mw [IncomingStream] in
          let* (n, err, _, mw2, rnd') :=
            copyEncrypt fuel (entropy s2) (EncKey s2) (tee_w tee') mw1 in
          let s3 := set_entropy (set_peers s2 (put_peers (peers s2) addrs (writers mw2))) rnd' in
          Done (err, s3, tee_r tee')
      end
  end.

Definition OnPeer (s : FileServer) (p : TCPPeer) : option error * FileServer :=
  (None, set_peers s (<[RemoteAddr (conn p) := p]> (peers s))).

Definition handleMessageStoreFile (fuel : nat) (s : FileServer) (from : string)
    (ID Key : string) (Size : Z) : outcome (option error * FileServer) :=
  match peers s !! from with
  | None => Done (Some (Errorf "peer could not be found in the peer list"), s)
  | Some peer =>
      let* (n, err, fs', lr) :=
        Store_Write fuel (store s) (disk s) ID Key (mkLimited peer Size) in
      let s1 := set_disk (set_peers s (<[from := lr_R lr]> (peers s))) fs' in
      match err with
      | Some e => Done (Some e, s1)
      | None =>
          let* peer2 := CloseStream (lr_R lr) in
          Done (None, set_peers s1 (<[from := peer2]> (peers s1)))
      end
  end.

(** [binary.Write(w, binary.LittleEndian, int64)]. *)
Definition le_bytes8 (z : Z) : list byte :=
  map (fun i => byte_of_Z (Z.shiftr (z mod 2 ^ 64) (8 * Z.of_nat i))) (seq 0 8).

Definition handleMessageGetFile (fuel : nat) (s : FileServer) (from : string)
    (ID Key : string) : outcome (option error * FileServer) :=
  if negb (Has (store s) (disk s) ID Key) then
    Done (Some (Errorf "need to serve file but it does not exist on disk"), s)
  else
    match Store_Read (store s) (disk s) ID Key with
    | (_, _, Some err) => Done (Some err, s)
    | (_, None, None) => Done (None, s)
    | (fileSize, Some r, None) =>
        match peers s !! from with
        | None => Done (Some (Errorf "peer not in map"), s)
        | Some peer =>
            let '(_, peer1) := Send peer [IncomingStream] in
            let '(_, _, peer2) := Write peer1 (le_bytes8 fileSize) in
            let* (n, err, peer3, _) := Copy fuel peer2 r in
            Done (err, set_peers s (<[from := peer3]> (peers s)))
        end
    end.



End Server.

(* ------------------------------------------------------------------ *)
(** ** Vocabulary of the properties *)

(** The eight groups of a 40-character digest. *)
Definition segments (h : string) : list string :=
  map (fun i => substring (i * blocksize) blocksize h) (seq 0 8).

(** The writer after [p] has been written to it. *)
Definition wrote {W} `{Writer W} (w : W) (p : list byte) : W := (Write w p).2.

(** Writers that take everything and only append: [bytes.Buffer] and an
    open file. *)
Class LawfulWriter (W : Type) `{Writer W} := {
  Write_ok : forall w p, Write w p = (len p, None, wrote w p);
  wrote_app : forall w a b, wrote (wrote w a) b = wrote w (a ++ b);
  wrote_nil : forall w, wrote w [] = w
}.

(** [drains r data r']: read with the 32 KiB buffer until it reports EOF,
    [r] gives [data], without waiting and without another error, and is
    [r'] afterwards. *)
Inductive drains {R} `{Reader R} : R -> list byte -> R -> Prop :=
  | drains_eof r r' :
      Read r chunk = Some ([], Some EOF, r') -> drains r [] r'
  | drains_chunk r bs r1 rest r' :
      Read r chunk = Some (bs, None, r1) -> bs <> [] ->
      drains r1 rest r' -> drains r (bs ++ rest) r'.

(** Sample values for the examples. *)
Definition sample_key : list byte :=
  map (fun i => byte_of_Z (Z.of_nat i)) (seq 0 32).

Definition sample_rand : RandReader :=
  mkRand (fun i => byte_of_Z (Z.of_nat (7 * i + 3))) 0.

Definition sample_payload : list byte := bytes_of_string "Foo not bar".

(** An ordinary name: not empty, not [.], not [..]. *)
Definition proper_name (c : string) : bool :=
  (negb (is_dot c) && negb (String.eqb c ".."))%bool.

(** No component of the path is [..]. *)
Definition no_dotdot (path : string) : bool :=
  forallb (fun c => negb (String.eqb c "..")) (Split path "/").

(** The names a path without [..] walks through. *)
Definition names (comps : list string) : list string :=
  List.filter (fun c => negb (is_dot c)) comps.

(** The full path and the bucket path of a key, as the store builds them. *)
Definition full_path (s : Store) (id key : string) : string :=
  Sprintf3 (s_Root s) id (FullPath (s_PathTransformFunc s key)).


(** Stores and trees for the examples. *)
Definition cas_store : Store :=
  NewStore (mkStoreOpts "" (Some CASPathTransformFunc)).



(** The two halves of what a call on the tree comes to: the values it
    returns and the tree it leaves ([dflt] when it does not return). *)
Definition result_of {A B C D} (o : outcome (A * B * C * D)) : option (A * B * D) :=
  match o with
  | Done (a, b, _, d) => Some (a, b, d)
  | _ => None
  end.

Definition state_of {A B C D} (o : outcome (A * B * C * D)) (dflt : C) : C :=
  match o with
  | Done (_, _, c, _) => c
  | _ => dflt
  end.

(** The tree after a write, for the examples. *)
Definition written (s : Store) (fs : FS) (id key : string) (data : list byte) : FS :=
  state_of (Store_Write (S (length data)) s fs id key (mkBuffer data)) fs.

(** Three pictures on the disk of node "node"; the first two fall into the
    bucket "66a2f". *)
Definition three_pictures : FS :=
  written cas_store
    (written cas_store
       (written cas_store ∅ "node" "picture_75.png" (bytes_of_string "picture 75"))
       "node" "picture_1475.png" (bytes_of_string "picture 1475"))
    "node" "picture_0.png" (bytes_of_string "picture 0").

(** The contract of [io.Reader]: a read gives no more than the buffer
    holds. *)
Class ReaderContract (R : Type) `{Reader R} :=
  Read_bound : forall (r r' : R) n bs e,
    Read r n = Some (bs, e, r') -> (length bs <= n)%nat.

(** A connection with [bs] unread, and one that has been closed by the
    other side. *)
Definition conn_with (addr : string) (bs : list byte) : Conn :=
  mkConn addr bs None [] None.

Definition conn_closed (addr : string) : Conn :=
  mkConn addr [] (Some EOF) [] None.

Definition set_c_in (c : Conn) (bs : list byte) : Conn :=
  mkConn (RemoteAddr c) bs (c_in_err c) (c_out c) (c_out_err c).

(** A node with one peer, for the examples; the encoder of the example
    writes one byte per message kind. *)
Definition example_gob (m : Message) : error + list byte :=
  match msg_Payload m with
  | Some (MessageStoreFile _ _ _) => inr [Byte.x53]
  | Some (MessageGetFile _ _) => inr [Byte.x47]
  | None => inr []
  end.

Definition example_node (ps : gmap string TCPPeer) (fs : FS) : FileServer :=
  mkFileServer "node" sample_key ":3000" ps cas_store fs sample_rand.

(** What the read loop may hold for the queue, and what the queue may
    hold: no stream unit. *)
Definition conn_inv (ph : Phase) : Prop :=
  match ph with
  | Sending rpc => Stream rpc = false
  | _ => True
  end.

Definition transport_inv (t : TCPTransport) : Prop :=
  Forall (fun rpc => Stream rpc = false) (t_rpcch t) /\
  Forall (fun pp => conn_inv pp.2) (t_conns t).

(** A short life of one connection: accepted, handshake, a stream tag is
    decoded, the stream is closed, the loop wakes up. *)
Definition stream_conn : Conn := conn_with "10.0.0.2:4000" [IncomingStream].

Definition stream_run : list TLabel :=
  [TNew stream_conn false; TConn 0 LHandshake; TConn 0 LDecode;
   TConn 0 LCloseStream; TConn 0 LWake].

Definition stream_run_end : TCPTransport :=
  mkTransport [(mkTCPPeer (conn_with "10.0.0.2:4000" []) false 0, Decoding)] [].

(** What node A sends after the stream tag when it stores
    [sample_payload]: the IV and the payload under its key. *)
Definition cipher_stream : list byte :=
  match copyEncrypt 12 sample_rand sample_key (mkBuffer sample_payload) (mkBuffer []) with
  | Done (_, _, _, dst, _) => unread dst
  | _ => []
  end.

(** Node B, with node A as its one peer; A's stream is in the connection
    and the read loop of B waits at the gate. *)
Definition node_B : FileServer :=
  mkFileServer "nodeB" (map (fun i => byte_of_Z (Z.of_nat (i + 100))) (seq 0 32))
    ":7000"
    {[ "10.0.0.1:3000" := mkTCPPeer (conn_with "10.0.0.1:3000" cipher_stream) false 1 ]}
    cas_store ∅ sample_rand.

(** Node A after it deleted its local copy, with B's reply to its request
    in the connection (the stream tag already taken by the read loop). *)
Definition node_A (reply : list byte) : FileServer :=
  mkFileServer "nodeA" sample_key ":3000"
    {[ "10.0.0.2:7000" := mkTCPPeer (conn_with "10.0.0.2:7000" reply) true 1 ]}
    cas_store ∅ sample_rand.

(** No '/' in the string. *)
Fixpoint no_slash (s : string) : bool :=
  match s with
  | EmptyString => true
  | String c rest => (negb (Ascii.eqb c "/") && no_slash rest)%bool
  end.

(** The end-to-end scenario of the specification, played step by step:
    two nodes A and B; A stores "picture_0.png"; B's handler takes the
    stream; A deletes its copy and gets the key again, B answering in
    between.  Each node has a disk of its own.  The result is what A's
    [Get] returns, what B has on disk for the key, and the gates of the
    two peers at the end. *)
Definition peer_of (s : FileServer) (addr : string) : TCPPeer :=
  default (mkTCPPeer (conn_with addr []) false 0) (peers s !! addr).

Definition scenario_data : list byte := bytes_of_string "my big data file here!".

Definition scenario
  : outcome (option RFile * option error * option node * Z * Z) :=
  let key := "picture_0.png" in
  let addrA := "10.0.0.1:3000" in
  let addrB := "10.0.0.2:7000" in
  let A0 := mkFileServer "nodeA" sample_key ":3000"
              {[ addrB := mkTCPPeer (conn_with addrB []) true 0 ]}
              cas_store ∅ sample_rand in
  (* A stores the file: the StoreFile frame, the stream tag and the stream
     go out to B. *)
  let* (_, A1, _) := FileServer_Store example_gob 40 A0 key (mkBuffer scenario_data) in
  let sent := c_out (conn (peer_of A1 addrB)) in
  (* B's read loop has taken the frame and the stream tag and waits; the
     dispatch loop of B handles the StoreFile message. *)
  let B0 := mkFileServer "nodeB"
              (map (fun i => byte_of_Z (Z.of_nat (i + 100))) (seq 0 32)) ":7000"
              {[ addrA := mkTCPPeer (conn_with addrA (drop 3 sent)) false 1 ]}
              cas_store ∅ sample_rand in
  let* (_, B1) :=
    handleMessageStoreFile 40 B0 addrA "nodeA" (hashKey key) (len scenario_data + 16) in
  (* A deletes its copy. *)
  let A2 := set_disk A1 (Delete (store A1) (disk A1) (ID A1) key).1 in
  (* B answers A's GetFile. *)
  let* (_, B2) := handleMessageGetFile 40 B1 addrA "nodeA" (hashKey key) in
  let reply := c_out (conn (peer_of B2 addrA)) in
  (* A's read loop has taken the stream tag of the reply and waits; A gets
     the key. *)
  let A3 := set_peers A2
              {[ addrB := mkTCPPeer (conn_with addrB (drop 1 reply)) true 1 ]} in
  let* (r, err, A4) := Get example_gob 40 A3 key in
  let blob_at_B :=
    match resolve (disk B2) (full_path (store B2) "nodeA" (hashKey key)) with
    | inr l => kind (disk B2) l
    | inl _ => None
    end in
  Done (r, err, blob_at_B, wg (peer_of B2 addrA), wg (peer_of A4 addrB)).

(** ** crypto.go, server.go: fresh IDs, keys and nodes *)

(** [generateID] and [newEncryptionKey] (crypto.go): 32 bytes from the
    entropy source; the error of [io.ReadFull] is dropped, the buffer
    keeping its zeros where nothing was read. *)
Definition generateID (fuel : nat) (rnd : RandReader) : outcome (string * RandReader) :=
  let* (bs, _, rnd') := ReadFull fuel rnd 32 in
  let buf := bs ++ repeat Byte.x00 (32 - length bs) in
  Done (Hex.EncodeToString buf, rnd').

Definition newEncryptionKey (fuel : nat) (rnd : RandReader)
  : outcome (list byte * RandReader) :=
  let* (bs, _, rnd') := ReadFull fuel rnd 32 in
  let keyBuf := bs ++ repeat Byte.x00 (32 - length bs) in
  Done (keyBuf, rnd').

(** [FileServerOpts] and [NewFileServer] (server.go); [o_Addr] stands for
    the transport, of which the node uses the address. *)
Record FileServerOpts := mkFileServerOpts {
  o_ID : string;
  o_EncKey : list byte;
  o_StorageRoot : string;
  o_PathTransformFunc : option PathTransformFunc;
  o_Addr : string;
  o_BootstrapNodes : list string
}.

Definition NewFileServer (fuel : nat) (opts : FileServerOpts) (fs : FS)
    (rnd : RandReader) : outcome FileServer :=
  let storeOpts := mkStoreOpts (o_StorageRoot opts) (o_PathTransformFunc opts) in
  let* (id, rnd') :=
    if (String.length (o_ID opts) =? 0)%nat then generateID fuel rnd
    else Done (o_ID opts, rnd) in
  Done (mkFileServer id (o_EncKey opts) (o_Addr opts) ∅ (NewStore storeOpts) fs rnd').

(** ** Further vocabulary of the properties *)

(** What the queue and a loop about to send may hold, for the default
    decoder: an RPC stamped with the remote address of its connection,
    with a payload within the frame cap. *)
Definition stamped (addr : string) (rpc : RPC) : Prop :=
  From rpc = addr /\ (length (Payload rpc) <= frame_cap)%nat.

Definition conn_addrs (t : TCPTransport) : list string :=
  map (fun pp => RemoteAddr (conn pp.1)) (t_conns t).

Definition stamped_inv (t : TCPTransport) : Prop :=
  Forall (fun rpc => exists addr, In addr (conn_addrs t) /\ stamped addr rpc)
         (t_rpcch t) /\
  Forall (fun pp => match pp.2 with
                    | Sending rpc => stamped (RemoteAddr (conn pp.1)) rpc
                    | _ => True
                    end) (t_conns t).

(** A short life of one connection that brings a message: accepted,
    handshake, the frame is decoded, the RPC is sent on the queue. *)
Definition message_conn : Conn :=
  conn_with "10.0.0.2:4000" [IncomingMessage; Byte.x47; Byte.x6f].

Definition message_rpc : RPC := mkRPC "10.0.0.2:4000" [Byte.x47; Byte.x6f] false.

Definition message_run : list TLabel :=
  [TNew message_conn false; TConn 0 LHandshake; TConn 0 LDecode;
   TConn 0 (LEnqueue message_rpc)].

Definition message_run_end : TCPTransport :=
  mkTransport [(mkTCPPeer (conn_with "10.0.0.2:4000" []) false 0, Decoding)]
              [message_rpc].

(** A peer whose connection takes writes, and the peer after [b] has been
    written to its connection. *)
Definition healthy (p : TCPPeer) : Prop := c_out_err (conn p) = None.

Definition sent (p : TCPPeer) (b : list byte) : TCPPeer :=
  let c := conn p in
  mkTCPPeer (mkConn (RemoteAddr c) (c_in c) (c_in_err c) (c_out c ++ b) (c_out_err c))
            (outbound p) (wg p).

Definition all_healthy (m : MultiWriter TCPPeer) : Prop := Forall healthy (writers m).

(** The file that [openFileForWriting] opens, for the examples (a file
    nowhere when it fails). *)
Definition opened (s : Store) (fs : FS) (id key : string) : WFile :=
  match (openFileForWriting s fs id key).2 with
  | inr f => f
  | inl _ => mkWFile ∅ []
  end.

Definition opens (s : Store) (fs : FS) (id key : string) : bool :=
  match (openFileForWriting s fs id key).2 with
  | inr _ => true
  | inl _ => false
  end.

(** Two peers that take writes, and nodes for the examples: one with a
    key that [aes.NewCipher] refuses, one whose peer has closed the
    connection, one whose peer has answered with [cipher_stream]. *)
Definition two_peers : gmap string TCPPeer :=
  {[ "10.0.0.2:4000" := NewTCPPeer (conn_with "10.0.0.2:4000" []) true;
     "10.0.0.3:4000" := NewTCPPeer (conn_with "10.0.0.3:4000" []) false ]}.

Definition bad_key_node : FileServer :=
  mkFileServer "node" (take 31 sample_key) ":3000" two_peers cas_store ∅ sample_rand.

Definition closed_peer_node : FileServer :=
  example_node {[ "10.0.0.2:4000" := mkTCPPeer (conn_closed "10.0.0.2:4000") true 0 ]} ∅.

Definition answered_node : FileServer :=
  node_A (le_bytes8 (len cipher_stream) ++ cipher_stream ++ []).

(* ================================================================== *)
(** * Properties *)

(** ** The standard-library models on published test vectors *)

Example Sha1_test_vectors :
  Hex.EncodeToString (Sha1.Sum (bytes_of_string "abc"))
  = "a9993e364706816aba3e25717850c26c9cd0d89d" /\
  Hex.EncodeToString (Sha1.Sum (bytes_of_string ""))
  = "da39a3ee5e6b4b0d3255bfef95601890afd80709" /\
  Hex.EncodeToString
    (Sha1.Sum (bytes_of_string
                 "abcdbcdecdefdefgefghfghighijhijkijkljklmklmnlmnomnopnopq"))
  = "84983e441c3bd26ebaae4aa1f95129e5e54670f1".
Proof. repeat split; vm_compute; reflexivity. Qed.

Example Md5_test_vectors :
  hashKey "" = "d41d8cd98f00b204e9800998ecf8427e" /\
  hashKey "abc" = "900150983cd24fb0d6963f7d28e17f72" /\
  hashKey "message digest" = "f96b697d7cb7938d525a2f31aaf161d0".
Proof. repeat split; vm_compute; reflexivity. Qed.

(** FIPS 197, appendix C: the key 00 01 02 ... and the block
    00 11 22 ... ff, for the three key sizes. *)
Example Aes_test_vectors :
  let key n := map (fun i => byte_of_Z (Z.of_nat i)) (seq 0 n) in
  let blk := map (fun i => byte_of_Z (Z.of_nat (17 * i))) (seq 0 16) in
  let enc n := match aes_NewCipher (key n) with
               | inr b => Hex.EncodeToString (Encrypt b blk)
               | inl _ => ""
               end in
  enc 16%nat = "69c4e0d86a7b0430d8cdb78070b4c55a" /\
  enc 24%nat = "dda97ca4864cdfe06eaf70a0ec0d7191" /\
  enc 32%nat = "8ea2b7ca516745bfeafc49904b496089" /\
  aes_NewCipher (key 31%nat) = inl (KeySizeError 31).
Proof. repeat split; vm_compute; reflexivity. Qed.

Example Split_Join_examples :
  Split "a/b" "/" = ["a"; "b"] /\
  Split "a/" "/" = ["a"; ""] /\
  Split "/a" "/" = [""; "a"] /\
  Split "" "/" = [""] /\
  Join ["a"; "b"; "c"] "/" = "a/b/c" /\
  Join [] "/" = "".
Proof. repeat split; reflexivity. Qed.

(** ** The path transform *)

Lemma be_bytes_length n x : length (Sha1.be_bytes n x) = n.
Proof. induction n as [|n IH]; simpl; [reflexivity | now rewrite IH]. Qed.

Lemma Sha1_Sum_length msg : length (Sha1.Sum msg) = 20%nat.
Proof.
  unfold Sha1.Sum, Sha1.digest.
  rewrite !length_app, !be_bytes_length. reflexivity.
Qed.

Lemma EncodeToString_length bs :
  String.length (Hex.EncodeToString bs) = (2 * length bs)%nat.
Proof. induction bs as [|b bs IH]; simpl; [reflexivity | rewrite IH; lia]. Qed.

Lemma digest_length key :
  String.length (Hex.EncodeToString (Sha1.Sum (bytes_of_string key))) = 40%nat.
Proof. now rewrite EncodeToString_length, Sha1_Sum_length. Qed.

Lemma segments_shape h :
  String.length h = 40%nat ->
  length (segments h) = 8%nat /\
  Forall (fun seg => String.length seg = 5%nat) (segments h) /\
  String.concat "" (segments h) = h.
Proof.
  intros Hlen.
  do 40 (destruct h as [|? h]; [discriminate Hlen|]).
  destruct h; [|discriminate Hlen].
  split; [reflexivity|]. split; [|reflexivity].
  unfold segments. simpl. repeat constructor.
Qed.

Lemma CAS_closed_form key :
  CASPathTransformFunc key
  = mkPathKey
      (Join (segments (Hex.EncodeToString (Sha1.Sum (bytes_of_string key)))) "/")
      (Hex.EncodeToString (Sha1.Sum (bytes_of_string key))).
Proof.
  unfold CASPathTransformFunc, segments.
  rewrite digest_length. reflexivity.
Qed.

(** C2. The default (content-addressed) transform is a function of the
    hex SHA-1 digest of the key alone, so repeated calls give the same
    [PathKey]: the digest has 40 characters, the file name is the digest,
    the path name is the digest cut into 8 groups of 5 characters joined
    with '/', and the full path is that followed by '/' and the digest.
    For the key "momsbestpicture" the groups and the leaf are the ones
    below. *)
Theorem CASPathTransformFunc_digest_layout (k : string) :
  let digest := Hex.EncodeToString (Sha1.Sum (bytes_of_string k)) in
  let pk := CASPathTransformFunc k in
  pk = mkPathKey (Join (segments digest) "/") digest /\
  String.length digest = 40%nat /\
  Filename pk = digest /\
  length (segments digest) = 8%nat /\
  Forall (fun seg => String.length seg = 5%nat) (segments digest) /\
  String.concat "" (segments digest) = digest /\
  FullPath pk = (Join (segments digest) "/" ++ "/" ++ digest)%string /\
  CASPathTransformFunc "momsbestpicture"
  = mkPathKey "68044/29f74/181a6/3c50c/3d81d/733a1/2f14a/353ff"
              "6804429f74181a63c50c3d81d733a12f14a353ff" /\
  segments "6804429f74181a63c50c3d81d733a12f14a353ff"
  = ["68044"; "29f74"; "181a6"; "3c50c"; "3d81d"; "733a1"; "2f14a"; "353ff"].
Proof.
  intros digest pk.
  pose proof (digest_length k) as Hlen. fold digest in Hlen.
  destruct (segments_shape digest Hlen) as (H8 & H5 & Hcat).
  assert (Hpk : pk = mkPathKey (Join (segments digest) "/") digest).
  { apply CAS_closed_form. }
  split; [exact Hpk|].
  split; [exact Hlen|].
  split; [now rewrite Hpk|].
  split; [exact H8|].
  split; [exact H5|].
  split; [exact Hcat|].
  split; [now rewrite Hpk|].
  split; vm_compute; reflexivity.
Qed.

(** ** The stream codec *)

Lemma xor8_involutive a k : xor8 (xor8 a k) k = a.
Proof.
  destruct a as (a0 & a1 & a2 & a3 & a4 & a5 & a6 & a7).
  destruct k as (k0 & k1 & k2 & k3 & k4 & k5 & k6 & k7).
  unfold xor8.
  repeat rewrite xorb_assoc, xorb_nilpotent, xorb_false_r.
  reflexivity.
Qed.

Lemma byte_xor_involutive a k : byte_xor (byte_xor a k) k = a.
Proof.
  unfold byte_xor.
  rewrite Byte.to_bits_of_bits, xor8_involutive.
  apply Byte.of_bits_to_bits.
Qed.

(** The key stream does not depend on the data: after [n] bytes the
    stream is where it is after any other [n] bytes. *)
Lemma XORKeyStream_state s l1 l2 :
  length l1 = length l2 -> (XORKeyStream s l1).2 = (XORKeyStream s l2).2.
Proof.
  revert s l2. induction l1 as [|b l1 IH]; intros s [|c l2] Hl;
    try discriminate; [reflexivity|].
  simpl. destruct (next_key s) as [k s1].
  specialize (IH s1 l2 ltac:(simpl in Hl; lia)).
  destruct (XORKeyStream s1 l1), (XORKeyStream s1 l2). simpl in *. exact IH.
Qed.

Lemma XORKeyStream_length s l : length (XORKeyStream s l).1 = length l.
Proof.
  revert s. induction l as [|b l IH]; intros s; [reflexivity|].
  simpl. destruct (next_key s) as [k s1].
  specialize (IH s1). destruct (XORKeyStream s1 l). simpl in *. now rewrite IH.
Qed.

(** Cutting the input into chunks does not change the output. *)
Lemma XORKeyStream_app s l1 l2 :
  XORKeyStream s (l1 ++ l2)
  = ((XORKeyStream s l1).1 ++ (XORKeyStream (XORKeyStream s l1).2 l2).1,
     (XORKeyStream (XORKeyStream s l1).2 l2).2).
Proof.
  revert s. induction l1 as [|b l1 IH]; intros s.
  - simpl. now destruct (XORKeyStream s l2).
  - simpl. destruct (next_key s) as [k s1]. rewrite IH.
    destruct (XORKeyStream s1 l1) as [o1 s2]. simpl.
    destruct (XORKeyStream s2 l2). reflexivity.
Qed.

(** Counter mode is its own inverse. *)
Lemma XORKeyStream_involutive s l :
  (XORKeyStream s (XORKeyStream s l).1).1 = l.
Proof.
  revert s. induction l as [|b l IH]; intros s; [reflexivity|].
  simpl. destruct (next_key s) as [k s1] eqn:Hk.
  specialize (IH s1). destruct (XORKeyStream s1 l) as [o s2]. simpl in *.
  rewrite Hk. destruct (XORKeyStream s1 o) as [o' s3]. simpl in *.
  now rewrite byte_xor_involutive, IH.
Qed.

Lemma chunk_pos : (0 < chunk)%nat.
Proof. unfold chunk. lia. Qed.

#[global] Opaque chunk.

Lemma Buffer_Read_nil n :
  (0 < n)%nat -> Read (mkBuffer []) n = Some ([], Some EOF, mkBuffer []).
Proof.
  intros Hn. unfold Read, Buffer_Reader. cbn [unread].
  destruct (Nat.eqb_spec n 0); [lia | reflexivity].
Qed.

Lemma Buffer_Read_data n d :
  d <> [] -> Read (mkBuffer d) n = Some (take n d, None, mkBuffer (drop n d)).
Proof.
  intros Hd. unfold Read, Buffer_Reader. cbn [unread].
  destruct d; [congruence | reflexivity].
Qed.

Lemma take_nonempty {A} n (d : list A) : (0 < n)%nat -> d <> [] -> take n d <> [].
Proof. destruct n, d; simpl; intros; (lia || congruence). Qed.

Lemma Buffer_drains_le n d :
  (length d <= n)%nat -> drains (mkBuffer d) d (mkBuffer []).
Proof.
  revert d. induction n as [|n IH]; intros d Hn.
  - destruct d; [|simpl in Hn; lia].
    apply drains_eof, Buffer_Read_nil, chunk_pos.
  - destruct (decide (d = [])) as [->|Hd].
    + apply drains_eof, Buffer_Read_nil, chunk_pos.
    + assert (Hc : drains (mkBuffer d) (take chunk d ++ drop chunk d) (mkBuffer [])).
      { eapply drains_chunk.
        - now apply Buffer_Read_data.
        - apply take_nonempty; [apply chunk_pos | exact Hd].
        - apply IH. rewrite length_drop.
          pose proof chunk_pos.
          assert (0 < length d)%nat by (destruct d; [congruence | cbn [length]; lia]).
          lia. }
      now rewrite take_drop in Hc.
Qed.

Lemma Buffer_drains d : drains (mkBuffer d) d (mkBuffer []).
Proof. now apply (Buffer_drains_le (length d)). Qed.

#[export] Instance Buffer_Lawful : LawfulWriter Buffer.
Proof.
  split.
  - reflexivity.
  - intros w a b. unfold wrote, Write, Buffer_Writer. cbn. now rewrite app_assoc.
  - intros [d]. unfold wrote, Write, Buffer_Writer. cbn. now rewrite app_nil_r.
Qed.

Lemma len_app {A} (a b : list A) : len (a ++ b) = len a + len b.
Proof. unfold len. rewrite length_app. lia. Qed.

Lemma nonempty_length {A} (l : list A) : l <> [] -> (0 <? length l)%nat = true.
Proof. destruct l; [congruence | reflexivity]. Qed.

(** The loop of [copyStream] on a source that drains: everything is
    transformed and written, whatever the chunks. *)
Lemma copyStream_loop_drains {R W} `{Reader R} `{Writer W} `{!LawfulWriter W}
    (src : R) data src' :
  drains src data src' ->
  forall fuel stream nw (dst : W),
    (length data < fuel)%nat ->
    copyStream_loop fuel stream nw src dst
    = Done (nw + len data, None, src', wrote dst (XORKeyStream stream data).1).
Proof.
  induction 1 as [r r' Hr | r bs r1 rest r' Hr Hbs Hd IH];
    intros [|f] stream nw dst Hf; try (exfalso; lia).
  - cbn [copyStream_loop]. rewrite Hr. cbn.
    rewrite wrote_nil. unfold len. cbn. now rewrite Z.add_0_r.
  - cbn [copyStream_loop]. rewrite Hr, (nonempty_length _ Hbs).
    rewrite XORKeyStream_app.
    destruct (XORKeyStream stream bs) as [out stream'] eqn:Hx.
    rewrite Write_ok. cbn [fst snd].
    assert (Hlen : length out = length bs).
    { pose proof (XORKeyStream_length stream bs) as Hl. now rewrite Hx in Hl. }
    rewrite IH.
    + rewrite wrote_app, len_app. unfold len. rewrite Hlen.
      now rewrite Z.add_assoc.
    + rewrite length_app in Hf.
      assert (0 < length bs)%nat by (destruct bs; [congruence | cbn [length]; lia]).
      lia.
Qed.

Lemma aes_NewCipher_32 key :
  length key = 32%nat -> exists block, aes_NewCipher key = inr block.
Proof.
  intros Hk. unfold aes_NewCipher. rewrite Hk. eexists. reflexivity.
Qed.

Lemma ReadFull_rand fuel (rnd : RandReader) n :
  (0 < fuel)%nat -> (0 < n)%nat ->
  ReadFull fuel rnd n
  = Done (map (rand_at rnd) (seq (rand_pos rnd) n), None,
          mkRand (rand_at rnd) (rand_pos rnd + n)).
Proof.
  intros Hf Hn. unfold ReadFull.
  destruct (Nat.eqb_spec n 0) as [|_]; [lia|].
  destruct fuel as [|f]; [lia|]. cbn [ReadFull_loop length].
  rewrite Nat.sub_0_r. unfold Read at 1, Rand_Reader. cbn [app].
  rewrite length_map, length_seq.
  destruct (Nat.leb_spec n n); [reflexivity | lia].
Qed.

Lemma copyStream_Buffer fuel stream blockSize data pre :
  (length data < fuel)%nat ->
  copyStream fuel stream blockSize (mkBuffer data) (mkBuffer pre)
  = Done (blockSize + len data, None, mkBuffer [],
          mkBuffer (pre ++ (XORKeyStream stream data).1)).
Proof.
  intros Hf. unfold copyStream.
  now rewrite (copyStream_loop_drains _ _ _ (Buffer_drains data)).
Qed.

(** C1. With a 32-byte key, [copyEncrypt] of a payload [b] into a fresh
    buffer writes, and returns as its count, [len(b) + 16] bytes (the IV
    and then the payload under the key stream), and [copyDecrypt] of what
    was written gives back exactly [b]. *)
Theorem copyDecrypt_copyEncrypt_roundtrip
    (key b : list byte) (rnd : RandReader) (fuel : nat) :
  length key = 32%nat ->
  (length b < fuel)%nat ->
  exists ct rnd',
    copyEncrypt fuel rnd key (mkBuffer b) (mkBuffer [])
    = Done (len b + 16, None, mkBuffer [], mkBuffer ct, rnd') /\
    len ct = len b + 16 /\
    copyDecrypt fuel key (mkBuffer ct) (mkBuffer [])
    = Done (len b + 16, None, mkBuffer [], mkBuffer b).
Proof.
  intros Hk Hf.
  destruct (aes_NewCipher_32 key Hk) as [block Hb].
  set (iv := map (rand_at rnd) (seq (rand_pos rnd) Aes.BlockSize)).
  assert (Hiv : length iv = 16%nat).
  { unfold iv. now rewrite length_map, length_seq. }
  set (x := (XORKeyStream (NewCTR block iv) b).1).
  assert (Hx : length x = length b) by apply XORKeyStream_length.
  exists (iv ++ x), (mkRand (rand_at rnd) (rand_pos rnd + Aes.BlockSize)).
  split; [|split].
  - unfold copyEncrypt. rewrite Hb.
    rewrite ReadFull_rand by (unfold Aes.BlockSize; lia).
    cbn [obind]. fold iv.
    rewrite (Write_ok (mkBuffer []) iv).
    rewrite copyStream_Buffer by exact Hf.
    cbn [obind]. unfold wrote, Write, Buffer_Writer. cbn [unread snd app].
    fold x. do 5 f_equal. unfold Aes.BlockSize. lia.
  - rewrite len_app. unfold len. rewrite Hiv, Hx. lia.
  - unfold copyDecrypt. rewrite Hb.
    rewrite Buffer_Read_data by (destruct iv; [discriminate Hiv | discriminate]).
    rewrite take_app_length' by exact Hiv.
    rewrite drop_app_length' by exact Hiv.
    rewrite Hiv. cbn [Nat.sub repeat Aes.BlockSize]. rewrite app_nil_r.
    rewrite copyStream_Buffer by (rewrite Hx; exact Hf).
    unfold len. rewrite Hx.
    unfold x. rewrite XORKeyStream_involutive. cbn [app].
    do 4 f_equal. unfold Aes.BlockSize. lia.
Qed.

Lemma copyDecrypt_copyEncrypt_roundtrip_witness :
  length sample_key = 32%nat /\
  (length sample_payload < 12)%nat /\
  exists ct rnd',
    copyEncrypt 12 sample_rand sample_key (mkBuffer sample_payload) (mkBuffer [])
    = Done (len sample_payload + 16, None, mkBuffer [], mkBuffer ct, rnd') /\
    len ct = len sample_payload + 16 /\
    copyDecrypt 12 sample_key (mkBuffer ct) (mkBuffer [])
    = Done (len sample_payload + 16, None, mkBuffer [], mkBuffer sample_payload).
Proof.
  assert (H1 : length sample_key = 32%nat) by reflexivity.
  assert (H2 : (length sample_payload < 12)%nat) by (vm_compute; lia).
  split; [exact H1|]. split; [exact H2|].
  exact (copyDecrypt_copyEncrypt_roundtrip sample_key sample_payload sample_rand 12 H1 H2).
Defined.

(** ** Paths *)

Lemma Split_nonempty s sep : Split s sep <> [].
Proof.
  destruct s as [|c s]; simpl; [discriminate|].
  destruct (Ascii.eqb c sep); [discriminate|].
  destruct (Split s sep); discriminate.
Qed.

Lemma Split_app s1 s2 sep :
  Split (s1 ++ String sep s2) sep = Split s1 sep ++ Split s2 sep.
Proof.
  induction s1 as [|c s1 IH]; simpl.
  - now rewrite Ascii.eqb_refl.
  - destruct (Ascii.eqb c sep); [now rewrite IH|].
    rewrite IH. pose proof (Split_nonempty s1 sep).
    destruct (Split s1 sep); [congruence | reflexivity].
Qed.

(** An element of a split holds no separator. *)
Lemma Split_head s sep w ws : Split s sep = w :: ws -> Split w sep = [w].
Proof.
  revert w ws. induction s as [|c s IH]; simpl; intros w ws Hs.
  - now inversion Hs.
  - destruct (Ascii.eqb c sep) eqn:Hc; [now inversion Hs|].
    pose proof (Split_nonempty s sep).
    destruct (Split s sep) as [|w' ws'] eqn:Hs'; [congruence|].
    injection Hs as Hw Hws. subst w. simpl. rewrite Hc.
    now rewrite (IH w' ws' eq_refl).
Qed.

Lemma append_slash x : ("/" ++ x)%string = String "/" x.
Proof. reflexivity. Qed.

Lemma Split_Sprintf3 a b c :
  Split (Sprintf3 a b c) "/" = Split a "/" ++ Split b "/" ++ Split c "/".
Proof. unfold Sprintf3. rewrite !append_slash. now rewrite !Split_app. Qed.

Lemma Split_FullPath pk :
  Split (FullPath pk) "/" = Split (PathName pk) "/" ++ Split (Filename pk) "/".
Proof. unfold FullPath. rewrite append_slash. now rewrite Split_app. Qed.

Lemma Sprintf3_not_empty a b c : String.eqb (Sprintf3 a b c) "" = false.
Proof. unfold Sprintf3. rewrite !append_slash. destruct a; reflexivity. Qed.

Lemma walk_app fs cur A B :
  walk fs cur (A ++ B)
  = match walk fs cur A with
    | inl e => inl e
    | inr l => walk fs l B
    end.
Proof.
  revert cur. induction A as [|c A IH]; intros cur; [reflexivity|].
  cbn [app walk]. destruct (kind fs cur) as [[|d]|]; try reflexivity.
  destruct (is_dot c); [apply IH|].
  destruct (String.eqb c ".."); apply IH.
Qed.

Lemma kind_insert_ne fs l n k : k <> l -> kind (<[l := n]> fs) k = kind fs k.
Proof.
  intros Hk. destruct k; [reflexivity|]. cbn [kind].
  now rewrite lookup_insert_ne.
Qed.

Lemma kind_insert_eq fs l n : l <> [] -> kind (<[l := n]> fs) l = Some n.
Proof.
  intros Hl. destruct l; [congruence|]. cbn [kind]. now rewrite lookup_insert_eq.
Qed.

(** Putting a file where there was no directory does not change the way
    to it. *)
Lemma walk_insert_file fs comps cur l d :
  walk fs cur comps = inr l ->
  kind fs l <> Some Dir ->
  walk (<[l := File d]> fs) cur comps = inr l.
Proof.
  intros Hw Hl. revert cur Hw.
  induction comps as [|c rest IH]; intros cur Hw; [exact Hw|].
  cbn [walk] in *.
  destruct (kind fs cur) as [[|d']|] eqn:Hk; try discriminate.
  rewrite kind_insert_ne by congruence. rewrite Hk.
  destruct (is_dot c); [now apply IH|].
  destruct (String.eqb c ".."); now apply IH.
Qed.

(** ** Copying *)

(** [io.Copy] from a source that drains into a lawful writer. *)
Lemma Copy_loop_drains {W R} `{Writer W} `{!LawfulWriter W} `{Reader R}
    (src : R) data src' :
  drains src data src' ->
  forall fuel (dst : W) written,
    (length data < fuel)%nat ->
    Copy_loop fuel dst src written
    = Done (written + len data, None, wrote dst data, src').
Proof.
  induction 1 as [r r' Hr | r bs r1 rest r' Hr Hbs Hd IH];
    intros [|f] dst written Hf; try (exfalso; lia).
  - cbn [Copy_loop]. rewrite Hr. cbn.
    rewrite wrote_nil. unfold len. cbn. now rewrite Z.add_0_r.
  - cbn [Copy_loop]. rewrite Hr, (nonempty_length _ Hbs).
    rewrite Write_ok, Z.eqb_refl.
    rewrite IH.
    + now rewrite wrote_app, len_app, Z.add_assoc.
    + rewrite length_app in Hf.
      assert (0 < length bs)%nat by (destruct bs; [congruence | cbn [length]; lia]).
      lia.
Qed.

#[export] Instance WFile_Lawful : LawfulWriter WFile.
Proof.
  split.
  - intros [fs l] p. unfold wrote, Write, WFile_Writer. cbn [wf_fs wf_loc].
    destruct (fs !! l) as [[|d]|]; reflexivity.
  - intros [fs l] a b. unfold wrote, Write, WFile_Writer. cbn [wf_fs wf_loc].
    destruct (fs !! l) as [[|d]|] eqn:Hl; cbn [snd wf_fs wf_loc];
      rewrite ?Hl; try reflexivity.
    rewrite lookup_insert_eq. cbn [snd].
    now rewrite insert_insert_eq, app_assoc.
  - intros [fs l]. unfold wrote, Write, WFile_Writer. cbn [wf_fs wf_loc].
    destruct (fs !! l) as [[|d]|] eqn:Hl; cbn [snd]; try reflexivity.
    rewrite app_nil_r. now rewrite insert_id.
Qed.

(** Reading an open regular file to the end gives what is left of it. *)
Lemma RFile_drains_le n d off :
  (length d - off <= n)%nat ->
  exists r', drains (mkRFile (File d) off) (drop off d) r'.
Proof.
  revert off. induction n as [|n IH]; intros off Hn.
  - exists (mkRFile (File d) off). rewrite drop_ge by lia.
    apply drains_eof. unfold Read, RFile_Reader. cbn [rf_node rf_off].
    rewrite drop_ge by lia.
    pose proof chunk_pos. destruct (Nat.eqb_spec chunk 0); [lia | reflexivity].
  - destruct (drop off d) as [|x rest] eqn:Hrest.
    + exists (mkRFile (File d) off).
      apply drains_eof. unfold Read, RFile_Reader. cbn [rf_node rf_off].
      rewrite Hrest.
      pose proof chunk_pos. destruct (Nat.eqb_spec chunk 0); [lia | reflexivity].
    + assert (Hlen : length (drop off d) = S (length rest)) by now rewrite Hrest.
      rewrite length_drop in Hlen.
      set (bs := take chunk (x :: rest)).
      assert (Hbs : bs <> []).
      { apply take_nonempty; [apply chunk_pos | discriminate]. }
      destruct (IH (off + length bs)%nat) as [r' Hr'].
      { assert (0 < length bs)%nat by (destruct bs; [congruence | cbn [length]; lia]).
        lia. }
      exists r'.
      rewrite <- (take_drop chunk (x :: rest)). fold bs.
      eapply drains_chunk; [| exact Hbs |].
      * unfold Read, RFile_Reader. cbn [rf_node rf_off]. rewrite Hrest. reflexivity.
      * replace (drop chunk (x :: rest)) with (drop (off + length bs) d); [exact Hr'|].
        rewrite <- drop_drop, Hrest. unfold bs.
        rewrite length_take.
        destruct (Nat.le_gt_cases chunk (length (x :: rest))).
        -- now rewrite Nat.min_l.
        -- rewrite Nat.min_r by lia. rewrite !drop_ge; [reflexivity | lia | lia].
Qed.

Lemma RFile_drains d : exists r', drains (mkRFile (File d) 0) d r'.
Proof. apply (RFile_drains_le (length d) d 0). lia. Qed.

(** ** The store on the tree *)

Lemma Create_inv fs path f :
  Create fs path = inr f ->
  exists l,
    walk fs [] (Split path "/") = inr l /\ kind fs l <> Some Dir /\ l <> [] /\
    f = mkWFile (<[l := File []]> fs) l.
Proof.
  unfold Create. intros Hc.
  destruct (walk fs [] (Split path "/")) as [e|l] eqn:Hw; [discriminate|].
  destruct (is_dot (List.last (Split path "/") "") || _)%bool; [discriminate|].
  exists l. split; [reflexivity|].
  assert (Hk : kind fs l <> Some Dir).
  { intros Hk. rewrite Hk in Hc. discriminate. }
  split; [exact Hk|]. split.
  - intros ->. now apply Hk.
  - destruct (kind fs l) as [[|d]|]; [congruence | |]; now inversion Hc.
Qed.

Lemma openFileForWriting_inv s fs id key fs' f :
  openFileForWriting s fs id key = (fs', inr f) ->
  exists fs0 l,
    walk fs0 [] (Split (Sprintf3 (s_Root s) id (FullPath (s_PathTransformFunc s key))) "/")
    = inr l /\
    kind fs0 l <> Some Dir /\ l <> [] /\ f = mkWFile (<[l := File []]> fs0) l.
Proof.
  unfold openFileForWriting. intros Ho.
  destruct (MkdirAll fs _) as [fs0 [err|]]; [discriminate|].
  injection Ho as _ Hc.
  exists fs0. now apply Create_inv.
Qed.

(** What a successful write leaves behind: a regular file with the data
    at the place the full path resolves to. *)
Lemma Store_Write_inv fuel s fs id key data n fs1 r' :
  (length data < fuel)%nat ->
  Store_Write fuel s fs id key (mkBuffer data) = Done (n, None, fs1, r') ->
  exists fs0 l,
    n = len data /\ l <> [] /\ fs1 = <[l := File data]> fs0 /\
    resolve fs1 (Sprintf3 (s_Root s) id (FullPath (s_PathTransformFunc s key)))
    = inr l.
Proof.
  intros Hf. unfold Store_Write, writeStream. intros Hw.
  destruct (openFileForWriting s fs id key) as [fs' [err|f]] eqn:Ho; [discriminate|].
  destruct (openFileForWriting_inv _ _ _ _ _ _ Ho) as (fs0 & l & Hwalk & Hk & Hl & ->).
  unfold Copy in Hw.
  rewrite (Copy_loop_drains _ _ _ (Buffer_drains data)) in Hw by exact Hf.
  cbn [obind] in Hw. injection Hw as <- Hfs _.
  unfold wrote, Write, WFile_Writer in Hfs. cbn [wf_fs wf_loc] in Hfs.
  rewrite lookup_insert_eq in Hfs. cbn [snd wf_fs app] in Hfs.
  rewrite insert_insert_eq in Hfs.
  exists fs0, l. split; [reflexivity|]. split; [exact Hl|]. split; [now symmetry|].
  subst fs1. unfold resolve. now apply walk_insert_file.
Qed.

Lemma kind_remove_tree fs l strict k :
  kind (remove_tree l strict fs) k = None \/
  kind (remove_tree l strict fs) k = kind fs k.
Proof.
  destruct k as [|c k]; [now right|]. cbn [kind]. unfold remove_tree.
  destruct (filter _ fs !! (c :: k)) as [n|] eqn:Hf; [|now left].
  right. apply map_lookup_filter_Some in Hf as [Hf _]. now rewrite Hf.
Qed.

Lemma kind_remove_tree_self fs l :
  l <> [] -> kind (remove_tree l false fs) l = None.
Proof.
  intros Hl. destruct l as [|c l]; [congruence|]. cbn [kind]. unfold remove_tree.
  apply map_lookup_filter_None. right. intros n _. cbn [fst].
  unfold below. rewrite bool_decide_eq_true_2 by reflexivity. discriminate.
Qed.

(** After the tree at [l] is removed, a path that led to [l] leads to
    [l], or stops short at a directory that is gone. *)
Lemma walk_remove_tree fs l strict comps cur :
  walk fs cur comps = inr l ->
  walk (remove_tree l strict fs) cur comps = inr l \/
  walk (remove_tree l strict fs) cur comps = inl ENOENT.
Proof.
  revert cur. induction comps as [|c rest IH]; intros cur Hw; [now left|].
  cbn [walk] in *.
  destruct (kind fs cur) as [[|d]|] eqn:Hk; try discriminate.
  destruct (kind_remove_tree fs l strict cur) as [Hn | He].
  - rewrite Hn. now right.
  - rewrite He, Hk.
    destruct (is_dot c); [now apply IH|].
    destruct (String.eqb c ".."); now apply IH.
Qed.

(** After [RemoveAll] has returned nil, nothing can be reached through
    the path that was removed. *)
Lemma RemoveAll_nil_gone fs path fs' b B :
  String.eqb path "" = false ->
  RemoveAll fs path = (fs', None) ->
  walk fs' [] (Split path "/" ++ b :: B) = inl ENOENT.
Proof.
  intros Hp. unfold RemoveAll. rewrite Hp.
  destruct (endsWithDot path); [discriminate|].
  unfold resolve. rewrite walk_app.
  destruct (walk fs [] (Split path "/")) as [e|l] eqn:Hw.
  - destruct e; intros Hr; try discriminate.
    injection Hr as <-. now rewrite Hw.
  - destruct (kind fs l) as [n|] eqn:Hk.
    + destruct l as [|c l]; [discriminate|].
      destruct (String.eqb _ "." || _)%bool; [discriminate|].
      intros Hr. injection Hr as <-.
      destruct (walk_remove_tree fs (c :: l) false _ _ Hw) as [-> | ->];
        [|reflexivity].
      cbn [walk]. now rewrite kind_remove_tree_self.
    + intros Hr. injection Hr as <-. rewrite Hw. cbn [walk]. now rewrite Hk.
Qed.

Lemma Has_false_of_ENOENT s fs id key :
  resolve fs (Sprintf3 (s_Root s) id (FullPath (s_PathTransformFunc s key)))
  = inl ENOENT ->
  Has s fs id key = false.
Proof. unfold Has, Stat. now intros ->. Qed.

(** A successful [Delete] takes away every key of the bucket. *)
Lemma Delete_nil_bucket s fs id key fs' key' :
  Delete s fs id key = (fs', None) ->
  FirstPathName (s_PathTransformFunc s key')
  = FirstPathName (s_PathTransformFunc s key) ->
  resolve fs' (Sprintf3 (s_Root s) id (FullPath (s_PathTransformFunc s key')))
  = inl ENOENT.
Proof.
  unfold Delete. intros Hd Hfirst.
  set (pk := s_PathTransformFunc s key) in *.
  set (pk' := s_PathTransformFunc s key') in *.
  unfold resolve. rewrite Split_Sprintf3, Split_FullPath.
  unfold FirstPathName in Hfirst.
  pose proof (Split_nonempty (PathName pk') "/") as Hne'.
  pose proof (Split_nonempty (PathName pk) "/") as Hne.
  pose proof (Split_nonempty (Filename pk') "/") as Hnf.
  destruct (Split (PathName pk') "/") as [|first rest'] eqn:Hs'; [congruence|].
  destruct (Split (PathName pk) "/") as [|first0 rest] eqn:Hs; [congruence|].
  subst first0.
  destruct (Split (Filename pk') "/") as [|f0 F] eqn:Hsf; [congruence|].
  assert (Hfirst1 : FirstPathName pk = first) by (unfold FirstPathName; now rewrite Hs).
  rewrite Hfirst1 in Hd.
  pose proof (RemoveAll_nil_gone fs _ fs'
                (hd f0 (rest' ++ [f0])) (tl (rest' ++ f0 :: F))
                (Sprintf3_not_empty _ _ _) Hd) as Hg.
  rewrite Split_Sprintf3, (Split_head _ _ _ _ Hs') in Hg.
  replace (Split (s_Root s) "/" ++ Split id "/" ++ (first :: rest') ++ f0 :: F)
    with ((Split (s_Root s) "/" ++ Split id "/" ++ [first])
            ++ hd f0 (rest' ++ [f0]) :: tl (rest' ++ f0 :: F)); [exact Hg|].
  rewrite <- !app_assoc. do 2 f_equal. cbn [app]. f_equal.
  destruct rest'; reflexivity.
Qed.

Lemma RemoveAll_nil_inv fs path fs' :
  RemoveAll fs path = (fs', None) ->
  fs' = fs \/
  exists l, walk fs [] (Split path "/") = inr l /\ l <> [] /\
            fs' = remove_tree l false fs.
Proof.
  unfold RemoveAll.
  destruct (String.eqb path ""); [intros Hr; injection Hr as <-; now left|].
  destruct (endsWithDot path); [discriminate|].
  unfold resolve.
  destruct (walk fs [] (Split path "/")) as [e|l] eqn:Hw.
  - destruct e; intros Hr; try discriminate. injection Hr as <-. now left.
  - destruct (kind fs l) as [n|] eqn:Hk.
    + destruct l as [|c l]; [discriminate|].
      destruct (String.eqb _ "." || _)%bool; [discriminate|].
      intros Hr. injection Hr as <-. right. now exists (c :: l).
    + intros Hr. injection Hr as <-. now left.
Qed.

Lemma kind_remove_tree_other fs l strict k :
  ~ l `prefix_of` k -> kind (remove_tree l strict fs) k = kind fs k.
Proof.
  intros Hp. destruct k as [|c k]; [reflexivity|]. cbn [kind]. unfold remove_tree.
  apply option_eq. intros n. rewrite map_lookup_filter_Some. cbn [fst].
  unfold below. rewrite bool_decide_eq_false_2 by exact Hp. cbn. tauto.
Qed.

Lemma names_app a b : names (a ++ b) = names a ++ names b.
Proof. unfold names. apply List.filter_app. Qed.

(** Without [..] a walk only goes down. *)
Lemma walk_names fs comps cur l :
  forallb (fun c => negb (String.eqb c "..")) comps = true ->
  walk fs cur comps = inr l -> l = cur ++ names comps.
Proof.
  revert cur. induction comps as [|c rest IH]; intros cur Hnd Hw.
  - cbn in *. rewrite app_nil_r. congruence.
  - cbn [forallb] in Hnd. apply andb_true_iff in Hnd as [Hc Hrest].
    cbn [walk] in Hw. destruct (kind fs cur) as [[|d]|]; try discriminate.
    unfold names. cbn [List.filter]. fold (names rest).
    destruct (is_dot c); cbn [negb]; [now apply IH|].
    apply negb_true_iff in Hc. rewrite Hc in Hw.
    rewrite (IH _ Hrest Hw), <- app_assoc. reflexivity.
Qed.

(** A path that stays clear of the removed tree resolves as before. *)
Lemma walk_remove_tree_other fs l strict comps cur :
  forallb (fun c => negb (String.eqb c "..")) comps = true ->
  ~ l `prefix_of` (cur ++ names comps) ->
  walk (remove_tree l strict fs) cur comps = walk fs cur comps.
Proof.
  revert cur. induction comps as [|c rest IH]; intros cur Hnd Hp; [reflexivity|].
  cbn [forallb] in Hnd. apply andb_true_iff in Hnd as [Hc Hrest].
  cbn [walk].
  rewrite kind_remove_tree_other.
  2:{ intros Hl. apply Hp. etrans; [exact Hl|]. now apply prefix_app_r. }
  destruct (kind fs cur) as [[|d]|]; try reflexivity.
  unfold names in Hp. cbn [List.filter] in Hp. fold (names rest) in Hp.
  destruct (is_dot c); cbn [negb] in Hp; [now apply IH|].
  apply negb_true_iff in Hc. rewrite Hc.
  apply IH; [exact Hrest|]. now rewrite <- app_assoc.
Qed.

Lemma Stat_remove_tree_other fs l strict path :
  no_dotdot path = true ->
  ~ l `prefix_of` names (Split path "/") ->
  Stat (remove_tree l strict fs) path = Stat fs path /\
  Open (remove_tree l strict fs) path = Open fs path.
Proof.
  intros Hnd Hp. unfold Stat, Open, resolve.
  rewrite walk_remove_tree_other by assumption.
  destruct (walk fs [] (Split path "/")) as [e|k] eqn:Hw; [now split|].
  apply walk_names in Hw; [|exact Hnd]. cbn [app] in Hw. subst k.
  now rewrite kind_remove_tree_other.
Qed.

Lemma no_dotdot_Sprintf3 a b c :
  no_dotdot (Sprintf3 a b c) = (no_dotdot a && no_dotdot b && no_dotdot c)%bool.
Proof.
  unfold no_dotdot. rewrite Split_Sprintf3, !forallb_app.
  now rewrite andb_assoc.
Qed.

Lemma no_dotdot_FullPath pk :
  no_dotdot (FullPath pk) = (no_dotdot (PathName pk) && no_dotdot (Filename pk))%bool.
Proof. unfold no_dotdot. now rewrite Split_FullPath, forallb_app. Qed.

Lemma proper_name_no_dotdot c :
  proper_name c = true -> Split c "/" = [c] -> no_dotdot c = true.
Proof.
  unfold proper_name, no_dotdot. intros Hc ->. cbn.
  apply andb_true_iff in Hc as [_ ->]. reflexivity.
Qed.

Lemma names_proper c : proper_name c = true -> names [c] = [c].
Proof.
  unfold proper_name, names. intros Hc. cbn.
  apply andb_true_iff in Hc as [-> _]. reflexivity.
Qed.



Lemma RemoveAll_nil_stat fs path fs' :
  String.eqb path "" = false ->
  RemoveAll fs path = (fs', None) ->
  Stat fs' path = inl (PathError "stat" path ENOENT).
Proof.
  intros Hp Hr. unfold Stat, resolve.
  destruct (RemoveAll_nil_inv _ _ _ Hr) as [-> | (l & Hw & Hl & ->)].
  - revert Hr. unfold RemoveAll. rewrite Hp.
    destruct (endsWithDot path); [discriminate|]. unfold resolve.
    destruct (walk fs [] (Split path "/")) as [e|l] eqn:Hw.
    + destruct e; intros Hr; try discriminate. reflexivity.
    + destruct (kind fs l) as [n|] eqn:Hk; [|reflexivity].
      destruct l as [|c l]; [discriminate|].
      destruct (String.eqb _ "." || _)%bool; [discriminate|].
      intros Hr. injection Hr as Hr.
      pose proof (kind_remove_tree_self fs (c :: l) ltac:(discriminate)) as Hs.
      rewrite Hr in Hs. congruence.
  - destruct (walk_remove_tree fs l false _ _ Hw) as [-> | ->]; [|reflexivity].
    now rewrite kind_remove_tree_self.
Qed.

Lemma outcome_eta {A B C D} (o : outcome (A * B * C * D)) a b d dflt :
  result_of o = Some (a, b, d) -> o = Done (a, b, state_of o dflt, d).
Proof.
  destruct o as [[[[a' b'] c'] d']| | |]; cbn; intros Ho; try discriminate.
  now injection Ho as -> -> ->.
Qed.

Lemma pair_eta_None {A B} (p : A * option B) : p.2 = None -> p = (p.1, None).
Proof. destruct p as [a b]. cbn. now intros ->. Qed.

Lemma FirstPathName_Split pk :
  exists rest, Split (PathName pk) "/" = FirstPathName pk :: rest /\
               Split (FirstPathName pk) "/" = [FirstPathName pk].
Proof.
  unfold FirstPathName.
  pose proof (Split_nonempty (PathName pk) "/") as Hne.
  destruct (Split (PathName pk) "/") as [|first rest] eqn:Hs; [congruence|].
  exists rest. split; [reflexivity|]. exact (Split_head _ _ _ _ Hs).
Qed.

Lemma walk_singleton_proper fs cur c l :
  proper_name c = true -> walk fs cur [c] = inr l -> l = cur ++ [c].
Proof.
  unfold proper_name. intros Hc Hw. apply andb_true_iff in Hc as [Hd Hdd].
  apply negb_true_iff in Hd, Hdd. cbn [walk] in Hw.
  destruct (kind fs cur) as [[|d]|]; try discriminate.
  rewrite Hd, Hdd in Hw. congruence.
Qed.

Lemma last_name_proper comps c :
  proper_name c = true -> last_name (comps ++ [c]) = c.
Proof.
  unfold proper_name, last_name, is_dot. intros Hc.
  apply andb_true_iff in Hc as [Hd _]. apply negb_true_iff in Hd.
  apply orb_false_iff in Hd as [He _].
  rewrite List.filter_app. cbn [List.filter]. rewrite He. cbn [negb].
  apply last_last.
Qed.

Lemma proper_name_not_dots c :
  proper_name c = true ->
  String.eqb c "." = false /\ String.eqb c ".." = false.
Proof.
  unfold proper_name, is_dot. intros Hc.
  apply andb_true_iff in Hc as [Hd Hdd]. apply negb_true_iff in Hd, Hdd.
  apply orb_false_iff in Hd as [_ Hd]. now split.
Qed.

(** The delete that follows a successful write returns nil when the first
    segment of the path is an ordinary name. *)
Lemma Delete_after_Write_nil fuel s fs id key data n fs1 r1 :
  (length data < fuel)%nat ->
  Store_Write fuel s fs id key (mkBuffer data) = Done (n, None, fs1, r1) ->
  proper_name (FirstPathName (s_PathTransformFunc s key)) = true ->
  (Delete s fs1 id key).2 = None.
Proof.
  intros Hf Hw Hp.
  destruct (Store_Write_inv _ _ _ _ _ _ _ _ _ Hf Hw) as (fs0 & l & _ & _ & _ & Hr).
  set (pk := s_PathTransformFunc s key) in *.
  destruct (FirstPathName_Split pk) as (rest & Hs & Hfirst).
  pose proof (Split_nonempty (Filename pk) "/") as HF.
  destruct (Split (Filename pk) "/") as [|f0 F] eqn:HsF; [congruence|].
  unfold resolve in Hr. rewrite Split_Sprintf3, Split_FullPath, Hs, HsF in Hr.
  replace (Split (s_Root s) "/" ++ Split id "/" ++ (FirstPathName pk :: rest) ++ f0 :: F)
    with ((Split (s_Root s) "/" ++ Split id "/") ++ [FirstPathName pk]
            ++ (rest ++ f0 :: F)) in Hr
    by (rewrite <- !app_assoc; reflexivity).
  rewrite walk_app in Hr.
  destruct (walk fs1 [] (Split (s_Root s) "/" ++ Split id "/")) as [e|X] eqn:HX;
    [discriminate|].
  rewrite walk_app in Hr.
  destruct (walk fs1 X [FirstPathName pk]) as [e|lP] eqn:HlP; [discriminate|].
  pose proof (walk_singleton_proper _ _ _ _ Hp HlP) as ->.
  assert (Hk : kind fs1 (X ++ [FirstPathName pk]) = Some Dir).
  { destruct (rest ++ f0 :: F) as [|b B] eqn:HB.
    - destruct rest; discriminate HB.
    - cbn [walk] in Hr.
      destruct (kind fs1 (X ++ [FirstPathName pk])) as [[|d]|]; congruence. }
  destruct (proper_name_not_dots _ Hp) as [Hdot Hdotdot].
  unfold Delete, RemoveAll. fold pk.
  rewrite Sprintf3_not_empty.
  unfold endsWithDot, resolve. rewrite Split_Sprintf3, Hfirst.
  rewrite !app_assoc, last_last, Hdot.
  rewrite walk_app, HX, HlP, Hk.
  rewrite (last_name_proper _ _ Hp), Hdot, Hdotdot.
  destruct (X ++ [FirstPathName pk]) eqn:HXf; [|reflexivity].
  now destruct X.
Qed.

(** C5. After a successful write of [data] under (id, key): the count is
    [len(data)], [Has] is true, [Read] returns the size [len(data)] and a
    reader that gives exactly [data].  After a delete of (id, key) that
    returns nil, from whatever tree, [Has] is false; and the delete that
    follows the write does return nil when the first segment of the key's
    path is an ordinary name, as it is for every key under the default
    transform. *)
Theorem Store_write_read_delete_lifecycle
    (s : Store) (fs fs1 : FS) (id key : string) (data : list byte)
    (fuel : nat) (n : Z) (r1 : Buffer) :
  (length data < fuel)%nat ->
  Store_Write fuel s fs id key (mkBuffer data) = Done (n, None, fs1, r1) ->
  n = len data /\
  Has s fs1 id key = true /\
  Store_Read s fs1 id key = (len data, Some (mkRFile (File data) 0), None) /\
  (exists r', drains (mkRFile (File data) 0) data r') /\
  (forall fsd fs2, Delete s fsd id key = (fs2, None) -> Has s fs2 id key = false) /\
  (proper_name (FirstPathName (s_PathTransformFunc s key)) = true ->
   exists fs2, Delete s fs1 id key = (fs2, None) /\ Has s fs2 id key = false).
Proof.
  intros Hf Hw.
  assert (Hdel : forall fsd fs2,
             Delete s fsd id key = (fs2, None) -> Has s fs2 id key = false).
  { intros fsd fs2 Hd. apply Has_false_of_ENOENT.
    now apply (Delete_nil_bucket s fsd id key fs2 key). }
  assert (Hnil := Delete_after_Write_nil _ _ _ _ _ _ _ _ _ Hf Hw).
  destruct (Store_Write_inv _ _ _ _ _ _ _ _ _ Hf Hw) as (fs0 & l & -> & Hl & -> & Hr).
  split; [reflexivity|].
  assert (Hk : kind (<[l := File data]> fs0) l = Some (File data))
    by now apply kind_insert_eq.
  split; [|split; [|split; [|split]]].
  - unfold Has, Stat. rewrite Hr, Hk. reflexivity.
  - unfold Store_Read, readStream, Open. rewrite Hr, Hk. reflexivity.
  - apply RFile_drains.
  - exact Hdel.
  - intros Hp. specialize (Hnil Hp).
    exists (Delete s (<[l := File data]> fs0) id key).1.
    assert (Hd := pair_eta_None _ Hnil).
    split; [exact Hd | exact (Hdel _ _ Hd)].
Qed.

Lemma Store_write_read_delete_lifecycle_witness :
  let s := cas_store in
  let fs1 := written cas_store ∅ "node" "momsbestpicture" sample_payload in
  len sample_payload = len sample_payload /\
  Has s fs1 "node" "momsbestpicture" = true /\
  Store_Read s fs1 "node" "momsbestpicture"
  = (len sample_payload, Some (mkRFile (File sample_payload) 0), None) /\
  (exists r', drains (mkRFile (File sample_payload) 0) sample_payload r') /\
  (forall fsd fs2,
      Delete s fsd "node" "momsbestpicture" = (fs2, None) ->
      Has s fs2 "node" "momsbestpicture" = false) /\
  (proper_name (FirstPathName (s_PathTransformFunc s "momsbestpicture")) = true ->
   exists fs2, Delete s fs1 "node" "momsbestpicture" = (fs2, None) /\
               Has s fs2 "node" "momsbestpicture" = false).
Proof.
  intros s fs1.
  refine (Store_write_read_delete_lifecycle cas_store ∅ fs1
            "node" "momsbestpicture" sample_payload (S (length sample_payload))
            (len sample_payload) (mkBuffer []) _ _).
  - lia.
  - unfold fs1, written. apply outcome_eta. vm_compute. reflexivity.
Defined.

(** A successful [Delete] leaves the keys of the other buckets alone, when
    the names involved are ordinary and no [..] occurs. *)
Lemma Delete_other_bucket (s : Store) (fs fs' : FS) (id key key2 : string) :
  let T := s_PathTransformFunc s in
  Delete s fs id key = (fs', None) ->
  FirstPathName (T key2) <> FirstPathName (T key) ->
  proper_name (FirstPathName (T key)) = true ->
  proper_name (FirstPathName (T key2)) = true ->
  no_dotdot (s_Root s) = true ->
  no_dotdot id = true ->
  no_dotdot (FullPath (T key2)) = true ->
  Has s fs' id key2 = Has s fs id key2 /\
  Store_Read s fs' id key2 = Store_Read s fs id key2.
Proof.
  intros T Hd Hother Hp Hp2 Hroot Hid Hfull.
  unfold Delete in Hd.
  destruct (RemoveAll_nil_inv _ _ _ Hd) as [-> | (l & Hw & Hl & ->)];
    [now split|].
  fold T in Hw.
  destruct (FirstPathName_Split (T key)) as (rest & _ & Hfirst).
  destruct (FirstPathName_Split (T key2)) as (rest2 & Hs2 & _).
  assert (Hnd : forallb (fun c => negb (String.eqb c ".."))
                  (Split (Sprintf3 (s_Root s) id (FirstPathName (T key))) "/") = true).
  { fold (no_dotdot (Sprintf3 (s_Root s) id (FirstPathName (T key)))).
    rewrite no_dotdot_Sprintf3, Hroot, Hid.
    now rewrite (proper_name_no_dotdot _ Hp Hfirst). }
  apply (walk_names _ _ _ _ Hnd) in Hw. cbn [app] in Hw.
  rewrite Split_Sprintf3, Hfirst, !names_app, (names_proper _ Hp) in Hw.
  assert (Hstat :
    Stat (remove_tree l false fs) (full_path s id key2) = Stat fs (full_path s id key2) /\
    Open (remove_tree l false fs) (full_path s id key2) = Open fs (full_path s id key2)).
  { apply Stat_remove_tree_other.
    - unfold full_path. fold T. now rewrite no_dotdot_Sprintf3, Hroot, Hid, Hfull.
    - unfold full_path. fold T.
      rewrite Split_Sprintf3, Split_FullPath, Hs2, !names_app.
      unfold names at 3. cbn [List.filter].
      assert (Hnot : is_dot (FirstPathName (T key2)) = false).
      { unfold proper_name in Hp2. apply andb_true_iff in Hp2 as [Hp2 _].
        now apply negb_true_iff in Hp2. }
      rewrite Hnot. cbn [negb]. subst l. intros Hpre.
      apply prefix_app_inv, prefix_app_inv in Hpre.
      apply prefix_cons_inv_1 in Hpre. congruence. }
  destruct Hstat as [Hstat Hopen].
  split.
  - unfold Has. fold (full_path s id key2). now rewrite Hstat.
  - unfold Store_Read, readStream. fold (full_path s id key2). now rewrite Hopen.
Qed.



(** The bucket of the example held both pictures before the delete, and
    the third picture is there afterwards. *)
Example three_pictures_before_and_after :
  (let fs := three_pictures in
   (Has cas_store fs "node" "picture_75.png",
    Has cas_store fs "node" "picture_1475.png",
    Has cas_store (Delete cas_store fs "node" "picture_75.png").1
        "node" "picture_0.png",
    FirstPathName (CASPathTransformFunc "picture_75.png"),
    FirstPathName (CASPathTransformFunc "picture_1475.png")))
  = (true, true, true, "66a2f", "66a2f").
Proof. vm_compute. reflexivity. Qed.

(** ** [CASPathTransformFunc] gives ordinary names *)

Lemma digit_no_slash z : Ascii.eqb (Hex.digit z) "/" = false.
Proof.
  unfold Hex.digit, Hex.hextable.
  generalize (Z.to_nat z). intros k.
  do 17 (destruct k as [|k]; [reflexivity|]). reflexivity.
Qed.

Lemma EncodeToString_no_slash bs : no_slash (Hex.EncodeToString bs) = true.
Proof.
  induction bs as [|b bs IH]; [reflexivity|].
  cbn [Hex.EncodeToString no_slash]. now rewrite !digit_no_slash, IH.
Qed.

Lemma substring_no_slash s : forall n m,
  no_slash s = true -> no_slash (substring n m s) = true.
Proof.
  induction s as [|c s IH]; intros n m Hs.
  - destruct n, m; reflexivity.
  - cbn [no_slash] in Hs. apply andb_true_iff in Hs as [Hc Hs].
    destruct n as [|n]; [destruct m as [|m]|]; cbn [substring].
    + reflexivity.
    + cbn [no_slash]. now rewrite Hc, IH.
    + now apply IH.
Qed.

Lemma Split_no_slash s : no_slash s = true -> Split s "/" = [s].
Proof.
  induction s as [|c s IH]; [reflexivity|].
  cbn [no_slash Split]. intros Hs. apply andb_true_iff in Hs as [Hc Hs].
  apply negb_true_iff in Hc. now rewrite Hc, (IH Hs).
Qed.

Lemma Split_Join segs :
  segs <> [] -> Forall (fun seg => no_slash seg = true) segs ->
  Split (Join segs "/") "/" = segs.
Proof.
  induction segs as [|e rest IH]; [congruence|]. intros _ Hall.
  apply Forall_cons in Hall as [He Hrest].
  destruct rest as [|e' rest'].
  - cbn [Join]. now apply Split_no_slash.
  - change (Join (e :: e' :: rest') "/") with (e ++ "/" ++ Join (e' :: rest') "/")%string.
    rewrite append_slash, Split_app, (Split_no_slash _ He).
    rewrite IH by (congruence || assumption). reflexivity.
Qed.

Lemma segments_no_slash h :
  no_slash h = true -> Forall (fun seg => no_slash seg = true) (segments h).
Proof.
  intros Hh. unfold segments. apply Forall_map, Forall_forall.
  intros i _. now apply substring_no_slash.
Qed.

Lemma length_proper c : (2 < String.length c)%nat -> proper_name c = true.
Proof.
  destruct c as [|a [|b [|d c]]]; cbn [String.length]; intros Hl; try lia.
  unfold proper_name, is_dot.
  destruct (String.eqb_spec (String a (String b (String d c))) "");
    [discriminate|].
  destruct (String.eqb_spec (String a (String b (String d c))) ".");
    [discriminate|].
  destruct (String.eqb_spec (String a (String b (String d c))) "..");
    [discriminate|].
  reflexivity.
Qed.

(** Under [CASPathTransformFunc] the path of every key is made of eight
    ordinary names and the digest: no '.', no '..', no empty component. *)
Lemma CAS_path_is_plain key :
  let pk := CASPathTransformFunc key in
  let digest := Hex.EncodeToString (Sha1.Sum (bytes_of_string key)) in
  Split (PathName pk) "/" = segments digest /\
  Split (Filename pk) "/" = [digest] /\
  proper_name (FirstPathName pk) = true /\
  no_dotdot (FullPath pk) = true.
Proof.
  intros pk digest.
  pose proof (digest_length key) as Hlen. fold digest in Hlen.
  pose proof (EncodeToString_no_slash (Sha1.Sum (bytes_of_string key))) as Hns.
  fold digest in Hns.
  destruct (segments_shape digest Hlen) as (H8 & H5 & _).
  assert (Hpk : pk = mkPathKey (Join (segments digest) "/") digest)
    by apply CAS_closed_form.
  assert (Hsplit : Split (PathName pk) "/" = segments digest).
  { rewrite Hpk. cbn [PathName]. apply Split_Join.
    - intros Hnil. rewrite Hnil in H8. discriminate.
    - now apply segments_no_slash. }
  assert (HsplitF : Split (Filename pk) "/" = [digest]).
  { rewrite Hpk. cbn [Filename]. now apply Split_no_slash. }
  split; [exact Hsplit|]. split; [exact HsplitF|]. split.
  - unfold FirstPathName. rewrite Hsplit.
    destruct (segments digest) as [|first rest] eqn:Hseg; [discriminate H8|].
    apply Forall_cons in H5 as [H5 _]. apply length_proper. lia.
  - rewrite no_dotdot_FullPath. unfold no_dotdot. rewrite Hsplit, HsplitF.
    apply andb_true_iff. split.
    + apply forallb_forall. intros seg Hin.
      rewrite Forall_forall in H5. specialize (H5 seg ltac:(now apply list_elem_of_In)).
      destruct (String.eqb_spec seg ".."); [subst; discriminate H5 | reflexivity].
    + cbn [forallb].
      destruct (String.eqb_spec digest "..") as [e|_]; [|reflexivity].
      rewrite e in Hlen. discriminate Hlen.
Qed.

(** The lifecycle under [CASPathTransformFunc], for every root, id and
    key: the delete that follows a write returns nil and the key is gone. *)
Corollary CAS_write_then_delete (root : string) (fs fs1 : FS) (id key : string)
    (data : list byte) (fuel : nat) (n : Z) (r1 : Buffer) :
  let s := mkStore root CASPathTransformFunc in
  (length data < fuel)%nat ->
  Store_Write fuel s fs id key (mkBuffer data) = Done (n, None, fs1, r1) ->
  Has s fs1 id key = true /\
  exists fs2, Delete s fs1 id key = (fs2, None) /\ Has s fs2 id key = false.
Proof.
  intros s Hf Hw.
  destruct (Store_Write_inv _ _ _ _ _ _ _ _ _ Hf Hw) as (fs0 & l & _ & Hl & Hfs & Hr).
  split.
  - unfold Has, Stat. rewrite Hr. subst fs1. now rewrite kind_insert_eq.
  - destruct (CAS_path_is_plain key) as (_ & _ & Hp & _).
    pose proof (Delete_after_Write_nil _ _ _ _ _ _ _ _ _ Hf Hw Hp) as Hnil.
    exists (Delete s fs1 id key).1.
    assert (Hd := pair_eta_None _ Hnil).
    split; [exact Hd|].
    apply Has_false_of_ENOENT. now apply (Delete_nil_bucket s fs1 id key _ key).
Qed.

(** ** Further properties of the store *)

(** Deleting again, after a delete that returned nil, returns nil and
    changes nothing. *)
Theorem Delete_twice (s : Store) (fs fs' : FS) (id key : string) :
  Delete s fs id key = (fs', None) ->
  Delete s fs' id key = (fs', None).
Proof.
  unfold Delete. intros Hd.
  pose proof (RemoveAll_nil_stat _ _ _ (Sprintf3_not_empty _ _ _) Hd) as Hstat.
  revert Hd. unfold RemoveAll. rewrite Sprintf3_not_empty.
  destruct (endsWithDot _); [discriminate|]. intros _.
  unfold Stat in Hstat.
  destruct (resolve fs' _) as [e|l].
  - injection Hstat as ->. reflexivity.
  - destruct (kind fs' l); [discriminate | reflexivity].
Qed.

Lemma Delete_twice_witness :
  let fs' := (Delete cas_store three_pictures "node" "picture_75.png").1 in
  Delete cas_store fs' "node" "picture_75.png" = (fs', None).
Proof.
  intros fs'.
  refine (Delete_twice cas_store three_pictures fs' "node" "picture_75.png" _).
  unfold fs'. apply pair_eta_None. vm_compute. reflexivity.
Defined.

Lemma CAS_write_then_delete_witness :
  let s := mkStore "ggnetwork" CASPathTransformFunc in
  let fs1 := written s ∅ "node" "momsbestpicture" sample_payload in
  Has s fs1 "node" "momsbestpicture" = true /\
  exists fs2, Delete s fs1 "node" "momsbestpicture" = (fs2, None) /\
              Has s fs2 "node" "momsbestpicture" = false.
Proof.
  intros s fs1.
  refine (CAS_write_then_delete "ggnetwork" ∅ fs1 "node" "momsbestpicture"
            sample_payload (S (length sample_payload)) (len sample_payload)
            (mkBuffer []) _ _).
  - lia.
  - unfold fs1, written. apply outcome_eta. vm_compute. reflexivity.
Defined.

(** Under [CASPathTransformFunc] the bucket property needs no condition on
    the keys: only that root and id hold no [..]. *)
Corollary CAS_Delete_bucket (root : string) (fs fs' : FS) (id key key1 key2 : string) :
  let s := mkStore root CASPathTransformFunc in
  Delete s fs id key = (fs', None) ->
  FirstPathName (CASPathTransformFunc key1) = FirstPathName (CASPathTransformFunc key) ->
  FirstPathName (CASPathTransformFunc key2) <> FirstPathName (CASPathTransformFunc key) ->
  no_dotdot root = true ->
  no_dotdot id = true ->
  Has s fs' id key = false /\
  Has s fs' id key1 = false /\
  Has s fs' id key2 = Has s fs id key2 /\
  Store_Read s fs' id key2 = Store_Read s fs id key2.
Proof.
  intros s Hd Hsame Hother Hroot Hid.
  destruct (CAS_path_is_plain key) as (_ & _ & Hp & _).
  destruct (CAS_path_is_plain key2) as (_ & _ & Hp2 & Hfull2).
  split; [|split].
  - apply Has_false_of_ENOENT. now apply (Delete_nil_bucket s fs id key fs' key).
  - apply Has_false_of_ENOENT. now apply (Delete_nil_bucket s fs id key fs' key1).
  - now apply (Delete_other_bucket s fs fs' id key key2).
Qed.

Lemma CAS_Delete_bucket_witness :
  let s := mkStore "ggnetwork" CASPathTransformFunc in
  let fs' := (Delete s three_pictures "node" "picture_1475.png").1 in
  Has s fs' "node" "picture_1475.png" = false /\
  Has s fs' "node" "picture_75.png" = false /\
  Has s fs' "node" "picture_0.png" = Has s three_pictures "node" "picture_0.png" /\
  Store_Read s fs' "node" "picture_0.png"
  = Store_Read s three_pictures "node" "picture_0.png".
Proof.
  intros s fs'.
  refine (CAS_Delete_bucket "ggnetwork" three_pictures fs' "node"
            "picture_1475.png" "picture_75.png" "picture_0.png" _ _ _ _ _).
  - unfold fs', s. apply pair_eta_None. vm_compute. reflexivity.
  - vm_compute. reflexivity.
  - vm_compute. discriminate.
  - vm_compute. reflexivity.
  - vm_compute. reflexivity.
Defined.

(** ** The node: a local hit *)



(** For contrast, a miss: the request goes out to the peer (the message
    tag and the encoded request are in its outbox) before anything is
    read back; here the peer has closed and the read fails. *)
Example Get_miss_broadcasts :
  let peer := mkTCPPeer (conn_closed "10.0.0.2:4000") true 0 in
  let s := example_node {[ "10.0.0.2:4000" := peer ]} ∅ in
  match Get example_gob 5 s "momsbestpicture" with
  | Done (r, err, s') =>
      r = None /\ err = Some EOF /\
      (c_out ∘ conn) <$> (peers s' !! "10.0.0.2:4000")
      = Some [IncomingMessage; Byte.x47]
  | _ => False
  end.
Proof. vm_compute. repeat split. Qed.

(** ** The decoder *)

#[export] Instance Buffer_Contract : ReaderContract Buffer.
Proof.
  intros [d] r' n bs e. unfold Read, Buffer_Reader. cbn [unread].
  destruct d as [|x d].
  - destruct (n =? 0)%nat; intros Hr; injection Hr as <- _ _; cbn; lia.
  - intros Hr. injection Hr as <- _ _. rewrite length_take. lia.
Qed.

#[export] Instance Conn_Contract : ReaderContract Conn.
Proof.
  intros c r' n bs e. unfold Read, Conn_Reader.
  destruct (c_in c) as [|x d].
  - destruct (n =? 0)%nat; [intros Hr; injection Hr as <- _ _; cbn; lia|].
    destruct (c_in_err c); [|discriminate].
    intros Hr; injection Hr as <- _ _; cbn; lia.
  - intros Hr. injection Hr as <- _ _. rewrite length_take. lia.
Qed.

Lemma Conn_Read_data (c : Conn) n x rest :
  c_in c = x :: rest ->
  Read c n = Some (take n (x :: rest), None, set_c_in c (drop n (x :: rest))).
Proof. intros Hc. unfold Read, Conn_Reader, set_c_in. now rewrite Hc. Qed.

Lemma c_in_set_c_in c bs : c_in (set_c_in c bs) = bs.
Proof. reflexivity. Qed.

Lemma frame_cap_pos : (0 < frame_cap)%nat.
Proof. unfold frame_cap. lia. Qed.

Lemma frame_cap_value : frame_cap = 1028%nat.
Proof. reflexivity. Qed.

#[global] Opaque frame_cap.

(** What [Decode] does, in terms of the reads it makes, for any source. *)
Lemma DefaultDecoder_Decode_reads {R} `{Reader R}
    (dec : DefaultDecoder) (r r1 : R) (msg : RPC) (tag : byte) :
  Read r 1 = Some ([tag], None, r1) ->
  Decode dec r msg
  = if Byte.eqb tag IncomingStream
    then Some (None, mkRPC (From msg) (Payload msg) true, r1)
    else match Read r1 frame_cap with
         | None => None
         | Some (_, Some err, r2) => Some (Some err, msg, r2)
         | Some (buf, None, r2) => Some (None, mkRPC (From msg) buf (Stream msg), r2)
         end.
Proof.
  intros Hr. unfold Decode, DefaultDecoder_Decoder, DefaultDecoder_Decode.
  rewrite Hr. reflexivity.
Qed.

Lemma byte_eqb_eq a b : Byte.eqb a b = true <-> a = b.
Proof. split; [apply Byte.byte_dec_bl | apply Byte.byte_dec_lb]. Qed.

Lemma byte_eqb_neq a b : a <> b -> Byte.eqb a b = false.
Proof.
  intros Hab. destruct (Byte.eqb a b) eqn:He; [|reflexivity].
  apply byte_eqb_eq in He. congruence.
Qed.

(** C7. The default decoder first reads into a one-byte buffer.  If the
    byte is the stream tag (0x2) it sets [Stream] and returns with the
    source as that one read left it.  Otherwise it makes one read into a
    buffer of [frame_cap] = 1028 bytes and the payload is what that read
    gave, at most 1028 bytes.  On a connection that holds the tag and then
    more than 1028 bytes, the payload is the first 1028 of them, a strict
    prefix, and the rest stays unread on the connection. *)
Theorem DefaultDecoder_Decode_frame_cap (dec : DefaultDecoder) (msg : RPC) :
  frame_cap = 1028%nat /\
  (forall (R : Type) (HR : Reader R) (HC : ReaderContract R) (r r1 : R) (tag : byte),
      Read r 1 = Some ([tag], None, r1) ->
      (tag = IncomingStream ->
       Decode dec r msg = Some (None, mkRPC (From msg) (Payload msg) true, r1)) /\
      (tag <> IncomingStream ->
       forall buf r2,
         Read r1 frame_cap = Some (buf, None, r2) ->
         Decode dec r msg = Some (None, mkRPC (From msg) buf (Stream msg), r2) /\
         (length buf <= frame_cap)%nat)) /\
  (forall (c : Conn) (tag : byte) (rest : list byte),
      c_in c = tag :: rest ->
      (tag = IncomingStream ->
       Decode dec c msg
       = Some (None, mkRPC (From msg) (Payload msg) true, set_c_in c rest)) /\
      (tag <> IncomingStream -> rest <> [] ->
       Decode dec c msg
       = Some (None, mkRPC (From msg) (take frame_cap rest) (Stream msg),
               set_c_in c (drop frame_cap rest)) /\
       ((frame_cap < length rest)%nat ->
        length (take frame_cap rest) = frame_cap /\
        take frame_cap rest <> rest /\ drop frame_cap rest <> []))).
Proof.
  split; [exact frame_cap_value|]. split.
  - intros R HR HC r r1 tag Hr. split.
    + intros ->. rewrite (DefaultDecoder_Decode_reads dec r r1 msg _ Hr).
      reflexivity.
    + intros Htag buf r2 Hr2.
      rewrite (DefaultDecoder_Decode_reads dec r r1 msg _ Hr).
      rewrite (byte_eqb_neq _ _ Htag), Hr2. split; [reflexivity|].
      exact (Read_bound _ _ _ _ _ Hr2).
  - intros c tag rest Hc.
    assert (Hr : Read c 1 = Some ([tag], None, set_c_in c rest)).
    { rewrite (Conn_Read_data c 1 tag rest Hc). reflexivity. }
    split.
    + intros ->. rewrite (DefaultDecoder_Decode_reads dec c _ msg _ Hr).
      reflexivity.
    + intros Htag Hrest.
      rewrite (DefaultDecoder_Decode_reads dec c _ msg _ Hr).
      rewrite (byte_eqb_neq _ _ Htag).
      destruct rest as [|x rest]; [congruence|].
      rewrite (Conn_Read_data (set_c_in c (x :: rest)) frame_cap x rest eq_refl).
      split; [reflexivity|].
      intros Hlen.
      assert (Hl : length (take frame_cap (x :: rest)) = frame_cap).
      { rewrite length_take. lia. }
      split; [exact Hl|]. split.
      * intros Heq. rewrite Heq in Hl. lia.
      * intros Hd. apply (f_equal length) in Hd. rewrite length_drop in Hd.
        cbn [length] in Hd, Hlen. lia.
Qed.

(** ** The read loop *)

Lemma with_conn_id (p : TCPPeer) : with_conn p (conn p) = p.
Proof. now destruct p. Qed.

Lemma DefaultDecoder_Decode_first_error {R} `{Reader R}
    (dec : DefaultDecoder) (r r1 : R) (msg : RPC) bs e :
  Read r 1 = Some (bs, Some e, r1) -> Decode dec r msg = Some (None, msg, r1).
Proof.
  intros Hr. unfold Decode, DefaultDecoder_Decoder, DefaultDecoder_Decode.
  now rewrite Hr.
Qed.

Lemma Conn_Read_error (c : Conn) n e :
  c_in c = [] -> c_in_err c = Some e -> (0 < n)%nat ->
  Read c n = Some ([], Some e, c).
Proof.
  intros Hin He Hn. unfold Read, Conn_Reader. rewrite Hin, He.
  destruct (Nat.eqb_spec n 0); [lia | reflexivity].
Qed.

(** C10. When the first read of [Decode] (the tag byte) returns an error,
    [Decode] returns nil and the RPC is as it was.  So on a connection
    whose read fails at a frame boundary the read loop has one way to go:
    it takes the zero RPC, stamps it with the remote address and sends it
    on the queue, and it is back at the top of the loop with the
    connection still open. *)
Theorem Decode_first_read_error_is_swallowed
    (hs : TCPPeer -> option error) (onpeer : option (TCPPeer -> option error))
    (peer : TCPPeer) (q : list RPC) (e : error) :
  c_in (conn peer) = [] ->
  c_in_err (conn peer) = Some e ->
  (length q < rpcch_cap)%nat ->
  let rpc := mkRPC (RemoteAddr (conn peer)) [] false in
  (forall (R : Type) (HR : Reader R) (r r1 : R) (msg : RPC) bs e',
      Read r 1 = Some (bs, Some e', r1) ->
      Decode mkDefaultDecoder r msg = Some (None, msg, r1)) /\
  Decode mkDefaultDecoder (conn peer) RPC_zero = Some (None, RPC_zero, conn peer) /\
  (forall l s',
      loop_step mkDefaultDecoder hs onpeer (mkConnState peer Decoding q) l s' ->
      l = LDecode /\ s' = mkConnState peer (Sending rpc) q) /\
  run mkDefaultDecoder hs onpeer (mkConnState peer Decoding q)
      [LDecode; LEnqueue rpc] (mkConnState peer Decoding (q ++ [rpc])).
Proof.
  intros Hin Herr Hq rpc.
  assert (Hdec : Decode mkDefaultDecoder (conn peer) RPC_zero
                 = Some (None, RPC_zero, conn peer)).
  { apply (DefaultDecoder_Decode_first_error _ _ _ _ [] e).
    apply Conn_Read_error; [exact Hin | exact Herr | lia]. }
  assert (Hstep : decode_step mkDefaultDecoder peer = Some (peer, Sending rpc)).
  { unfold decode_step. rewrite Hdec. cbn. now rewrite with_conn_id. }
  split; [|split; [exact Hdec|split]].
  - intros R HR r r1 msg bs e' Hr.
    exact (DefaultDecoder_Decode_first_error _ _ _ _ _ _ Hr).
  - intros l s' Hl. inversion Hl; subst.
    match goal with Hd : decode_step _ _ = Some _ |- _ =>
      rewrite Hstep in Hd; injection Hd as <- <- end.
    now split.
  - eapply run_cons.
    + apply step_loop. apply step_decode. exact Hstep.
    + eapply run_cons; [|apply run_nil].
      apply step_loop. now apply step_enqueue.
Qed.

Lemma Decode_first_read_error_is_swallowed_witness :
  let peer := mkTCPPeer (conn_closed "10.0.0.2:4000") false 0 in
  let rpc := mkRPC "10.0.0.2:4000" [] false in
  (forall (R : Type) (HR : Reader R) (r r1 : R) (msg : RPC) bs e',
      Read r 1 = Some (bs, Some e', r1) ->
      Decode mkDefaultDecoder r msg = Some (None, msg, r1)) /\
  Decode mkDefaultDecoder (conn peer) RPC_zero = Some (None, RPC_zero, conn peer) /\
  (forall l s',
      loop_step mkDefaultDecoder NOPHandshakeFunc None (mkConnState peer Decoding []) l s' ->
      l = LDecode /\ s' = mkConnState peer (Sending rpc) []) /\
  run mkDefaultDecoder NOPHandshakeFunc None (mkConnState peer Decoding [])
      [LDecode; LEnqueue rpc] (mkConnState peer Decoding ([] ++ [rpc])).
Proof.
  intros peer rpc.
  refine (Decode_first_read_error_is_swallowed NOPHandshakeFunc None peer [] EOF _ _ _).
  - reflexivity.
  - reflexivity.
  - unfold rpcch_cap. simpl. lia.
Defined.

Section ReadLoop.

Context {D : Type} `{Decoder D}.
Variable dec : D.
Variable hs : TCPPeer -> option error.
Variable onpeer : option (TCPPeer -> option error).

Lemma prologue_inv peer : conn_inv (prologue hs onpeer peer).
Proof.
  unfold prologue. destruct (hs peer); [exact I|].
  destruct onpeer as [f|]; [|exact I]. now destruct (f peer).
Qed.

Lemma decode_step_inv peer peer' ph :
  decode_step dec peer = Some (peer', ph) -> conn_inv ph.
Proof.
  unfold decode_step.
  destruct (Decode dec (conn peer) RPC_zero) as [[[[e|] rpc] c']|];
    try discriminate.
  - intros Hd. now injection Hd as _ <-.
  - cbn [Stream]. destruct (Stream rpc) eqn:Hs; intros Hd; injection Hd as _ <-.
    + exact I.
    + reflexivity.
Qed.

(** A stream unit sends the loop to the gate, with the counter raised by
    one; nothing is queued. *)
Lemma decode_step_stream peer rpc c' :
  Decode dec (conn peer) RPC_zero = Some (None, rpc, c') ->
  Stream rpc = true ->
  decode_step dec peer
  = Some (mkTCPPeer c' (outbound peer) (wg peer + 1), Waiting).
Proof.
  intros Hd Hs. unfold decode_step. rewrite Hd. cbn [Stream]. now rewrite Hs.
Qed.

Lemma step_inv s l s' :
  step dec hs onpeer s l s' ->
  conn_inv (cs_phase s) ->
  Forall (fun rpc => Stream rpc = false) (cs_rpcch s) ->
  conn_inv (cs_phase s') /\
  Forall (fun rpc => Stream rpc = false) (cs_rpcch s') /\
  (forall rpc, l = LEnqueue rpc -> Stream rpc = false).
Proof.
  intros [Hl | He] Hph Hq.
  - destruct Hl as [peer q | peer q peer' ph Hd | peer q Hw | peer q rpc Hlen];
      cbn [cs_phase cs_rpcch] in *.
    + split; [apply prologue_inv|]. split; [exact Hq | discriminate].
    + split; [exact (decode_step_inv _ _ _ Hd)|]. split; [exact Hq | discriminate].
    + split; [exact I|]. split; [exact Hq | discriminate].
    + split; [exact I|]. split.
      * apply Forall_app. split; [exact Hq|]. now constructor.
      * intros rpc' Hr. now injection Hr as <-.
  - destruct He; cbn [cs_phase cs_rpcch] in *;
      (split; [first [exact Hph | exact I]|]);
      (split; [|discriminate]); try exact Hq.
    now inversion Hq.
Qed.

Lemma tstep_inv t l t' :
  tstep dec hs onpeer t l t' ->
  transport_inv t ->
  transport_inv t' /\
  (forall i rpc, l = TConn i (LEnqueue rpc) -> Stream rpc = false).
Proof.
  intros Ht [Hq Hc].
  destruct Ht as [conns q i l peer ph peer' ph' q' Hi Hs | conns q c ob];
    cbn [t_rpcch t_conns] in *.
  - assert (Hph : conn_inv ph).
    { exact (proj1 (Forall_lookup _ _) Hc i (peer, ph) Hi). }
    destruct (step_inv _ _ _ Hs Hph Hq) as (Hph' & Hq' & Hl).
    cbn [cs_phase cs_rpcch] in *.
    split.
    + split; [exact Hq'|]. now apply Forall_insert.
    + intros j rpc Hj. injection Hj as _ ->. now apply Hl.
  - split; [|discriminate].
    split; [exact Hq|]. apply Forall_app. split; [exact Hc|].
    constructor; [exact I | constructor].
Qed.

Lemma trun_inv t ls t' :
  trun dec hs onpeer t ls t' ->
  transport_inv t ->
  transport_inv t' /\
  (forall i rpc, In (TConn i (LEnqueue rpc)) ls -> Stream rpc = false).
Proof.
  induction 1 as [t | t l t1 ls t2 Hstep Hrun IH]; intros Hinv.
  - split; [exact Hinv | intros i rpc []].
  - destruct (tstep_inv _ _ _ Hstep Hinv) as [Hinv1 Hl].
    destruct (IH Hinv1) as [Hinv2 Hls].
    split; [exact Hinv2|].
    intros i rpc [-> | Hin]; [now apply (Hl i) | now apply (Hls i)].
Qed.

End ReadLoop.

Lemma NewTCPTransport_inv : transport_inv NewTCPTransport.
Proof. split; constructor. Qed.

(** C8. In every execution of the transport from its start, whatever the
    decoder, no RPC with [Stream = true] is sent on the queue or is in it.
    When the read loop decodes such a unit its one step is to the gate,
    with the counter raised and the queue as it was; at the gate its one
    step is back to decoding, once the counter is zero and with the queue
    as it was; and the counter of a waiting peer is lowered by
    [CloseStream] alone. *)
Theorem stream_units_are_never_enqueued {D : Type} `{Decoder D} (dec : D)
    (hs : TCPPeer -> option error) (onpeer : option (TCPPeer -> option error))
    (ls : list TLabel) (t : TCPTransport) :
  trun dec hs onpeer NewTCPTransport ls t ->
  Forall (fun rpc => Stream rpc = false) (t_rpcch t) /\
  (forall i rpc, In (TConn i (LEnqueue rpc)) ls -> Stream rpc = false) /\
  (forall peer q rpc c' l s',
      Decode dec (conn peer) RPC_zero = Some (None, rpc, c') ->
      Stream rpc = true ->
      loop_step dec hs onpeer (mkConnState peer Decoding q) l s' ->
      l = LDecode /\
      s' = mkConnState (mkTCPPeer c' (outbound peer) (wg peer + 1)) Waiting q) /\
  (forall peer q l s',
      loop_step dec hs onpeer (mkConnState peer Waiting q) l s' ->
      wg peer = 0 /\ l = LWake /\ s' = mkConnState peer Decoding q) /\
  (forall peer ph q l s',
      env_step (mkConnState peer ph q) l s' ->
      wg (cs_peer s') <> wg peer ->
      l = LCloseStream /\ wg (cs_peer s') = wg peer - 1).
Proof.
  intros Hrun.
  destruct (trun_inv dec hs onpeer _ _ _ Hrun NewTCPTransport_inv) as [[Hq _] Hls].
  split; [exact Hq|]. split; [exact Hls|]. split; [|split].
  - intros peer q rpc c' l s' Hd Hs Hl. inversion Hl; subst.
    match goal with Hx : decode_step _ _ = Some _ |- _ =>
      rewrite (decode_step_stream dec peer rpc c' Hd Hs) in Hx;
      injection Hx as <- <- end.
    now split.
  - intros peer q l s' Hl. inversion Hl; subst. now repeat split.
  - intros peer ph q l s' He Hwg.
    inversion He; subst; cbn [cs_peer with_conn wg] in Hwg; try congruence.
    split; [reflexivity|]. cbn [cs_peer].
    match goal with Hc : CloseStream _ = Done _ |- _ =>
      unfold CloseStream in Hc; destruct (wg peer - 1 <? 0); [discriminate|];
      injection Hc as <- end.
    reflexivity.
Qed.

Lemma stream_units_are_never_enqueued_witness :
  Forall (fun rpc => Stream rpc = false) (t_rpcch stream_run_end) /\
  (forall i rpc, In (TConn i (LEnqueue rpc)) stream_run -> Stream rpc = false) /\
  (forall peer q rpc c' l s',
      Decode mkDefaultDecoder (conn peer) RPC_zero = Some (None, rpc, c') ->
      Stream rpc = true ->
      loop_step mkDefaultDecoder NOPHandshakeFunc None (mkConnState peer Decoding q) l s' ->
      l = LDecode /\
      s' = mkConnState (mkTCPPeer c' (outbound peer) (wg peer + 1)) Waiting q) /\
  (forall peer q l s',
      loop_step mkDefaultDecoder NOPHandshakeFunc None (mkConnState peer Waiting q) l s' ->
      wg peer = 0 /\ l = LWake /\ s' = mkConnState peer Decoding q) /\
  (forall peer ph q l s',
      env_step (mkConnState peer ph q) l s' ->
      wg (cs_peer s') <> wg peer ->
      l = LCloseStream /\ wg (cs_peer s') = wg peer - 1).
Proof.
  refine (stream_units_are_never_enqueued mkDefaultDecoder NOPHandshakeFunc None
            stream_run stream_run_end _).
  unfold stream_run, stream_run_end.
  eapply trun_cons; [apply tstep_new|].
  eapply trun_cons.
  { eapply tstep_conn; [reflexivity|]. apply step_loop, step_handshake. }
  eapply trun_cons.
  { eapply tstep_conn; [reflexivity|]. apply step_loop, step_decode. reflexivity. }
  eapply trun_cons.
  { eapply tstep_conn; [reflexivity|]. apply step_env, step_close_stream. reflexivity. }
  eapply trun_cons.
  { eapply tstep_conn; [reflexivity|]. apply step_loop, step_wake. reflexivity. }
  apply trun_nil.
Defined.

(** ** The StoreFile handler *)

Lemma TCPPeer_Read_data (p : TCPPeer) n x rest :
  c_in (conn p) = x :: rest ->
  Read p n = Some (take n (x :: rest), None,
                   with_conn p (set_c_in (conn p) (drop n (x :: rest)))).
Proof.
  intros Hc. unfold Read at 1, TCPPeer_Reader.
  now rewrite (Conn_Read_data (conn p) n x rest Hc).
Qed.

Lemma set_c_in_id (p : TCPPeer) :
  with_conn p (set_c_in (conn p) (c_in (conn p))) = p.
Proof. destruct p as [[a i ie o oe] ob w]. reflexivity. Qed.

(** A limited reader over a peer that holds enough bytes gives exactly
    the first [N] of them. *)
Lemma Limited_Read_some (p : TCPPeer) N x rest n' :
  c_in (conn p) = x :: rest ->
  (0 < N)%nat ->
  n' = Nat.min N chunk ->
  Read (mkLimited p (Z.of_nat N)) chunk
  = Some (take n' (x :: rest), None,
          mkLimited (with_conn p (set_c_in (conn p) (drop n' (x :: rest))))
                    (Z.of_nat N - len (take n' (x :: rest)))).
Proof.
  intros Hin HN Hn'. unfold Read at 1, Limited_Reader. cbn [lr_N lr_R].
  destruct (Z.leb_spec (Z.of_nat N) 0) as [Hle|_]; [lia|].
  assert (Hif : (if Z.of_nat N <? Z.of_nat chunk
                 then Z.to_nat (Z.of_nat N) else chunk) = n').
  { destruct (Z.ltb_spec (Z.of_nat N) (Z.of_nat chunk)); lia. }
  rewrite Hif. now rewrite (TCPPeer_Read_data p n' x rest Hin).
Qed.

Lemma Limited_drains N :
  forall p : TCPPeer,
    (N <= length (c_in (conn p)))%nat ->
    drains (mkLimited p (Z.of_nat N)) (take N (c_in (conn p)))
           (mkLimited (with_conn p (set_c_in (conn p) (drop N (c_in (conn p))))) 0).
Proof.
  induction (lt_wf N) as [N _ IH]. intros p HN.
  destruct (Nat.eq_dec N 0%nat) as [-> | HN0].
  - rewrite take_0, drop_0, set_c_in_id. apply drains_eof. reflexivity.
  - destruct (c_in (conn p)) as [|x rest] eqn:Hin; [cbn [length] in HN; lia|].
    pose proof chunk_pos as Hc.
    remember (Nat.min N chunk) as n' eqn:Hn'.
    assert (Hlen : length (take n' (x :: rest)) = n').
    { rewrite length_take. lia. }
    pose proof (Limited_Read_some p N x rest n' Hin ltac:(lia) Hn') as Hread.
    remember (with_conn p (set_c_in (conn p) (drop n' (x :: rest)))) as p1 eqn:Hp1.
    assert (Hin1 : c_in (conn p1) = drop n' (x :: rest)) by now subst p1.
    assert (HN1 : Z.of_nat N - len (take n' (x :: rest)) = Z.of_nat (N - n')).
    { unfold len. rewrite Hlen. lia. }
    rewrite HN1 in Hread.
    assert (Hrest := IH (N - n')%nat ltac:(lia) p1).
    rewrite Hin1, length_drop, drop_drop in Hrest.
    specialize (Hrest ltac:(lia)).
    assert (Hp : with_conn p1 (set_c_in (conn p1) (drop (n' + (N - n')) (x :: rest)))
                 = with_conn p (set_c_in (conn p) (drop N (x :: rest)))).
    { subst p1. replace (n' + (N - n'))%nat with N by lia. reflexivity. }
    rewrite Hp in Hrest.
    assert (Htake : take n' (x :: rest) ++ take (N - n') (drop n' (x :: rest))
                    = take N (x :: rest)).
    { rewrite take_take_drop. replace (n' + (N - n'))%nat with N by lia. reflexivity. }
    rewrite <- Htake.
    eapply drains_chunk; [exact Hread | | exact Hrest].
    intros Hnil. rewrite Hnil in Hlen. cbn [length] in Hlen. lia.
Qed.

Lemma Store_Write_drains {R} `{Reader R} fuel s fs id key (src src' : R) data fs' f :
  openFileForWriting s fs id key = (fs', inr f) ->
  drains src data src' ->
  (length data < fuel)%nat ->
  Store_Write fuel s fs id key src
  = Done (len data, None, wf_fs (wrote f data), src').
Proof.
  intros Ho Hd Hf. unfold Store_Write, writeStream. rewrite Ho. unfold Copy.
  rewrite (Copy_loop_drains _ _ _ Hd) by exact Hf. reflexivity.
Qed.

(** What is on the disk after a file was opened for writing and [data]
    was written to it. *)
Lemma written_file_read s fs id key fs' f data :
  openFileForWriting s fs id key = (fs', inr f) ->
  Store_Read s (wf_fs (wrote f data)) id key
  = (len data, Some (mkRFile (File data) 0), None).
Proof.
  intros Ho.
  destruct (openFileForWriting_inv _ _ _ _ _ _ Ho) as (fs0 & l & Hwalk & Hk & Hl & ->).
  unfold wrote, Write, WFile_Writer. cbn [wf_fs wf_loc].
  rewrite lookup_insert_eq. cbn [snd wf_fs app].
  rewrite insert_insert_eq.
  unfold Store_Read, readStream, Open, resolve.
  rewrite (walk_insert_file _ _ _ _ data Hwalk Hk).
  now rewrite kind_insert_eq.
Qed.

(** C3 (as amended). The StoreFile handler writes what it reads off the
    peer's connection, the first [Size] bytes, to the disk as it is, under
    the announced (ID, Key), through the plain write path; it takes those
    bytes off the connection and lowers the peer's gate by one. *)
Theorem handleMessageStoreFile_writes_raw_stream
    (fuel : nat) (s : FileServer) (from id key : string) (size : Z)
    (peer : TCPPeer) (fs' : FS) (f : WFile) :
  peers s !! from = Some peer ->
  0 <= size <= len (c_in (conn peer)) ->
  (Z.to_nat size < fuel)%nat ->
  1 <= wg peer ->
  openFileForWriting (store s) (disk s) id key = (fs', inr f) ->
  let raw := take (Z.to_nat size) (c_in (conn peer)) in
  exists s',
    handleMessageStoreFile fuel s from id key size = Done (None, s') /\
    Store_Read (store s') (disk s') id key
    = (size, Some (mkRFile (File raw) 0), None) /\
    Store_Write fuel (store s) (disk s) id key (mkLimited peer size)
    = Done (size, None, disk s',
            mkLimited (with_conn peer
                         (set_c_in (conn peer)
                                   (drop (Z.to_nat size) (c_in (conn peer))))) 0) /\
    peers s' !! from
    = Some (mkTCPPeer (set_c_in (conn peer) (drop (Z.to_nat size) (c_in (conn peer))))
                      (outbound peer) (wg peer - 1)).
Proof.
  intros Hpeer Hsize Hfuel Hwg Ho raw.
  assert (HN : (Z.to_nat size <= length (c_in (conn peer)))%nat).
  { unfold len in Hsize. lia. }
  pose proof (Limited_drains (Z.to_nat size) peer HN) as Hd.
  rewrite Z2Nat.id in Hd by lia. fold raw in Hd.
  assert (Hraw : len raw = size).
  { unfold len, raw. rewrite length_take. lia. }
  assert (Hw := Store_Write_drains fuel (store s) (disk s) id key _ _ raw fs' f Ho Hd).
  rewrite Hraw in Hw. specialize (Hw ltac:(unfold raw; rewrite length_take; lia)).
  eexists. split; [|split; [|split]].
  - unfold handleMessageStoreFile. rewrite Hpeer, Hw. cbn [obind lr_R].
    unfold CloseStream. cbn [wg with_conn conn outbound].
    destruct (Z.ltb_spec (wg peer - 1) 0) as [Hlt|_]; [lia|].
    cbn [obind]. reflexivity.
  - cbn [store disk set_peers set_disk].
    rewrite (written_file_read _ _ _ _ _ _ raw Ho). now rewrite Hraw.
  - exact Hw.
  - cbn [peers set_peers set_disk]. now rewrite lookup_insert_eq.
Qed.

Lemma handleMessageStoreFile_writes_raw_stream_witness :
  let peer := mkTCPPeer (conn_with "10.0.0.1:3000" cipher_stream) false 1 in
  let raw := take (Z.to_nat 27) (c_in (conn peer)) in
  exists s',
    handleMessageStoreFile 28 node_B "10.0.0.1:3000" "nodeA" "key" 27 = Done (None, s') /\
    Store_Read (store s') (disk s') "nodeA" "key"
    = (27, Some (mkRFile (File raw) 0), None) /\
    Store_Write 28 (store node_B) (disk node_B) "nodeA" "key" (mkLimited peer 27)
    = Done (27, None, disk s',
            mkLimited (with_conn peer
                         (set_c_in (conn peer)
                                   (drop (Z.to_nat 27) (c_in (conn peer))))) 0) /\
    peers s' !! "10.0.0.1:3000"
    = Some (mkTCPPeer (set_c_in (conn peer) (drop (Z.to_nat 27) (c_in (conn peer))))
                      (outbound peer) (wg peer - 1)).
Proof.
  intros peer raw.
  refine (handleMessageStoreFile_writes_raw_stream 28 node_B "10.0.0.1:3000"
            "nodeA" "key" 27 peer
            (openFileForWriting (store node_B) (disk node_B) "nodeA" "key").1
            (match (openFileForWriting (store node_B) (disk node_B) "nodeA" "key").2 with
             | inr f => f
             | inl _ => mkWFile ∅ []
             end) _ _ _ _ _).
  - vm_compute. reflexivity.
  - vm_compute. split; discriminate.
  - vm_compute. lia.
  - vm_compute. discriminate.
  - destruct (openFileForWriting (store node_B) (disk node_B) "nodeA" "key")
      as [fs0 [e|f0]] eqn:Ho; [|reflexivity].
    exfalso. apply (f_equal (fun r => match r.2 with inl _ => true | inr _ => false end)) in Ho.
    vm_compute in Ho. discriminate Ho.
Defined.

(** C3, the claim as stated fails: node B persists the 27 bytes it
    received from node A as they are, the IV and the ciphertext; the
    plaintext, which is what decrypting them under A's key gives, has 11
    bytes and is not what is on B's disk. *)
Lemma handleMessageStoreFile_does_not_decrypt :
  match handleMessageStoreFile 28 node_B "10.0.0.1:3000" "nodeA" "key" 27 with
  | Done (err, s') =>
      err = None /\
      Store_Read (store s') (disk s') "nodeA" "key"
      = (27, Some (mkRFile (File cipher_stream) 0), None)
  | _ => False
  end /\
  copyDecrypt 12 sample_key (mkBuffer cipher_stream) (mkBuffer [])
  = Done (27, None, mkBuffer [], mkBuffer sample_payload) /\
  cipher_stream <> sample_payload.
Proof.
  split; [|split].
  - vm_compute. split; reflexivity.
  - vm_compute. reflexivity.
  - vm_compute. discriminate.
Qed.

(** ** The end-to-end scenario *)

(** A gets its file back through B: what B keeps is the encrypted stream,
    16 bytes longer than the file, and the decryption happens at A. *)
Example scenario_round_trip :
  match scenario with
  | Done (r, err, blob_at_B, gateB, gateA) =>
      r = Some (mkRFile (File scenario_data) 0) /\ err = None /\
      gateB = 0 /\ gateA = 0 /\
      match blob_at_B with
      | Some (File raw) =>
          len raw = len scenario_data + 16 /\
          copyDecrypt 40 sample_key (mkBuffer raw) (mkBuffer [])
          = Done (len raw, None, mkBuffer [], mkBuffer scenario_data)
      | _ => False
      end
  | _ => False
  end.
Proof. vm_compute. repeat split. Qed.

(** ** The size header *)

Lemma byte_to_Z_of_Z z : byte_to_Z (byte_of_Z z) = z mod 256.
Proof.
  unfold byte_to_Z, byte_of_Z.
  assert (Hr : 0 <= z mod 256 < 256) by (apply Z.mod_pos_bound; lia).
  destruct (Byte.of_N (Z.to_N (z mod 256))) as [b|] eqn:Hb.
  - apply Byte.to_of_N in Hb; rewrite Hb. lia.
  - apply Byte.of_N_None_iff in Hb. lia.
Qed.

Lemma le_fold n : forall x,
  fold_right (fun b acc => byte_to_Z b + 256 * acc) 0
    (map (fun i => byte_of_Z (Z.shiftr x (8 * Z.of_nat i))) (seq 0 n))
  = x mod 2 ^ (8 * Z.of_nat n).
Proof.
  induction n as [|n IH]; intros x.
  - cbn [seq map fold_right]. now rewrite Z.mod_1_r.
  - rewrite <- cons_seq, <- seq_shift. cbn [map fold_right]. rewrite map_map.
    rewrite byte_to_Z_of_Z, Z.shiftr_0_r.
    rewrite (map_ext _ (fun i => byte_of_Z (Z.shiftr (x / 256) (8 * Z.of_nat i)))).
    2:{ intros i. f_equal. rewrite !Z.shiftr_div_pow2 by lia.
        replace (8 * Z.of_nat (S i)) with (8 + 8 * Z.of_nat i) by lia.
        rewrite Z.pow_add_r by lia. rewrite <- Z.div_div by lia. reflexivity. }
    rewrite IH.
    replace (8 * Z.of_nat (S n)) with (8 + 8 * Z.of_nat n) by lia.
    rewrite Z.pow_add_r by lia.
    rewrite (Z.rem_mul_r x (2 ^ 8)) by lia. reflexivity.
Qed.

Lemma le_bytes8_length z : length (le_bytes8 z) = 8%nat.
Proof. unfold le_bytes8. now rewrite length_map, length_seq. Qed.

Lemma le_int64_of_le_bytes8 z : - 2 ^ 63 <= z < 2 ^ 63 -> le_int64 (le_bytes8 z) = z.
Proof.
  intros Hz.
  - unfold le_int64, le_bytes8. rewrite le_fold.
    change (8 * Z.of_nat 8) with 64.
    rewrite Z.mod_mod by lia.
    destruct (Z.ltb_spec (z mod 2 ^ 64) (2 ^ 63)) as [Hlt|Hge].
    + destruct (Z_lt_le_dec z 0) as [Hneg|Hpos].
      * assert (z mod 2 ^ 64 = z + 2 ^ 64); [|lia].
        symmetry. apply (Z.mod_unique z (2 ^ 64) (-1)); lia.
      * apply Z.mod_small. lia.
    + destruct (Z_lt_le_dec z 0) as [Hneg|Hpos].
      * assert (z mod 2 ^ 64 = z + 2 ^ 64); [|lia].
        symmetry. apply (Z.mod_unique z (2 ^ 64) (-1)); lia.
      * rewrite Z.mod_small in Hge; lia.
Qed.

(** The size header of a reply: what [handleMessageGetFile] writes with
    [binary.Write] is what [Get] reads back with [binary.Read], for every
    [int64]. *)
Theorem le_int64_le_bytes8 (z : Z) :
  - 2 ^ 63 <= z < 2 ^ 63 ->
  length (le_bytes8 z) = 8%nat /\ le_int64 (le_bytes8 z) = z.
Proof.
  intros Hz. split; [apply le_bytes8_length | now apply le_int64_of_le_bytes8].
Qed.

Lemma le_int64_le_bytes8_witness :
  length (le_bytes8 (-27)) = 8%nat /\ le_int64 (le_bytes8 (-27)) = -27.
Proof. apply (le_int64_le_bytes8 (-27)). lia. Defined.

(** ** The stream codec at its edges *)

(** A key that is not 16, 24 or 32 bytes long: both directions return the
    key size error of [aes.NewCipher] with count 0; nothing is read from
    the source, nothing is written, no entropy is drawn. *)
Theorem copy_rejects_bad_key_size {R W} `{Reader R} `{Writer W}
    (fuel : nat) (rnd : RandReader) (key : list byte) (src : R) (dst : W) :
  length key <> 16%nat -> length key <> 24%nat -> length key <> 32%nat ->
  copyEncrypt fuel rnd key src dst
  = Done (0, Some (KeySizeError (length key)), src, dst, rnd) /\
  copyDecrypt fuel key src dst
  = Done (0, Some (KeySizeError (length key)), src, dst).
Proof.
  intros H16 H24 H32.
  assert (Hk : aes_NewCipher key = inl (KeySizeError (length key))).
  { unfold aes_NewCipher.
    destruct (Nat.eqb_spec (length key) 16); [contradiction|].
    destruct (Nat.eqb_spec (length key) 24); [contradiction|].
    destruct (Nat.eqb_spec (length key) 32); [contradiction|].
    reflexivity. }
  unfold copyEncrypt, copyDecrypt. now rewrite Hk.
Qed.

Lemma copy_rejects_bad_key_size_witness :
  copyEncrypt 12 sample_rand (take 31 sample_key) (mkBuffer sample_payload) (mkBuffer [])
  = Done (0, Some (KeySizeError (length (take 31 sample_key))),
          mkBuffer sample_payload, mkBuffer [], sample_rand) /\
  copyDecrypt 12 (take 31 sample_key) (mkBuffer sample_payload) (mkBuffer [])
  = Done (0, Some (KeySizeError (length (take 31 sample_key))),
          mkBuffer sample_payload, mkBuffer []).
Proof.
  apply (copy_rejects_bad_key_size 12 sample_rand (take 31 sample_key)
           (mkBuffer sample_payload) (mkBuffer []));
    vm_compute; discriminate.
Defined.

Lemma aes_NewCipher_ok key :
  (length key = 16 \/ length key = 24 \/ length key = 32)%nat ->
  exists block, aes_NewCipher key = inr block.
Proof.
  intros Hk. unfold aes_NewCipher.
  destruct Hk as [-> | [-> | ->]]; cbn [Nat.eqb orb]; eexists; reflexivity.
Qed.

(** [copyDecrypt] takes the IV with one [Read], not with [io.ReadFull]:
    from an empty buffer it returns [io.EOF]; from a buffer of 1 to 16
    bytes it returns 16 and nil and writes nothing, the missing bytes of
    the IV being left at zero. *)
Theorem copyDecrypt_short_input
    (fuel : nat) (key ct pre : list byte) :
  (length key = 16 \/ length key = 24 \/ length key = 32)%nat ->
  (length ct <= 16)%nat ->
  (0 < fuel)%nat ->
  copyDecrypt fuel key (mkBuffer ct) (mkBuffer pre)
  = match ct with
    | [] => Done (0, Some EOF, mkBuffer [], mkBuffer pre)
    | _ => Done (16, None, mkBuffer [], mkBuffer pre)
    end.
Proof.
  intros Hk Hct Hf.
  destruct (aes_NewCipher_ok key Hk) as [block Hb].
  unfold copyDecrypt. rewrite Hb.
  destruct ct as [|x ct]; [reflexivity|].
  rewrite Buffer_Read_data by discriminate.
  change Aes.BlockSize with 16%nat.
  rewrite (drop_ge (x :: ct)) by exact Hct.
  rewrite copyStream_Buffer by (cbn [length]; exact Hf).
  cbn [XORKeyStream fst length]. now rewrite app_nil_r.
Qed.

Lemma copyDecrypt_short_input_witness :
  copyDecrypt 1 sample_key (mkBuffer (take 5 sample_payload)) (mkBuffer [])
  = match take 5 sample_payload with
    | [] => Done (0, Some EOF, mkBuffer [], mkBuffer [])
    | _ => Done (16, None, mkBuffer [], mkBuffer [])
    end.
Proof.
  apply (copyDecrypt_short_input 1 sample_key (take 5 sample_payload) []).
  - right. right. reflexivity.
  - vm_compute. lia.
  - lia.
Defined.

(** ** Missing keys, [Clear], and deletes at the edge *)

(** [Read] of a key fails with a not-exist error exactly when [Has] is
    false for it; the error is then the one of [os.Open] on the full
    path, and no reader is returned. *)
Theorem Read_fails_not_exist_iff_Has_false (s : Store) (fs : FS) (id key : string) :
  (Has s fs id key = false <->
   Store_Read s fs id key
   = (0, None, Some (PathError "open" (full_path s id key) ENOENT))) /\
  (Has s fs id key = false <-> is_ErrNotExist (Store_Read s fs id key).2 = true).
Proof.
  unfold Has, Store_Read, readStream, Stat, Open. fold (full_path s id key).
  destruct (resolve fs (full_path s id key)) as [e|l].
  - destruct e; cbn; split; split; (discriminate || reflexivity || intros; congruence).
  - destruct (kind fs l) as [n|]; cbn; split; split;
      (discriminate || reflexivity || intros; congruence).
Qed.

Lemma NewStore_root_not_empty opts : String.eqb (s_Root (NewStore opts)) "" = false.
Proof.
  unfold NewStore. cbn [s_Root].
  destruct (Root opts) as [|c r]; reflexivity.
Qed.






(** ** What a write leaves alone, and when it succeeds *)

Lemma mkdir_walk_keeps comps : forall fs cur k n,
  kind fs k = Some n -> kind (mkdir_walk fs cur comps).1 k = Some n.
Proof.
  induction comps as [|c rest IH]; intros fs cur k n Hk; [exact Hk|].
  cbn [mkdir_walk].
  destruct (is_dot c); [now apply IH|].
  destruct (String.eqb c ".."); [now apply IH|].
  destruct (kind fs (cur ++ [c])) as [[|d]|] eqn:Hl.
  - now apply IH.
  - exact Hk.
  - apply IH. rewrite kind_insert_ne; [exact Hk|]. congruence.
Qed.

Lemma walk_mono fs fs' :
  (forall k n, kind fs k = Some n -> kind fs' k = Some n) ->
  forall comps cur l, walk fs cur comps = inr l -> walk fs' cur comps = inr l.
Proof.
  intros Hm. induction comps as [|c rest IH]; intros cur l Hw; [exact Hw|].
  cbn [walk] in *.
  destruct (kind fs cur) as [[|d]|] eqn:Hk; try discriminate.
  rewrite (Hm _ _ Hk).
  destruct (is_dot c); [now apply IH|].
  destruct (String.eqb c ".."); now apply IH.
Qed.

Lemma walk_insert_file_other fs l1 d comps : forall cur l2,
  walk fs cur comps = inr l2 ->
  kind fs l1 <> Some Dir ->
  walk (<[l1 := File d]> fs) cur comps = inr l2.
Proof.
  induction comps as [|c rest IH]; intros cur l2 Hw Hl; [exact Hw|].
  cbn [walk] in *.
  destruct (kind fs cur) as [[|d']|] eqn:Hk; try discriminate.
  rewrite kind_insert_ne by congruence. rewrite Hk.
  destruct (is_dot c); [now apply IH|].
  destruct (String.eqb c ".."); now apply IH.
Qed.

(** What a successful write did, step by step: the folders were made,
    then the file was put at the place the full path leads to. *)
Lemma Store_Write_inv_full fuel s fs id key data n fs1 r' :
  (length data < fuel)%nat ->
  Store_Write fuel s fs id key (mkBuffer data) = Done (n, None, fs1, r') ->
  let fs0 := (MkdirAll fs (Sprintf3 (s_Root s) id (PathName (s_PathTransformFunc s key)))).1 in
  exists l,
    walk fs0 [] (Split (full_path s id key) "/") = inr l /\
    kind fs0 l <> Some Dir /\ l <> [] /\
    fs1 = <[l := File data]> fs0.
Proof.
  intros Hf Hw. cbv zeta. revert Hw.
  unfold Store_Write, writeStream, openFileForWriting. intros Hw.
  destruct (MkdirAll fs _) as [fs0 [err|]]; [discriminate|]. cbn [fst].
  fold (full_path s id key) in Hw.
  destruct (Create fs0 (full_path s id key)) as [err|f] eqn:Hc; [discriminate|].
  destruct (Create_inv _ _ _ Hc) as (l & Hwalk & Hk & Hl & ->).
  unfold Copy in Hw.
  rewrite (Copy_loop_drains _ _ _ (Buffer_drains data)) in Hw by exact Hf.
  cbn [obind] in Hw. injection Hw as _ Hfs _.
  unfold wrote, Write, WFile_Writer in Hfs. cbn [wf_fs wf_loc] in Hfs.
  rewrite lookup_insert_eq in Hfs. cbn [snd wf_fs app] in Hfs.
  rewrite insert_insert_eq in Hfs.
  exists l. repeat split; try assumption. now symmetry.
Qed.

Lemma MkdirAll_keeps fs path k n :
  kind fs k = Some n -> kind (MkdirAll fs path).1 k = Some n.
Proof.
  intros Hk. unfold MkdirAll.
  pose proof (mkdir_walk_keeps (Split path "/") fs [] k n Hk) as Hm.
  destruct (mkdir_walk fs [] (Split path "/")) as [fs' e]. exact Hm.
Qed.

(** A key that could be read before a write of another place can be read
    after it, and gives the same. *)
Lemma Write_frame fuel s fs id key data n fs1 r' path2 l1 l2 n2 :
  (length data < fuel)%nat ->
  Store_Write fuel s fs id key (mkBuffer data) = Done (n, None, fs1, r') ->
  resolve fs1 (full_path s id key) = inr l1 ->
  resolve fs path2 = inr l2 ->
  kind fs l2 = Some n2 ->
  l1 <> l2 ->
  resolve fs1 path2 = inr l2 /\ kind fs1 l2 = Some n2.
Proof.
  intros Hf Hw Hr1 Hr2 Hk2 Hne.
  destruct (Store_Write_inv_full _ _ _ _ _ _ _ _ _ Hf Hw) as (l & Hwalk & Hk & Hl & Hfs).
  set (fs0 := (MkdirAll fs _).1) in *.
  assert (Hl1 : l1 = l).
  { unfold resolve in Hr1. rewrite Hfs in Hr1.
    rewrite (walk_insert_file _ _ _ _ _ Hwalk Hk) in Hr1. congruence. }
  subst l1.
  assert (Hm : forall k n, kind fs k = Some n -> kind fs0 k = Some n)
    by (intros; now apply MkdirAll_keeps).
  unfold resolve in *. rewrite Hfs. split.
  - apply walk_insert_file_other; [|exact Hk].
    now apply (walk_mono fs fs0 Hm).
  - rewrite kind_insert_ne by congruence. now apply Hm.
Qed.

Lemma resolve_ends_with fs a b pk l :
  proper_name (Filename pk) = true ->
  no_slash (Filename pk) = true ->
  resolve fs (Sprintf3 a b (FullPath pk)) = inr l ->
  exists l', l = l' ++ [Filename pk].
Proof.
  intros Hp Hn. unfold resolve.
  rewrite Split_Sprintf3, Split_FullPath, (Split_no_slash _ Hn), !app_assoc, walk_app.
  destruct (walk fs [] _) as [e|l'] eqn:Hw; [discriminate|].
  intros Hl. exists l'. now apply (walk_singleton_proper fs).
Qed.

Lemma Store_Read_inv s fs id key sz rf :
  Store_Read s fs id key = (sz, Some rf, None) ->
  exists l n, resolve fs (full_path s id key) = inr l /\ kind fs l = Some n /\
              rf = mkRFile n 0 /\ sz = Size (info_of n).
Proof.
  unfold Store_Read, readStream, Open. fold (full_path s id key).
  destruct (resolve fs (full_path s id key)) as [e|l] eqn:Hl; [discriminate|].
  destruct (kind fs l) as [n|] eqn:Hk; [|discriminate].
  intros Hr. injection Hr as <- <-. now exists l, n.
Qed.

Lemma Store_Read_of s fs id key l n :
  resolve fs (full_path s id key) = inr l -> kind fs l = Some n ->
  Store_Read s fs id key = (Size (info_of n), Some (mkRFile n 0), None) /\
  Has s fs id key = true.
Proof.
  intros Hr Hk. unfold Store_Read, readStream, Open, Has, Stat.
  fold (full_path s id key). now rewrite Hr, Hk.
Qed.

Lemma Write_keeps_other_files (s : Store) (fs fs1 : FS) (id key : string)
    (data : list byte) (fuel : nat) (n : Z) (r1 : Buffer)
    (id2 key2 : string) (sz : Z) (rf : RFile) :
  let T := s_PathTransformFunc s in
  (length data < fuel)%nat ->
  Store_Write fuel s fs id key (mkBuffer data) = Done (n, None, fs1, r1) ->
  proper_name (Filename (T key)) = true -> no_slash (Filename (T key)) = true ->
  proper_name (Filename (T key2)) = true -> no_slash (Filename (T key2)) = true ->
  Filename (T key2) <> Filename (T key) ->
  Store_Read s fs id2 key2 = (sz, Some rf, None) ->
  Store_Read s fs1 id2 key2 = (sz, Some rf, None) /\ Has s fs1 id2 key2 = true.
Proof.
  intros T Hf Hw Hp Hn Hp2 Hn2 Hne Hr.
  destruct (Store_Read_inv _ _ _ _ _ _ Hr) as (l2 & n2 & Hr2 & Hk2 & -> & ->).
  destruct (Store_Write_inv _ _ _ _ _ _ _ _ _ Hf Hw) as (fs0 & l1 & _ & _ & _ & Hr1).
  destruct (resolve_ends_with _ _ _ _ _ Hp Hn Hr1) as [l1' ->].
  destruct (resolve_ends_with _ _ _ _ _ Hp2 Hn2 Hr2) as [l2' ->].
  destruct (Write_frame _ _ _ _ _ _ _ _ _ _ _ _ n2 Hf Hw Hr1 Hr2 Hk2) as [Hr' Hk'].
  { intros He. apply app_inj_tail in He as [_ He]. now apply Hne. }
  exact (Store_Read_of _ _ _ _ _ _ Hr' Hk').
Qed.

Lemma CAS_Filename_plain key :
  proper_name (Filename (CASPathTransformFunc key)) = true /\
  no_slash (Filename (CASPathTransformFunc key)) = true.
Proof.
  rewrite CAS_closed_form. cbn [Filename]. split.
  - apply length_proper. rewrite digest_length. lia.
  - apply EncodeToString_no_slash.
Qed.

(** Under [CASPathTransformFunc] a write never disturbs a key with another
    digest, of whatever node: what could be read there before the write
    is read there after it. *)
Theorem CAS_Write_keeps_other_keys (root : string) (fs fs1 : FS) (id key : string)
    (data : list byte) (fuel : nat) (n : Z) (r1 : Buffer)
    (id2 key2 : string) (sz : Z) (rf : RFile) :
  let s := mkStore root CASPathTransformFunc in
  (length data < fuel)%nat ->
  Store_Write fuel s fs id key (mkBuffer data) = Done (n, None, fs1, r1) ->
  Filename (CASPathTransformFunc key2) <> Filename (CASPathTransformFunc key) ->
  Store_Read s fs id2 key2 = (sz, Some rf, None) ->
  Store_Read s fs1 id2 key2 = (sz, Some rf, None) /\ Has s fs1 id2 key2 = true.
Proof.
  intros s Hf Hw Hne Hr.
  destruct (CAS_Filename_plain key) as [Hp Hn].
  destruct (CAS_Filename_plain key2) as [Hp2 Hn2].
  now apply (Write_keeps_other_files s fs fs1 id key data fuel n r1 id2 key2 sz rf).
Qed.

Lemma CAS_Write_keeps_other_keys_witness :
  let s := mkStore "ggnetwork" CASPathTransformFunc in
  let fs := written s ∅ "node" "picture_0.png" (bytes_of_string "picture 0") in
  let fs1 := written s fs "node" "picture_75.png" (bytes_of_string "picture 75") in
  Store_Read s fs1 "node" "picture_0.png"
  = (9, Some (mkRFile (File (bytes_of_string "picture 0")) 0), None) /\
  Has s fs1 "node" "picture_0.png" = true.
Proof.
  intros s fs fs1.
  refine (CAS_Write_keeps_other_keys "ggnetwork" fs fs1 "node" "picture_75.png"
            (bytes_of_string "picture 75") 11 10 (mkBuffer [])
            "node" "picture_0.png" 9 _ _ _ _ _).
  - vm_compute. lia.
  - unfold fs1, written. apply outcome_eta. vm_compute. reflexivity.
  - vm_compute. discriminate.
  - vm_compute. reflexivity.
Defined.

Lemma resolve_below_id fs root id rest l :
  no_dotdot root = true ->
  proper_name id = true -> no_slash id = true ->
  no_dotdot rest = true ->
  resolve fs (Sprintf3 root id rest) = inr l ->
  l = names (Split root "/") ++ [id] ++ names (Split rest "/").
Proof.
  intros Hroot Hp Hn Hrest Hr. unfold resolve in Hr.
  apply walk_names in Hr.
  - rewrite Split_Sprintf3, !names_app, (Split_no_slash _ Hn), (names_proper _ Hp) in Hr.
    exact Hr.
  - fold (no_dotdot (Sprintf3 root id rest)).
    rewrite no_dotdot_Sprintf3, Hroot, Hrest.
    now rewrite (proper_name_no_dotdot _ Hp (Split_no_slash _ Hn)).
Qed.

(** Under [CASPathTransformFunc] the nodes' folders are apart: a write for
    one node never disturbs what is kept for another node, the same key
    included. *)
Theorem CAS_Write_keeps_other_nodes (root : string) (fs fs1 : FS) (id key : string)
    (data : list byte) (fuel : nat) (n : Z) (r1 : Buffer)
    (id2 key2 : string) (sz : Z) (rf : RFile) :
  let s := mkStore root CASPathTransformFunc in
  (length data < fuel)%nat ->
  Store_Write fuel s fs id key (mkBuffer data) = Done (n, None, fs1, r1) ->
  no_dotdot root = true ->
  proper_name id = true -> no_slash id = true ->
  proper_name id2 = true -> no_slash id2 = true ->
  id2 <> id ->
  Store_Read s fs id2 key2 = (sz, Some rf, None) ->
  Store_Read s fs1 id2 key2 = (sz, Some rf, None) /\ Has s fs1 id2 key2 = true.
Proof.
  intros s Hf Hw Hroot Hp Hn Hp2 Hn2 Hne Hr.
  destruct (Store_Read_inv _ _ _ _ _ _ Hr) as (l2 & n2 & Hr2 & Hk2 & -> & ->).
  destruct (Store_Write_inv _ _ _ _ _ _ _ _ _ Hf Hw) as (fs0 & l1 & _ & _ & _ & Hr1).
  destruct (CAS_path_is_plain key) as (_ & _ & _ & Hfull).
  destruct (CAS_path_is_plain key2) as (_ & _ & _ & Hfull2).
  pose proof (resolve_below_id _ _ _ _ _ Hroot Hp Hn Hfull Hr1) as Hl1.
  pose proof (resolve_below_id _ _ _ _ _ Hroot Hp2 Hn2 Hfull2 Hr2) as Hl2.
  destruct (Write_frame _ _ _ _ _ _ _ _ _ _ _ _ n2 Hf Hw Hr1 Hr2 Hk2) as [Hr' Hk'].
  { rewrite Hl1, Hl2. intros He. apply app_inv_head in He.
    cbn [app] in He. pose proof (f_equal (hd "") He) as Hid.
    cbn [hd] in Hid. now apply Hne. }
  exact (Store_Read_of _ _ _ _ _ _ Hr' Hk').
Qed.

Lemma CAS_Write_keeps_other_nodes_witness :
  let s := mkStore "ggnetwork" CASPathTransformFunc in
  let fs := written s ∅ "nodeB" "picture_0.png" (bytes_of_string "picture 0") in
  let fs1 := written s fs "nodeA" "picture_0.png" (bytes_of_string "another one") in
  Store_Read s fs1 "nodeB" "picture_0.png"
  = (9, Some (mkRFile (File (bytes_of_string "picture 0")) 0), None) /\
  Has s fs1 "nodeB" "picture_0.png" = true.
Proof.
  intros s fs fs1.
  refine (CAS_Write_keeps_other_nodes "ggnetwork" fs fs1 "nodeA" "picture_0.png"
            (bytes_of_string "another one") 12 11 (mkBuffer [])
            "nodeB" "picture_0.png" 9 _ _ _ _ _ _ _ _ _ _).
  - vm_compute. lia.
  - unfold fs1, written. apply outcome_eta. vm_compute. reflexivity.
  - vm_compute. reflexivity.
  - vm_compute. reflexivity.
  - vm_compute. reflexivity.
  - vm_compute. reflexivity.
  - vm_compute. reflexivity.
  - vm_compute. discriminate.
  - vm_compute. reflexivity.
Defined.

(** [MkdirAll] along a path without [..], when no regular file is in the
    way: it returns nil, the path then leads to a directory, what was
    there stays, and nothing appears off the path. *)
Lemma mkdir_walk_ok comps : forall fs cur,
  forallb (fun c => negb (String.eqb c "..")) comps = true ->
  kind fs cur = Some Dir ->
  (forall q d, q `prefix_of` names comps -> kind fs (cur ++ q) <> Some (File d)) ->
  exists fs',
    mkdir_walk fs cur comps = (fs', None) /\
    walk fs' cur comps = inr (cur ++ names comps) /\
    kind fs' (cur ++ names comps) = Some Dir /\
    (forall k n, kind fs k = Some n -> kind fs' k = Some n) /\
    (forall k, kind fs k = None ->
       ~ (exists q, q `prefix_of` names comps /\ k = cur ++ q) -> kind fs' k = None).
Proof.
  induction comps as [|c rest IH]; intros fs cur Hnd Hcur Hfree.
  - exists fs. cbn [mkdir_walk walk names List.filter]. rewrite app_nil_r.
    repeat split; auto.
  - cbn [forallb] in Hnd. apply andb_true_iff in Hnd as [Hc Hrest].
    apply negb_true_iff in Hc.
    cbn [mkdir_walk walk]. rewrite Hc.
    unfold names in *. cbn [List.filter] in *. fold (names rest) in *.
    destruct (is_dot c) eqn:Hdot; cbn [negb] in *.
    + destruct (IH fs cur Hrest Hcur Hfree) as (fs' & Hm & Hw & Hk & Hkeep & Hoff).
      exists fs'. rewrite Hm. repeat split; auto.
      rewrite (Hkeep _ _ Hcur). exact Hw.
    + assert (Hfree' : forall fs2,
                (forall k, k <> cur ++ [c] -> kind fs2 k = kind fs k) ->
                forall q d, q `prefix_of` names rest ->
                  kind fs2 ((cur ++ [c]) ++ q) <> Some (File d) \/ q = []).
      { intros fs2 H2 q d Hq. destruct q as [|x q]; [now right|]. left.
        rewrite H2.
        - rewrite <- app_assoc. apply Hfree. cbn [app]. now apply prefix_cons.
        - rewrite <- (app_nil_r (cur ++ [c])) at 2. intros He.
          apply app_inv_head in He. discriminate. }
      destruct (kind fs (cur ++ [c])) as [[|d]|] eqn:Hl.
      * destruct (IH fs (cur ++ [c]) Hrest Hl) as (fs' & Hm & Hw & Hk & Hkeep & Hoff).
        { intros q d Hq.
          destruct (Hfree' fs (fun _ _ => eq_refl) q d Hq) as [H|Hq0]; [exact H|subst q].
          rewrite app_nil_r, Hl. discriminate. }
        exists fs'. rewrite Hm, <- !app_assoc in *. cbn [app] in *.
        repeat split; auto.
        -- rewrite (Hkeep _ _ Hcur). exact Hw.
        -- intros k Hk0 Hnot. apply Hoff; [exact Hk0|].
           intros (q & Hq & ->). apply Hnot. exists (c :: q).
           split; [now apply prefix_cons|]. now rewrite <- app_assoc.
      * exfalso. apply (Hfree [c] d); [|exact Hl].
        now apply prefix_cons, prefix_nil.
      * assert (Hne : cur ++ [c] <> []) by (destruct cur; discriminate).
        destruct (IH (<[cur ++ [c] := Dir]> fs) (cur ++ [c]) Hrest)
          as (fs' & Hm & Hw & Hk & Hkeep & Hoff).
        { now apply kind_insert_eq. }
        { intros q d Hq.
          destruct (Hfree' (<[cur ++ [c] := Dir]> fs)
                      (fun k Hk => kind_insert_ne fs _ Dir k Hk) q d Hq) as [H|Hq0];
            [exact H|subst q].
          rewrite app_nil_r, kind_insert_eq by exact Hne. discriminate. }
        exists fs'. rewrite Hm, <- !app_assoc in *. cbn [app] in *.
        assert (Hkeep' : forall k n, kind fs k = Some n -> kind fs' k = Some n).
        { intros k n Hk0. apply Hkeep. rewrite kind_insert_ne; [exact Hk0|].
          intros ->. congruence. }
        repeat split; auto.
        -- rewrite (Hkeep' _ _ Hcur). exact Hw.
        -- intros k Hk0 Hnot. apply Hoff.
           ++ rewrite kind_insert_ne; [exact Hk0|].
              intros ->. apply Hnot. exists [c]. split; [|reflexivity].
              now apply prefix_cons, prefix_nil.
           ++ intros (q & Hq & ->). apply Hnot. exists (c :: q).
              split; [now apply prefix_cons|]. now rewrite <- app_assoc.
Qed.

Lemma mkdir_walk_fails comps : forall fs cur,
  forallb (fun c => negb (String.eqb c "..")) comps = true ->
  kind fs cur = Some Dir ->
  (exists q d, q `prefix_of` names comps /\ kind fs (cur ++ q) = Some (File d)) ->
  (mkdir_walk fs cur comps).2 = Some ENOTDIR.
Proof.
  induction comps as [|c rest IH]; intros fs cur Hnd Hcur (q & d & Hq & Hk).
  - cbn [names List.filter] in Hq. apply prefix_nil_inv in Hq. subst q.
    rewrite app_nil_r in Hk. congruence.
  - cbn [forallb] in Hnd. apply andb_true_iff in Hnd as [Hc Hrest].
    apply negb_true_iff in Hc.
    cbn [mkdir_walk]. rewrite Hc.
    unfold names in Hq. cbn [List.filter] in Hq. fold (names rest) in Hq.
    destruct (is_dot c) eqn:Hdot; cbn [negb] in Hq.
    + apply IH; [exact Hrest | exact Hcur | now exists q, d].
    + destruct q as [|x q]; [rewrite app_nil_r in Hk; congruence|].
      pose proof (prefix_cons_inv_1 _ _ _ _ Hq) as Hx. subst x.
      apply prefix_cons_inv_2 in Hq.
      replace (cur ++ c :: q) with ((cur ++ [c]) ++ q) in Hk
        by now rewrite <- app_assoc.
      destruct (kind fs (cur ++ [c])) as [[|d0]|] eqn:Hl.
      * apply IH; [exact Hrest | exact Hl | now exists q, d].
      * reflexivity.
      * assert (Hne : cur ++ [c] <> []) by (destruct cur; discriminate).
        apply IH; [exact Hrest | now apply kind_insert_eq |].
        exists q, d. split; [exact Hq|].
        rewrite kind_insert_ne; [exact Hk|].
        intros He. rewrite He in Hk. congruence.
Qed.

Lemma Has_true_of_Read s fs id key sz rf :
  Store_Read s fs id key = (sz, Some rf, None) -> Has s fs id key = true.
Proof.
  intros Hr. destruct (Store_Read_inv _ _ _ _ _ _ Hr) as (l & n & Hl & Hk & _).
  exact (proj2 (Store_Read_of _ _ _ _ _ _ Hl Hk)).
Qed.

(** The three ways a write can go, for a key whose folder path has no
    [..] and whose file name is an ordinary name. *)
Lemma Write_outcomes (s : Store) (fs : FS) (id key : string)
    (data : list byte) (fuel : nat) :
  let pk := s_PathTransformFunc s key in
  let dir := Sprintf3 (s_Root s) id (PathName pk) in
  let P := names (Split dir "/") in
  no_dotdot dir = true ->
  proper_name (Filename pk) = true -> no_slash (Filename pk) = true ->
  (length data < fuel)%nat ->
  ((forall q d, q `prefix_of` P -> kind fs q <> Some (File d)) ->
   kind fs (P ++ [Filename pk]) <> Some Dir ->
   exists fs1,
     Store_Write fuel s fs id key (mkBuffer data)
     = Done (len data, None, fs1, mkBuffer []) /\
     Store_Read s fs1 id key = (len data, Some (mkRFile (File data) 0), None) /\
     Has s fs1 id key = true) /\
  (forall q d, q `prefix_of` P -> kind fs q = Some (File d) ->
   exists fs1,
     Store_Write fuel s fs id key (mkBuffer data)
     = Done (0, Some (PathError "mkdir" dir ENOTDIR), fs1, mkBuffer data)) /\
  ((forall q d, q `prefix_of` P -> kind fs q <> Some (File d)) ->
   kind fs (P ++ [Filename pk]) = Some Dir ->
   exists fs1,
     Store_Write fuel s fs id key (mkBuffer data)
     = Done (0, Some (PathError "open" (full_path s id key) EISDIR), fs1,
             mkBuffer data)).
Proof.
  intros pk dir P Hnd Hp Hn Hf.
  assert (Hsplit : Split (full_path s id key) "/" = Split dir "/" ++ [Filename pk]).
  { unfold full_path, dir. fold pk.
    rewrite !Split_Sprintf3, Split_FullPath, (Split_no_slash _ Hn).
    now rewrite <- !app_assoc. }
  destruct (proper_name_not_dots _ Hp) as [Hdot Hdotdot].
  assert (Hisdot : is_dot (Filename pk) = false).
  { unfold proper_name in Hp. apply andb_true_iff in Hp as [Hp _].
    now apply negb_true_iff in Hp. }
  assert (Hopen : (forall q d, q `prefix_of` P -> kind fs q <> Some (File d)) ->
     exists fs',
       MkdirAll fs dir = (fs', None) /\
       walk fs' [] (Split (full_path s id key) "/") = inr (P ++ [Filename pk]) /\
       kind fs' (P ++ [Filename pk]) = kind fs (P ++ [Filename pk])).
  { intros Hfree.
    destruct (mkdir_walk_ok (Split dir "/") fs [] Hnd eq_refl Hfree)
      as (fs' & Hm & Hw & Hk & Hkeep & Hoff).
    cbn [app] in Hw, Hk. fold P in Hw, Hk.
    exists fs'. split; [|split].
    - unfold MkdirAll. now rewrite Hm.
    - rewrite Hsplit, walk_app, Hw. cbn [walk]. now rewrite Hk, Hisdot, Hdotdot.
    - destruct (kind fs (P ++ [Filename pk])) as [n|] eqn:Hk0.
      + now apply Hkeep.
      + apply Hoff; [exact Hk0|]. intros (q & Hq & He). cbn [app] in He. subst q.
        apply prefix_length in Hq. fold P in Hq.
        rewrite length_app in Hq. cbn [length] in Hq. lia. }
  assert (Hlast : List.last (Split (full_path s id key) "/") "" = Filename pk)
    by (rewrite Hsplit; apply last_last).
  split; [|split].
  - intros Hfree Htarget.
    destruct (Hopen Hfree) as (fs' & Hm & Hw & Hk).
    set (l := P ++ [Filename pk]) in *.
    assert (Ho : openFileForWriting s fs id key
                 = (fs', inr (mkWFile (<[l := File []]> fs') l))).
    { unfold openFileForWriting. fold pk. fold dir. rewrite Hm.
      change (Sprintf3 (s_Root s) id (FullPath pk)) with (full_path s id key).
      unfold Create. rewrite Hw, Hlast, Hisdot, Hdotdot.
      cbn [orb]. destruct (kind fs' l) as [[|d]|]; congruence. }
    exists (wf_fs (wrote (mkWFile (<[l := File []]> fs') l) data)).
    rewrite (Store_Write_drains _ _ _ _ _ _ _ _ _ _ Ho (Buffer_drains data) Hf).
    pose proof (written_file_read _ _ _ _ _ _ data Ho) as Hr.
    split; [reflexivity|]. split; [exact Hr|].
    exact (Has_true_of_Read _ _ _ _ _ _ Hr).
  - intros q d Hq Hk.
    assert (Hfail : (mkdir_walk fs [] (Split dir "/")).2 = Some ENOTDIR).
    { apply mkdir_walk_fails; [exact Hnd | reflexivity |]. now exists q, d. }
    unfold Store_Write, writeStream, openFileForWriting. fold pk. fold dir.
    unfold MkdirAll.
    destruct (mkdir_walk fs [] (Split dir "/")) as [fs' e]. cbn [snd] in Hfail.
    subst e. cbn [option_map]. now exists fs'.
  - intros Hfree Htarget.
    destruct (Hopen Hfree) as (fs' & Hm & Hw & Hk).
    exists fs'.
    unfold Store_Write, writeStream, openFileForWriting. fold pk. fold dir.
    rewrite Hm.
    change (Sprintf3 (s_Root s) id (FullPath pk)) with (full_path s id key).
    unfold Create.
    rewrite Hw, Hlast, Hisdot, Hdotdot. cbn [orb]. now rewrite Hk, Htarget.
Qed.

Lemma CAS_dir_plain root id key :
  no_dotdot root = true -> no_dotdot id = true ->
  no_dotdot (Sprintf3 root id (PathName (CASPathTransformFunc key))) = true.
Proof.
  intros Hroot Hid. rewrite no_dotdot_Sprintf3, Hroot, Hid.
  destruct (CAS_path_is_plain key) as (_ & _ & _ & Hfull).
  rewrite no_dotdot_FullPath in Hfull. now apply andb_true_iff in Hfull as [-> _].
Qed.






Lemma walk_visits_dirs comps : forall fs cur c l,
  forallb (fun c => negb (String.eqb c "..")) comps = true ->
  walk fs cur (comps ++ [c]) = inr l ->
  forall q, q `prefix_of` names comps -> kind fs (cur ++ q) = Some Dir.
Proof.
  induction comps as [|c0 rest IH]; intros fs cur c l Hnd Hw q Hq.
  - cbn [names List.filter] in Hq. apply prefix_nil_inv in Hq. subst q.
    rewrite app_nil_r. cbn [app walk] in Hw.
    destruct (kind fs cur) as [[|d]|]; congruence.
  - cbn [forallb] in Hnd. apply andb_true_iff in Hnd as [Hc Hrest].
    apply negb_true_iff in Hc.
    cbn [app walk] in Hw.
    destruct (kind fs cur) as [[|d]|] eqn:Hcur; try discriminate.
    rewrite Hc in Hw.
    unfold names in Hq. cbn [List.filter] in Hq. fold (names rest) in Hq.
    destruct (is_dot c0) eqn:Hdot; cbn [negb] in Hq.
    + now apply (IH fs cur c l).
    + destruct q as [|x q]; [now rewrite app_nil_r|].
      pose proof (prefix_cons_inv_1 _ _ _ _ Hq) as Hx. subst x.
      apply prefix_cons_inv_2 in Hq.
      replace (cur ++ c0 :: q) with ((cur ++ [c0]) ++ q) by now rewrite <- app_assoc.
      now apply (IH fs (cur ++ [c0]) c l).
Qed.

(** Under [CASPathTransformFunc], with no [..] in the root folder and the
    node's name: after a write of a key has returned nil, a second write
    of the key returns nil too, and the key then reads as the second
    content. *)
Theorem CAS_Write_overwrites (root : string) (fs fs1 : FS) (id key : string)
    (data data2 : list byte) (fuel : nat) (n : Z) (r1 : Buffer) :
  let s := mkStore root CASPathTransformFunc in
  no_dotdot root = true -> no_dotdot id = true ->
  (length data < fuel)%nat -> (length data2 < fuel)%nat ->
  Store_Write fuel s fs id key (mkBuffer data) = Done (n, None, fs1, r1) ->
  exists fs2,
    Store_Write fuel s fs1 id key (mkBuffer data2)
    = Done (len data2, None, fs2, mkBuffer []) /\
    Store_Read s fs2 id key = (len data2, Some (mkRFile (File data2) 0), None) /\
    Has s fs2 id key = true.
Proof.
  intros s Hroot Hid Hf Hf2 Hw.
  destruct (Store_Write_inv_full _ _ _ _ _ _ _ _ _ Hf Hw) as (l & Hwalk & Hk & Hl & Hfs).
  set (fs0 := (MkdirAll fs _).1) in *.
  destruct (CAS_Filename_plain key) as [Hp Hn].
  pose proof (CAS_dir_plain root id key Hroot Hid) as Hnd.
  set (pk := CASPathTransformFunc key) in *.
  set (dir := Sprintf3 root id (PathName pk)) in *.
  assert (Hsplit : Split (full_path s id key) "/" = Split dir "/" ++ [Filename pk]).
  { unfold full_path, dir, s. cbn [s_Root s_PathTransformFunc]. fold pk.
    rewrite !Split_Sprintf3, Split_FullPath, (Split_no_slash _ Hn).
    now rewrite <- !app_assoc. }
  rewrite Hsplit in Hwalk.
  assert (Hdirs : forall q, q `prefix_of` names (Split dir "/") -> kind fs0 q = Some Dir).
  { intros q Hq. exact (walk_visits_dirs _ _ _ _ _ Hnd Hwalk q Hq). }
  assert (Hloc : l = names (Split dir "/") ++ [Filename pk]).
  { rewrite walk_app in Hwalk.
    destruct (walk fs0 [] (Split dir "/")) as [e|l0] eqn:Hw0; [discriminate|].
    apply walk_names in Hw0; [|exact Hnd]. cbn [app] in Hw0. subst l0.
    now apply (walk_singleton_proper fs0). }
  refine (proj1 (Write_outcomes s fs1 id key data2 fuel Hnd Hp Hn Hf2) _ _).
  - intros q d Hq. rewrite Hfs, kind_insert_ne.
    + rewrite (Hdirs q Hq). discriminate.
    + intros He. rewrite He, Hloc in Hq. apply prefix_length in Hq.
      rewrite length_app in Hq. cbn [length] in Hq.
      change (Sprintf3 (s_Root s) id (PathName (s_PathTransformFunc s key)))
        with dir in Hq. lia.
  - change (kind fs1 (names (Split dir "/") ++ [Filename pk]) <> Some Dir).
    rewrite <- Hloc, Hfs.
    rewrite kind_insert_eq by exact Hl. discriminate.
Qed.

Lemma CAS_Write_overwrites_witness :
  let s := mkStore "ggnetwork" CASPathTransformFunc in
  let fs1 := written s ∅ "node" "momsbestpicture" sample_payload in
  exists fs2,
    Store_Write 12 s fs1 "node" "momsbestpicture" (mkBuffer (bytes_of_string "v2"))
    = Done (2, None, fs2, mkBuffer []) /\
    Store_Read s fs2 "node" "momsbestpicture"
    = (2, Some (mkRFile (File (bytes_of_string "v2")) 0), None) /\
    Has s fs2 "node" "momsbestpicture" = true.
Proof.
  intros s fs1.
  refine (CAS_Write_overwrites "ggnetwork" ∅ fs1 "node" "momsbestpicture"
            sample_payload (bytes_of_string "v2") 12 11 (mkBuffer [])
            eq_refl eq_refl _ _ _).
  - vm_compute. lia.
  - vm_compute. lia.
  - unfold fs1, written. apply outcome_eta. vm_compute. reflexivity.
Defined.

(** ** The read loop under the default decoder *)

Lemma Conn_Read_addr (c c' : Conn) n bs e :
  Read c n = Some (bs, e, c') -> RemoteAddr c' = RemoteAddr c.
Proof.
  unfold Read, Conn_Reader. destruct (c_in c) as [|x rest].
  - destruct (n =? 0)%nat; [intros Hr; now injection Hr as _ _ <-|].
    destruct (c_in_err c); [|discriminate]. intros Hr. now injection Hr as _ _ <-.
  - intros Hr. now injection Hr as _ _ <-.
Qed.

Lemma DefaultDecoder_Decode_Conn (dec : DefaultDecoder) (c c' : Conn) err rpc :
  Decode dec c RPC_zero = Some (err, rpc, c') ->
  RemoteAddr c' = RemoteAddr c /\ (length (Payload rpc) <= frame_cap)%nat.
Proof.
  unfold Decode, DefaultDecoder_Decoder, DefaultDecoder_Decode.
  destruct (Read c 1) as [[[peek [e|]] c1]|] eqn:H1; [| |discriminate].
  - intros Hd. injection Hd as _ <- <-. split; [exact (Conn_Read_addr _ _ _ _ _ H1)|].
    cbn [Payload RPC_zero length]. lia.
  - pose proof (Conn_Read_addr _ _ _ _ _ H1) as Ha1.
    destruct (Byte.eqb (hd Byte.x00 peek) IncomingStream).
    + intros Hd. injection Hd as _ <- <-. split; [exact Ha1|].
      cbn [Payload RPC_zero length]. lia.
    + destruct (Read c1 frame_cap) as [[[buf [e|]] c2]|] eqn:H2; [| |discriminate].
      * intros Hd. injection Hd as _ <- <-.
        split; [rewrite <- Ha1; exact (Conn_Read_addr _ _ _ _ _ H2)|].
        cbn [Payload RPC_zero length]. lia.
      * intros Hd. injection Hd as _ <- <-.
        split; [rewrite <- Ha1; exact (Conn_Read_addr _ _ _ _ _ H2)|].
        cbn [Payload]. exact (Read_bound _ _ _ _ _ H2).
Qed.

Section StampedLoop.

Variable hs : TCPPeer -> option error.
Variable onpeer : option (TCPPeer -> option error).

Lemma step_stamped s l s' :
  step mkDefaultDecoder hs onpeer s l s' ->
  RemoteAddr (conn (cs_peer s')) = RemoteAddr (conn (cs_peer s)) /\
  (match cs_phase s with
   | Sending rpc => stamped (RemoteAddr (conn (cs_peer s))) rpc
   | _ => True
   end ->
   match cs_phase s' with
   | Sending rpc => stamped (RemoteAddr (conn (cs_peer s))) rpc
   | _ => True
   end) /\
  (forall P : RPC -> Prop,
     Forall P (cs_rpcch s) ->
     (forall rpc, stamped (RemoteAddr (conn (cs_peer s))) rpc -> P rpc) ->
     match cs_phase s with
     | Sending rpc => stamped (RemoteAddr (conn (cs_peer s))) rpc
     | _ => True
     end ->
     Forall P (cs_rpcch s')).
Proof.
  intros [Hl | He].
  - destruct Hl as [peer q | peer q peer' ph Hd | peer q Hw | peer q rpc Hlen];
      cbn [cs_phase cs_rpcch cs_peer].
    + split; [reflexivity|]. split; [|now intros].
      intros _. unfold prologue. destruct (hs peer); [exact I|].
      destruct onpeer as [f|]; [|exact I]. now destruct (f peer).
    + revert Hd. unfold decode_step.
      destruct (Decode mkDefaultDecoder (conn peer) RPC_zero)
        as [[[[e|] rpc] c']|] eqn:Hdec; try discriminate.
      * destruct (DefaultDecoder_Decode_Conn _ _ _ _ _ Hdec) as [Ha _].
        intros Hd. injection Hd as <- <-. cbn [with_conn conn].
        split; [exact Ha|]. split; now intros.
      * destruct (DefaultDecoder_Decode_Conn _ _ _ _ _ Hdec) as [Ha Hp].
        cbn [Stream]. destruct (Stream rpc); intros Hd; injection Hd as <- <-;
          cbn [with_conn conn]; (split; [exact Ha|]); (split; [|now intros]).
        -- now intros.
        -- intros _. split; [exact Ha | exact Hp].
    + split; [reflexivity|]. split; now intros.
    + split; [reflexivity|]. split; [now intros|].
      intros P Hq HP Hs. apply Forall_app. split; [exact Hq|].
      constructor; [now apply HP | constructor].
  - destruct He as [peer ph q peer' Hc | peer ph q msg Hc | peer ph rpc q
                    | peer ph q bs | peer ph q e | peer ph q n];
      cbn [cs_phase cs_rpcch cs_peer with_conn conn RemoteAddr].
    + unfold CloseStream in Hc. destruct (wg peer - 1 <? 0); [discriminate|].
      injection Hc as <-. cbn [conn].
      split; [reflexivity|]. split; now intros.
    + split; [reflexivity|]. split; now intros.
    + split; [reflexivity|]. split; [now intros|].
      intros P Hq _ _. now inversion Hq.
    + split; [reflexivity|]. split; now intros.
    + split; [reflexivity|]. split; now intros.
    + split; [reflexivity|]. split; now intros.
Qed.

Lemma tstep_stamped t l t' :
  tstep mkDefaultDecoder hs onpeer t l t' ->
  stamped_inv t -> stamped_inv t'.
Proof.
  intros Ht [Hq Hc].
  destruct Ht as [conns q i l peer ph peer' ph' q' Hi Hs | conns q c ob];
    unfold stamped_inv, conn_addrs in *; cbn [t_rpcch t_conns] in *.
  - destruct (step_stamped _ _ _ Hs) as (Ha & Hph & Hqs).
    cbn [cs_peer cs_phase cs_rpcch] in *.
    assert (Hphi : match ph with
                   | Sending rpc => stamped (RemoteAddr (conn peer)) rpc
                   | _ => True
                   end).
    { exact (proj1 (Forall_lookup _ _) Hc i (peer, ph) Hi). }
    assert (Haddrs : map (fun pp : TCPPeer * Phase => RemoteAddr (conn pp.1))
                       (<[i := (peer', ph')]> conns)
                     = map (fun pp : TCPPeer * Phase => RemoteAddr (conn pp.1)) conns).
    { change (map ?f ?l) with (f <$> l). rewrite list_fmap_insert. cbn [fst].
      apply list_insert_id. rewrite list_lookup_fmap, Hi. cbn. now rewrite Ha. }
    split.
    + rewrite Haddrs. apply Hqs; [exact Hq | | exact Hphi].
      intros rpc Hst. exists (RemoteAddr (conn peer)). split; [|exact Hst].
      apply in_map_iff. exists (peer, ph). split; [reflexivity|].
      apply list_elem_of_In. now apply (list_elem_of_lookup_2 _ i).
    + apply Forall_insert; [exact Hc|]. cbn [fst snd].
      rewrite Ha. now apply Hph.
  - split.
    + eapply Forall_impl; [exact Hq|]. intros rpc (addr & Hin & Hst).
      exists addr. split; [|exact Hst]. rewrite map_app. apply in_or_app. now left.
    + apply Forall_app. split; [exact Hc|]. constructor; [exact I | constructor].
Qed.

Lemma trun_stamped t ls t' :
  trun mkDefaultDecoder hs onpeer t ls t' ->
  stamped_inv t -> stamped_inv t'.
Proof.
  induction 1 as [t | t l t1 ls t2 Hstep Hrun IH]; intros Hinv; [exact Hinv|].
  apply IH. exact (tstep_stamped _ _ _ Hstep Hinv).
Qed.

End StampedLoop.

(** With the default decoder, in every execution of the transport from
    its start, every RPC in the queue carries in [From] the remote
    address of one of the transport's connections, whatever the bytes
    received, and a payload of at most 1028 bytes. *)
Theorem queued_rpcs_are_stamped
    (hs : TCPPeer -> option error) (onpeer : option (TCPPeer -> option error))
    (ls : list TLabel) (t : TCPTransport) :
  trun mkDefaultDecoder hs onpeer NewTCPTransport ls t ->
  Forall (fun rpc =>
            (exists i peer ph, t_conns t !! i = Some (peer, ph) /\
                               From rpc = RemoteAddr (conn peer)) /\
            (length (Payload rpc) <= 1028)%nat)
         (t_rpcch t).
Proof.
  intros Hrun.
  assert (Hinv : stamped_inv NewTCPTransport) by (split; constructor).
  destruct (trun_stamped hs onpeer _ _ _ Hrun Hinv) as [Hq _].
  eapply Forall_impl; [exact Hq|]. cbn beta.
  intros rpc (addr & Hin & Hfrom & Hlen).
  split; [|now rewrite <- frame_cap_value].
  unfold conn_addrs in Hin. apply in_map_iff in Hin as ([peer ph] & Ha & Hin).
  apply list_elem_of_In, list_elem_of_lookup in Hin as [i Hi].
  exists i, peer, ph. split; [exact Hi|]. cbn [fst] in Ha. congruence.
Qed.

Lemma queued_rpcs_are_stamped_witness :
  Forall (fun rpc =>
            (exists i peer ph, t_conns message_run_end !! i = Some (peer, ph) /\
                               From rpc = RemoteAddr (conn peer)) /\
            (length (Payload rpc) <= 1028)%nat)
         (t_rpcch message_run_end).
Proof.
  refine (queued_rpcs_are_stamped NOPHandshakeFunc None message_run message_run_end _).
  unfold message_run, message_run_end.
  eapply trun_cons; [apply tstep_new|].
  eapply trun_cons.
  { eapply tstep_conn; [reflexivity|]. apply step_loop, step_handshake. }
  eapply trun_cons.
  { eapply tstep_conn; [reflexivity|]. apply step_loop, step_decode.
    vm_compute. reflexivity. }
  eapply trun_cons.
  { eapply tstep_conn; [reflexivity|]. apply step_loop, step_enqueue.
    vm_compute. lia. }
  apply trun_nil.
Defined.

Lemma DefaultDecoder_Decode_second_error {R} `{Reader R}
    (dec : DefaultDecoder) (r r1 r2 : R) (msg : RPC) (tag : byte) bs e :
  Read r 1 = Some ([tag], None, r1) ->
  tag <> IncomingStream ->
  Read r1 frame_cap = Some (bs, Some e, r2) ->
  Decode dec r msg = Some (Some e, msg, r2).
Proof.
  intros H1 Htag H2. rewrite (DefaultDecoder_Decode_reads dec r r1 msg tag H1).
  rewrite (byte_eqb_neq _ _ Htag). now rewrite H2.
Qed.

(** The error of the second read of [Decode] (the payload) is returned,
    unlike the error of the first.  So when a connection fails right
    after a tag byte that is not the stream tag, the read loop has one
    way to go: [handleConn] returns with that error and the connection is
    dropped, nothing being sent on the queue; and a loop that has
    returned takes no further step. *)
Theorem Decode_payload_read_error_drops_connection
    (hs : TCPPeer -> option error) (onpeer : option (TCPPeer -> option error))
    (peer : TCPPeer) (q : list RPC) (tag : byte) (e : error) :
  c_in (conn peer) = [tag] ->
  tag <> IncomingStream ->
  c_in_err (conn peer) = Some e ->
  (forall (R : Type) (HR : Reader R) (r r1 r2 : R) (msg : RPC) bs e',
      Read r 1 = Some ([tag], None, r1) ->
      Read r1 frame_cap = Some (bs, Some e', r2) ->
      Decode mkDefaultDecoder r msg = Some (Some e', msg, r2)) /\
  (forall l s',
      loop_step mkDefaultDecoder hs onpeer (mkConnState peer Decoding q) l s' ->
      l = LDecode /\
      s' = mkConnState (with_conn peer (set_c_in (conn peer) []))
                       (Dropped (Some e)) q) /\
  (forall peer' err l s',
      ~ loop_step mkDefaultDecoder hs onpeer (mkConnState peer' (Dropped err) q) l s').
Proof.
  intros Hin Htag Herr.
  split; [|split].
  - intros R HR r r1 r2 msg bs e' H1 H2.
    exact (DefaultDecoder_Decode_second_error _ _ _ _ _ _ _ _ H1 Htag H2).
  - intros l s' Hl.
    assert (Hdec : Decode mkDefaultDecoder (conn peer) RPC_zero
                   = Some (Some e, RPC_zero, set_c_in (conn peer) [])).
    { apply (DefaultDecoder_Decode_second_error _ _ (set_c_in (conn peer) []) _ _ tag []);
        [|exact Htag|].
      - rewrite (Conn_Read_data _ _ _ _ Hin). reflexivity.
      - apply Conn_Read_error; [apply c_in_set_c_in | exact Herr | apply frame_cap_pos]. }
    inversion Hl; subst.
    match goal with Hd : decode_step _ _ = Some _ |- _ =>
      unfold decode_step in Hd; rewrite Hdec in Hd; injection Hd as <- <- end.
    now split.
  - intros peer' err l s' Hl. inversion Hl.
Qed.

Lemma Decode_payload_read_error_drops_connection_witness :
  let peer := mkTCPPeer (mkConn "10.0.0.2:4000" [IncomingMessage] (Some EOF) [] None)
                        false 0 in
  (forall (R : Type) (HR : Reader R) (r r1 r2 : R) (msg : RPC) bs e',
      Read r 1 = Some ([IncomingMessage], None, r1) ->
      Read r1 frame_cap = Some (bs, Some e', r2) ->
      Decode mkDefaultDecoder r msg = Some (Some e', msg, r2)) /\
  (forall l s',
      loop_step mkDefaultDecoder NOPHandshakeFunc None (mkConnState peer Decoding []) l s' ->
      l = LDecode /\
      s' = mkConnState (with_conn peer (set_c_in (conn peer) []))
                       (Dropped (Some EOF)) []) /\
  (forall peer' err l s',
      ~ loop_step mkDefaultDecoder NOPHandshakeFunc None
          (mkConnState peer' (Dropped err) []) l s').
Proof.
  intros peer.
  refine (Decode_payload_read_error_drops_connection NOPHandshakeFunc None peer []
            IncomingMessage EOF _ _ _).
  - reflexivity.
  - discriminate.
  - reflexivity.
Defined.

(** ** Writers that take everything, as long as they are in order *)

Section GoodWriter.

Context {W : Type} `{Writer W}.
Variable good : W -> Prop.
Hypothesis good_Write : forall w p, good w -> Write w p = (len p, None, wrote w p).
Hypothesis good_wrote : forall w p, good w -> good (wrote w p).
Hypothesis good_app : forall w a b, good w -> wrote (wrote w a) b = wrote w (a ++ b).
Hypothesis good_nil : forall w, good w -> wrote w [] = w.

Lemma copyStream_loop_drains_good {R} `{Reader R} (src : R) data src' :
  drains src data src' ->
  forall fuel stream nw (dst : W),
    good dst ->
    (length data < fuel)%nat ->
    copyStream_loop fuel stream nw src dst
    = Done (nw + len data, None, src', wrote dst (XORKeyStream stream data).1).
Proof.
  induction 1 as [r r' Hr | r bs r1 rest r' Hr Hbs Hd IH];
    intros [|f] stream nw dst Hg Hf; try (exfalso; lia).
  - cbn [copyStream_loop]. rewrite Hr. cbn.
    rewrite good_nil by exact Hg. unfold len. cbn. now rewrite Z.add_0_r.
  - cbn [copyStream_loop]. rewrite Hr, (nonempty_length _ Hbs).
    rewrite XORKeyStream_app.
    destruct (XORKeyStream stream bs) as [out stream'] eqn:Hx.
    rewrite good_Write by exact Hg. cbn [fst snd].
    assert (Hlen : length out = length bs).
    { pose proof (XORKeyStream_length stream bs) as Hl. now rewrite Hx in Hl. }
    rewrite IH.
    + rewrite good_app by exact Hg. rewrite len_app. unfold len. rewrite Hlen.
      now rewrite Z.add_assoc.
    + now apply good_wrote.
    + rewrite length_app in Hf.
      assert (0 < length bs)%nat by (destruct bs; [congruence | cbn [length]; lia]).
      lia.
Qed.

Lemma Copy_loop_drains_good {R} `{Reader R} (src : R) data src' :
  drains src data src' ->
  forall fuel (dst : W) written,
    good dst ->
    (length data < fuel)%nat ->
    Copy_loop fuel dst src written
    = Done (written + len data, None, wrote dst data, src').
Proof.
  induction 1 as [r r' Hr | r bs r1 rest r' Hr Hbs Hd IH];
    intros [|f] dst written Hg Hf; try (exfalso; lia).
  - cbn [Copy_loop]. rewrite Hr. cbn.
    rewrite good_nil by exact Hg. unfold len. cbn. now rewrite Z.add_0_r.
  - cbn [Copy_loop]. rewrite Hr, (nonempty_length _ Hbs).
    rewrite good_Write by exact Hg. rewrite Z.eqb_refl.
    rewrite IH.
    + rewrite good_app by exact Hg. now rewrite len_app, Z.add_assoc.
    + now apply good_wrote.
    + rewrite length_app in Hf.
      assert (0 < length bs)%nat by (destruct bs; [congruence | cbn [length]; lia]).
      lia.
Qed.

End GoodWriter.

Lemma healthy_Write (p : TCPPeer) b :
  healthy p -> Write p b = (len b, None, sent p b).
Proof.
  unfold healthy. intros Hp.
  unfold Write at 1, TCPPeer_Writer. unfold Write, Conn_Writer. rewrite Hp.
  unfold sent, with_conn. now rewrite Hp.
Qed.

Lemma healthy_wrote (p : TCPPeer) b : healthy p -> wrote p b = sent p b.
Proof. intros Hp. unfold wrote. now rewrite healthy_Write. Qed.

Lemma healthy_sent (p : TCPPeer) b : healthy p -> healthy (sent p b).
Proof. unfold healthy, sent. now cbn. Qed.

Lemma sent_app (p : TCPPeer) a b : sent (sent p a) b = sent p (a ++ b).
Proof. unfold sent. cbn. now rewrite app_assoc. Qed.

Lemma sent_nil (p : TCPPeer) : sent p [] = p.
Proof. destruct p as [[a i ie o oe] ob w]. unfold sent. cbn. now rewrite app_nil_r. Qed.

Lemma healthy_Send (p : TCPPeer) b : healthy p -> Send p b = (None, sent p b).
Proof. intros Hp. unfold Send. now rewrite healthy_Write. Qed.

Lemma healthy_good_Write (w : TCPPeer) b :
  healthy w -> Write w b = (len b, None, wrote w b).
Proof. intros Hw. now rewrite healthy_Write, healthy_wrote. Qed.

Lemma healthy_good_wrote (w : TCPPeer) b : healthy w -> healthy (wrote w b).
Proof. intros Hw. rewrite healthy_wrote by exact Hw. now apply healthy_sent. Qed.

Lemma healthy_good_app (w : TCPPeer) a b :
  healthy w -> wrote (wrote w a) b = wrote w (a ++ b).
Proof.
  intros Hw. rewrite (healthy_wrote w a Hw).
  rewrite (healthy_wrote (sent w a) b (healthy_sent _ _ Hw)).
  rewrite (healthy_wrote w (a ++ b) Hw). apply sent_app.
Qed.

Lemma healthy_good_nil (w : TCPPeer) : healthy w -> wrote w [] = w.
Proof. intros Hw. rewrite healthy_wrote by exact Hw. apply sent_nil. Qed.

Lemma peer_copyStream_drains {R} `{Reader R} (src : R) data src' fuel stream nw
    (p : TCPPeer) :
  drains src data src' -> healthy p -> (length data < fuel)%nat ->
  copyStream_loop fuel stream nw src p
  = Done (nw + len data, None, src', sent p (XORKeyStream stream data).1).
Proof.
  intros Hd Hp Hf.
  rewrite (copyStream_loop_drains_good healthy healthy_good_Write healthy_good_wrote
             healthy_good_app healthy_good_nil src data src' Hd fuel stream nw p Hp Hf).
  now rewrite healthy_wrote.
Qed.

Lemma peer_Copy_drains {R} `{Reader R} (src : R) data src' fuel written (p : TCPPeer) :
  drains src data src' -> healthy p -> (length data < fuel)%nat ->
  Copy_loop fuel p src written
  = Done (written + len data, None, sent p data, src').
Proof.
  intros Hd Hp Hf.
  rewrite (Copy_loop_drains_good healthy healthy_good_Write healthy_good_wrote
             healthy_good_app healthy_good_nil src data src' Hd fuel p written Hp Hf).
  now rewrite healthy_wrote.
Qed.

(** The fan-out writer over peers that are all in order. *)
Lemma multi_write_healthy (ws : list TCPPeer) b :
  Forall healthy ws ->
  multi_write ws b = (len b, None, map (fun w => sent w b) ws).
Proof.
  induction 1 as [|w ws Hw Hws IH]; [reflexivity|].
  cbn [multi_write map]. rewrite healthy_Write by exact Hw.
  rewrite Z.eqb_refl, IH. reflexivity.
Qed.

Lemma multi_wrote_healthy (ws : list TCPPeer) b :
  Forall healthy ws ->
  Write (mkMulti ws) b = (len b, None, mkMulti (map (fun w => sent w b) ws)).
Proof.
  intros Hws. unfold Write, Multi_Writer. cbn [writers].
  now rewrite multi_write_healthy.
Qed.

Lemma Forall_healthy_sent (ws : list TCPPeer) b :
  Forall healthy ws -> Forall healthy (map (fun w => sent w b) ws).
Proof.
  intros Hws. apply Forall_map. eapply Forall_impl; [exact Hws|].
  intros w Hw. now apply healthy_sent.
Qed.

Lemma multi_good_Write (m : MultiWriter TCPPeer) b :
  all_healthy m -> Write m b = (len b, None, wrote m b).
Proof.
  destruct m as [w]. unfold all_healthy, wrote. cbn [writers]. intros Hw.
  now rewrite multi_wrote_healthy.
Qed.

Lemma multi_good_wrote (m : MultiWriter TCPPeer) b :
  all_healthy m -> all_healthy (wrote m b).
Proof.
  destruct m as [w]. unfold all_healthy, wrote. cbn [writers]. intros Hw.
  rewrite multi_wrote_healthy by exact Hw. cbn [snd writers].
  now apply Forall_healthy_sent.
Qed.

Lemma multi_good_app (m : MultiWriter TCPPeer) a b :
  all_healthy m -> wrote (wrote m a) b = wrote m (a ++ b).
Proof.
  destruct m as [w]. unfold all_healthy, wrote. cbn [writers]. intros Hw.
  rewrite multi_wrote_healthy by exact Hw. cbn [snd].
  rewrite multi_wrote_healthy by now apply Forall_healthy_sent.
  rewrite multi_wrote_healthy by exact Hw. cbn [snd]. f_equal.
  rewrite map_map. apply map_ext. intros p. apply sent_app.
Qed.

Lemma multi_good_nil (m : MultiWriter TCPPeer) : all_healthy m -> wrote m [] = m.
Proof.
  destruct m as [w]. unfold all_healthy, wrote. cbn [writers]. intros Hw.
  rewrite multi_wrote_healthy by exact Hw. cbn [snd]. f_equal.
  rewrite <- (map_id w) at 2. apply map_ext. intros p. apply sent_nil.
Qed.

Lemma multi_copyStream_drains {R} `{Reader R} (src : R) data src' fuel stream nw
    (ws : list TCPPeer) :
  drains src data src' -> Forall healthy ws -> (length data < fuel)%nat ->
  copyStream_loop fuel stream nw src (mkMulti ws)
  = Done (nw + len data, None, src',
          mkMulti (map (fun w => sent w (XORKeyStream stream data).1) ws)).
Proof.
  intros Hd Hws Hf.
  rewrite (copyStream_loop_drains_good all_healthy multi_good_Write multi_good_wrote
             multi_good_app multi_good_nil src data src' Hd fuel stream nw
             (mkMulti ws) Hws Hf).
  unfold wrote. now rewrite multi_wrote_healthy.
Qed.

(** ** The node: broadcast, store, serve, fetch *)

Lemma set_peers_set_peers s m m' : set_peers (set_peers s m) m' = set_peers s m'.
Proof. reflexivity. Qed.

Lemma peer_addrs_NoDup s : NoDup (peer_addrs s).
Proof. unfold peer_addrs. apply (NoDup_fst_map_to_list (peers s)). Qed.

Lemma peer_addrs_elem s a : a ∈ peer_addrs s <-> is_Some (peers s !! a).
Proof.
  unfold peer_addrs. change (map fst ?l) with (fst <$> l).
  rewrite list_elem_of_fmap. split.
  - intros ([a' p] & -> & Hin). apply elem_of_map_to_list in Hin. now exists p.
  - intros [p Hp]. exists (a, p). split; [reflexivity|]. now apply elem_of_map_to_list.
Qed.

Section NodeProps.

Variable gob_encode : Message -> error + list byte.
Variable gob_decode : list byte -> error + Message.

Lemma broadcast_loop_healthy buf : forall addrs s,
  NoDup addrs ->
  (forall a p, peers s !! a = Some p -> healthy p) ->
  exists m',
    broadcast_loop s addrs buf = (None, set_peers s m') /\
    forall a, m' !! a
              = if bool_decide (a ∈ addrs)
                then (fun p => sent p ([IncomingMessage] ++ buf)) <$> peers s !! a
                else peers s !! a.
Proof.
  induction addrs as [|a rest IH]; intros s Hnd Hh.
  - exists (peers s). split; [now destruct s|]. intros a. reflexivity.
  - apply NoDup_cons in Hnd as [Ha Hrest]. cbn [broadcast_loop].
    destruct (peers s !! a) as [peer|] eqn:Hp.
    + pose proof (Hh _ _ Hp) as Hpeer.
      rewrite (healthy_Send _ _ Hpeer).
      rewrite (healthy_Send _ _ (healthy_sent _ [IncomingMessage] Hpeer)).
      rewrite sent_app.
      set (p2 := sent peer ([IncomingMessage] ++ buf)).
      destruct (IH (set_peers s (<[a := p2]> (peers s))) Hrest) as (m' & Hb & Hm').
      { intros b p. cbn [peers set_peers].
        destruct (decide (a = b)) as [<-|Hab].
        - rewrite lookup_insert_eq. intros Hq. injection Hq as <-.
          now apply healthy_sent.
        - rewrite lookup_insert_ne by exact Hab. apply Hh. }
      exists m'. rewrite Hb. split; [reflexivity|].
      intros b. rewrite Hm'. cbn [peers set_peers].
      destruct (decide (a = b)) as [<-|Hab].
      * rewrite bool_decide_eq_false_2 by exact Ha.
        rewrite bool_decide_eq_true_2 by apply list_elem_of_here.
        now rewrite lookup_insert_eq, Hp.
      * rewrite lookup_insert_ne by exact Hab.
        destruct (bool_decide_reflect (b ∈ rest)) as [Hin|Hnin].
        -- rewrite bool_decide_eq_true_2; [reflexivity|]. now apply list_elem_of_further.
        -- rewrite bool_decide_eq_false_2; [reflexivity|].
           intros Hin. apply elem_of_cons in Hin as [->|Hin]; congruence.
    + destruct (IH s Hrest Hh) as (m' & Hb & Hm').
      exists m'. split; [exact Hb|].
      intros b. rewrite Hm'.
      destruct (decide (a = b)) as [<-|Hab].
      * rewrite bool_decide_eq_false_2 by exact Ha.
        rewrite bool_decide_eq_true_2 by apply list_elem_of_here.
        now rewrite Hp.
      * destruct (bool_decide_reflect (b ∈ rest)) as [Hin|Hnin].
        -- rewrite bool_decide_eq_true_2; [reflexivity|]. now apply list_elem_of_further.
        -- rewrite bool_decide_eq_false_2; [reflexivity|].
           intros Hin. apply elem_of_cons in Hin as [->|Hin]; congruence.
Qed.

Lemma broadcast_healthy s msg buf :
  gob_encode msg = inr buf ->
  (forall a p, peers s !! a = Some p -> healthy p) ->
  broadcast gob_encode s msg
  = (None, set_peers s ((fun p => sent p ([IncomingMessage] ++ buf)) <$> peers s)).
Proof.
  intros Henc Hh. unfold broadcast. rewrite Henc.
  destruct (broadcast_loop_healthy buf (peer_addrs s) s (peer_addrs_NoDup s) Hh)
    as (m' & -> & Hm').
  do 2 f_equal. apply map_eq. intros a. rewrite Hm', lookup_fmap.
  destruct (bool_decide_reflect (a ∈ peer_addrs s)) as [Hin|Hnin]; [reflexivity|].
  destruct (peers s !! a) as [p|] eqn:Hp; [|reflexivity].
  exfalso. apply Hnin. apply peer_addrs_elem. now exists p.
Qed.

(** [broadcast]: when the message cannot be encoded nothing is sent and
    the encoder's error is returned; when every peer's connection takes
    writes, every peer is sent the message tag followed by the encoded
    message, once, whatever the order of the map, and nothing else of the
    node changes. *)
Theorem broadcast_reaches_every_peer (s : FileServer) (msg : Message) :
  (forall err, gob_encode msg = inl err ->
     broadcast gob_encode s msg = (Some err, s)) /\
  (forall buf, gob_encode msg = inr buf ->
     (forall a p, peers s !! a = Some p -> healthy p) ->
     exists s',
       broadcast gob_encode s msg = (None, s') /\
       (forall a, peers s' !! a
                  = (fun p => sent p (IncomingMessage :: buf)) <$> peers s !! a) /\
       (ID s', EncKey s', Addr s', store s', disk s', entropy s')
       = (ID s, EncKey s, Addr s, store s, disk s, entropy s)).
Proof.
  split.
  - intros err Henc. unfold broadcast. now rewrite Henc.
  - intros buf Henc Hh. eexists. split; [exact (broadcast_healthy s msg buf Henc Hh)|].
    split; [|reflexivity]. intros a. cbn [peers set_peers]. now rewrite lookup_fmap.
Qed.

End NodeProps.

Lemma Tee_drains {R} `{Reader R} (r : R) data r' :
  drains r data r' ->
  forall pre, drains (mkTee r (mkBuffer pre)) data (mkTee r' (mkBuffer (pre ++ data))).
Proof.
  induction 1 as [r r' Hr | r bs r1 rest r' Hr Hbs Hd IH]; intros pre.
  - rewrite app_nil_r. apply drains_eof.
    unfold Read at 1, Tee_Reader. cbn [tee_r tee_w]. rewrite Hr. reflexivity.
  - eapply drains_chunk; [|exact Hbs|].
    + unfold Read at 1, Tee_Reader. cbn [tee_r tee_w]. rewrite Hr.
      rewrite (nonempty_length _ Hbs). reflexivity.
    + rewrite app_assoc. apply IH.
Qed.

Lemma put_peers_spec (h : TCPPeer -> TCPPeer) : forall L m b,
  NoDup (map fst L) ->
  (forall p, In (b, p) L ->
     put_peers m (map fst L) (map h (map snd L)) !! b = Some (h p)) /\
  (~ In b (map fst L) ->
     put_peers m (map fst L) (map h (map snd L)) !! b = m !! b).
Proof.
  induction L as [|[a p] L IH]; intros m b Hnd.
  - split; [intros p []|]. reflexivity.
  - cbn [map fst snd put_peers] in *.
    apply NoDup_cons in Hnd as [Ha Hrest].
    destruct (IH (<[a := h p]> m) b Hrest) as [IH1 IH2].
    split.
    + intros q [Heq | Hin].
      * injection Heq as -> ->. rewrite IH2.
        -- apply lookup_insert_eq.
        -- intros Hin. apply Ha. now apply list_elem_of_In.
      * now apply IH1.
    + intros Hnot. rewrite IH2.
      * apply lookup_insert_ne. intros ->. apply Hnot. now left.
      * intros Hin. apply Hnot. now right.
Qed.

Lemma put_peers_fmap (h : TCPPeer -> TCPPeer) (m : gmap string TCPPeer) :
  put_peers m (map fst (map_to_list m)) (map h (map snd (map_to_list m))) = h <$> m.
Proof.
  apply map_eq. intros b. rewrite lookup_fmap.
  destruct (put_peers_spec h (map_to_list m) m b (NoDup_fst_map_to_list m)) as [H1 H2].
  destruct (m !! b) as [p|] eqn:Hb.
  - apply H1. apply list_elem_of_In. now apply elem_of_map_to_list.
  - rewrite H2; [reflexivity|].
    intros Hin. apply in_map_iff in Hin as ([b' p] & Hb' & Hin). cbn [fst] in Hb'.
    subst b'. apply list_elem_of_In, elem_of_map_to_list in Hin. congruence.
Qed.

Lemma map_to_list_healthy (m : gmap string TCPPeer) :
  (forall a p, m !! a = Some p -> healthy p) ->
  Forall healthy (map snd (map_to_list m)).
Proof.
  intros Hh. apply Forall_forall. intros p Hin.
  apply list_elem_of_In, in_map_iff in Hin as ([a p'] & Hp & Hin). cbn [snd] in Hp.
  subst p'. apply list_elem_of_In, elem_of_map_to_list in Hin. exact (Hh _ _ Hin).
Qed.

(** What [copyDecrypt] makes of an IV followed by a payload under the key
    stream of that IV. *)
Lemma copyDecrypt_stream fuel key block iv data pre :
  aes_NewCipher key = inr block ->
  length iv = 16%nat ->
  (length data < fuel)%nat ->
  copyDecrypt fuel key
    (mkBuffer (iv ++ (XORKeyStream (NewCTR block iv) data).1)) (mkBuffer pre)
  = Done (len data + 16, None, mkBuffer [], mkBuffer (pre ++ data)).
Proof.
  intros Hb Hiv Hf.
  set (x := (XORKeyStream (NewCTR block iv) data).1).
  assert (Hx : length x = length data) by apply XORKeyStream_length.
  unfold copyDecrypt. rewrite Hb.
  rewrite Buffer_Read_data by (destruct iv; [discriminate Hiv | discriminate]).
  change Aes.BlockSize with 16%nat.
  rewrite take_app_length' by (symmetry; exact Hiv).
  rewrite drop_app_length' by (symmetry; exact Hiv).
  rewrite Hiv. cbn [Nat.sub repeat]. rewrite app_nil_r.
  rewrite copyStream_Buffer by (rewrite Hx; exact Hf).
  unfold len. rewrite Hx.
  unfold x. rewrite XORKeyStream_involutive.
  do 4 f_equal. lia.
Qed.

Section StoreProps.

Variable gob_encode : Message -> error + list byte.

(** [FileServer.Store] up to the call of [copyEncrypt], on a node whose
    peers all take writes. *)
Lemma Store_until_encrypt fuel s key data fs' f buf :
  (length data < fuel)%nat ->
  openFileForWriting (store s) (disk s) (ID s) key = (fs', inr f) ->
  gob_encode (mkMessage (Some (MessageStoreFile (ID s) (hashKey key) (len data + 16))))
  = inr buf ->
  (forall a p, peers s !! a = Some p -> healthy p) ->
  let fs1 := wf_fs (wrote f data) in
  let m1 := (fun p => sent p (IncomingMessage :: buf)) <$> peers s in
  let ws := map snd (map_to_list m1) in
  Forall healthy ws /\
  FileServer_Store gob_encode fuel s key (mkBuffer data)
  = let* (n, err, src', mw2, rnd') :=
      copyEncrypt fuel (entropy s) (EncKey s) (mkBuffer data)
                  (mkMulti (map (fun w => sent w [IncomingStream]) ws)) in
    Done (err,
          set_entropy
            (set_peers (set_disk s fs1)
               (put_peers m1 (map fst (map_to_list m1)) (writers mw2))) rnd',
          mkBuffer []).
Proof.
  intros Hf Ho Henc Hh fs1 m1 ws.
  assert (Hm1 : forall a p, m1 !! a = Some p -> healthy p).
  { intros a p. unfold m1. rewrite lookup_fmap.
    destruct (peers s !! a) as [p0|] eqn:Hp0; [|discriminate].
    intros Hp. injection Hp as <-. apply healthy_sent. exact (Hh _ _ Hp0). }
  pose proof (map_to_list_healthy m1 Hm1) as Hws. fold ws in Hws.
  split; [exact Hws|].
  unfold FileServer_Store.
  rewrite (Store_Write_drains fuel (store s) (disk s) (ID s) key _ _ data fs' f Ho
             (Tee_drains _ _ _ (Buffer_drains data) []) Hf).
  cbn [obind app tee_r tee_w]. fold fs1.
  rewrite (broadcast_healthy gob_encode (set_disk s fs1) _ buf Henc Hh).
  cbn [peers set_peers set_disk entropy EncKey].
  change ([IncomingMessage] ++ buf) with (IncomingMessage :: buf). fold m1. fold ws.
  rewrite (multi_wrote_healthy ws [IncomingStream] Hws).
  reflexivity.
Qed.

(** The node after [FileServer.Store], in full. *)
Lemma Store_explicit fuel s key data fs' f buf block :
  (length data < fuel)%nat ->
  openFileForWriting (store s) (disk s) (ID s) key = (fs', inr f) ->
  gob_encode (mkMessage (Some (MessageStoreFile (ID s) (hashKey key) (len data + 16))))
  = inr buf ->
  (forall a p, peers s !! a = Some p -> healthy p) ->
  aes_NewCipher (EncKey s) = inr block ->
  let iv := map (rand_at (entropy s)) (seq (rand_pos (entropy s)) 16) in
  let ct := (XORKeyStream (NewCTR block iv) data).1 in
  FileServer_Store gob_encode fuel s key (mkBuffer data)
  = Done (None,
          set_entropy
            (set_peers (set_disk s (wf_fs (wrote f data)))
               ((fun p => sent p (IncomingMessage :: buf ++ IncomingStream :: iv ++ ct))
                  <$> peers s))
            (mkRand (rand_at (entropy s)) (rand_pos (entropy s) + 16)),
          mkBuffer []).
Proof.
  intros Hf Ho Henc Hh Hb iv ct.
  destruct (Store_until_encrypt fuel s key data fs' f buf Hf Ho Henc Hh) as [Hws Hstore].
  cbv zeta in Hws, Hstore.
  set (fs1 := wf_fs (wrote f data)) in *.
  set (m1 := (fun p => sent p (IncomingMessage :: buf)) <$> peers s) in *.
  set (ws := map snd (map_to_list m1)) in *.
  set (h := fun w : TCPPeer => sent (sent (sent w [IncomingStream]) iv) ct).
  rewrite Hstore.
  unfold copyEncrypt. rewrite Hb.
  rewrite ReadFull_rand by (unfold Aes.BlockSize; lia).
  cbn [obind]. change Aes.BlockSize with 16%nat. fold iv.
  rewrite (multi_wrote_healthy _ iv (Forall_healthy_sent ws _ Hws)).
  unfold copyStream.
  rewrite (multi_copyStream_drains (mkBuffer data) data (mkBuffer []) fuel _ _ _
             (Buffer_drains data)
             (Forall_healthy_sent _ _ (Forall_healthy_sent ws _ Hws)) Hf).
  cbn [obind writers]. fold ct.
  rewrite !map_map. fold h.
  unfold ws. rewrite put_peers_fmap.
  do 3 f_equal. unfold set_entropy, set_peers. cbn [peers]. f_equal.
  unfold m1. rewrite <- map_fmap_compose. apply map_fmap_ext.
  intros a p _. cbn [compose]. unfold h. rewrite !sent_app.
  f_equal; cbn [app]; rewrite <- ?app_assoc; reflexivity.
Qed.

(** [FileServer.Store] on a node whose peers all take writes: the file is
    kept locally as it is (not encrypted), and every peer is sent the
    StoreFile message (with the key hashed and the size raised by 16),
    the stream tag, and the file encrypted under the node's key, IV
    first. *)
Theorem Store_replicates_to_every_peer
    (fuel : nat) (s : FileServer) (key : string) (data : list byte)
    (fs' : FS) (f : WFile) (buf : list byte) :
  (length data < fuel)%nat ->
  openFileForWriting (store s) (disk s) (ID s) key = (fs', inr f) ->
  gob_encode (mkMessage (Some (MessageStoreFile (ID s) (hashKey key) (len data + 16))))
  = inr buf ->
  (forall a p, peers s !! a = Some p -> healthy p) ->
  (length (EncKey s) = 16 \/ length (EncKey s) = 24 \/ length (EncKey s) = 32)%nat ->
  exists s' stream,
    FileServer_Store gob_encode fuel s key (mkBuffer data)
    = Done (None, s', mkBuffer []) /\
    Store_Read (store s') (disk s') (ID s') key
    = (len data, Some (mkRFile (File data) 0), None) /\
    (forall a, peers s' !! a
               = (fun p => sent p (IncomingMessage :: buf ++ IncomingStream :: stream))
                   <$> peers s !! a) /\
    len stream = len data + 16 /\
    copyDecrypt fuel (EncKey s) (mkBuffer stream) (mkBuffer [])
    = Done (len data + 16, None, mkBuffer [], mkBuffer data).
Proof.
  intros Hf Ho Henc Hh Hk.
  destruct (aes_NewCipher_ok _ Hk) as [block Hb].
  set (iv := map (rand_at (entropy s)) (seq (rand_pos (entropy s)) 16)).
  assert (Hiv : length iv = 16%nat) by (unfold iv; now rewrite length_map, length_seq).
  set (ct := (XORKeyStream (NewCTR block iv) data).1).
  assert (Hct : length ct = length data) by apply XORKeyStream_length.
  eexists. exists (iv ++ ct).
  split; [exact (Store_explicit fuel s key data fs' f buf block Hf Ho Henc Hh Hb)|].
  cbn [store disk ID peers set_entropy set_peers set_disk].
  split; [exact (written_file_read _ _ _ _ _ _ data Ho)|].
  split; [intros a; now rewrite lookup_fmap|].
  split.
  - rewrite len_app. unfold len. rewrite Hiv, Hct. lia.
  - exact (copyDecrypt_stream fuel (EncKey s) block iv data [] Hb Hiv Hf).
Qed.

(** [FileServer.Store] with a key that [aes.NewCipher] refuses: the error
    comes only after the file has been written locally and the StoreFile
    message and the stream tag have gone out to every peer; no stream
    follows. *)
Theorem Store_with_bad_key_announces_then_fails
    (fuel : nat) (s : FileServer) (key : string) (data : list byte)
    (fs' : FS) (f : WFile) (buf : list byte) :
  (length data < fuel)%nat ->
  openFileForWriting (store s) (disk s) (ID s) key = (fs', inr f) ->
  gob_encode (mkMessage (Some (MessageStoreFile (ID s) (hashKey key) (len data + 16))))
  = inr buf ->
  (forall a p, peers s !! a = Some p -> healthy p) ->
  length (EncKey s) <> 16%nat -> length (EncKey s) <> 24%nat ->
  length (EncKey s) <> 32%nat ->
  exists s',
    FileServer_Store gob_encode fuel s key (mkBuffer data)
    = Done (Some (KeySizeError (length (EncKey s))), s', mkBuffer []) /\
    Store_Read (store s') (disk s') (ID s') key
    = (len data, Some (mkRFile (File data) 0), None) /\
    (forall a, peers s' !! a
               = (fun p => sent p (IncomingMessage :: buf ++ [IncomingStream]))
                   <$> peers s !! a).
Proof.
  intros Hf Ho Henc Hh H16 H24 H32.
  destruct (Store_until_encrypt fuel s key data fs' f buf Hf Ho Henc Hh) as [Hws Hstore].
  cbv zeta in Hws, Hstore.
  set (fs1 := wf_fs (wrote f data)) in *.
  set (m1 := (fun p => sent p (IncomingMessage :: buf)) <$> peers s) in *.
  set (ws := map snd (map_to_list m1)) in *.
  assert (Hk : aes_NewCipher (EncKey s) = inl (KeySizeError (length (EncKey s)))).
  { unfold aes_NewCipher.
    destruct (Nat.eqb_spec (length (EncKey s)) 16); [contradiction|].
    destruct (Nat.eqb_spec (length (EncKey s)) 24); [contradiction|].
    destruct (Nat.eqb_spec (length (EncKey s)) 32); [contradiction|].
    reflexivity. }
  exists (set_entropy (set_peers (set_disk s fs1)
                         ((fun w => sent w [IncomingStream]) <$> m1)) (entropy s)).
  split; [|split].
  - rewrite Hstore. unfold copyEncrypt. rewrite Hk. cbn [obind writers].
    unfold ws. rewrite put_peers_fmap. reflexivity.
  - cbn [store disk set_entropy set_peers set_disk ID]. unfold fs1.
    exact (written_file_read _ _ _ _ _ _ data Ho).
  - intros a. cbn [peers set_entropy set_peers]. unfold m1.
    rewrite !lookup_fmap. destruct (peers s !! a) as [p|]; [|reflexivity].
    cbn [fmap option_fmap option_map]. f_equal. rewrite !sent_app.
    f_equal; cbn [app]; rewrite <- ?app_assoc; reflexivity.
Qed.

End StoreProps.

Section HandlerProps.

Variable gob_encode : Message -> error + list byte.
Variable gob_decode : list byte -> error + Message.

Lemma handleMessageGetFile_ok fuel s from id key data peer :
  Store_Read (store s) (disk s) id key
  = (len data, Some (mkRFile (File data) 0), None) ->
  peers s !! from = Some peer -> healthy peer ->
  (length data < fuel)%nat ->
  handleMessageGetFile fuel s from id key
  = Done (None,
          set_peers s (<[from := sent peer (IncomingStream :: le_bytes8 (len data)
                                              ++ data)]> (peers s))).
Proof.
  intros Hr Hp Hpeer Hf. unfold handleMessageGetFile.
  rewrite (Has_true_of_Read _ _ _ _ _ _ Hr), Hr, Hp. cbn [negb].
  rewrite (healthy_Send _ _ Hpeer).
  rewrite (healthy_Write _ _ (healthy_sent _ [IncomingStream] Hpeer)).
  destruct (RFile_drains data) as [r' Hd].
  unfold Copy.
  rewrite (peer_Copy_drains _ _ _ fuel 0 _ Hd
             (healthy_sent _ _ (healthy_sent _ [IncomingStream] Hpeer)) Hf).
  cbn [obind]. rewrite !sent_app. reflexivity.
Qed.

(** [handleMessageGetFile]: for a key that is not on the disk it returns
    an error and sends nothing; for a peer that is not in the map it
    returns an error and sends nothing; otherwise, to a peer that takes
    writes, it sends the stream tag, the size as eight little-endian
    bytes and the bytes of the file as they are on the disk. *)
Theorem handleMessageGetFile_outcomes
    (fuel : nat) (s : FileServer) (from id key : string) :
  (Has (store s) (disk s) id key = false ->
   handleMessageGetFile fuel s from id key
   = Done (Some (Errorf "need to serve file but it does not exist on disk"), s)) /\
  (forall sz rf,
     Store_Read (store s) (disk s) id key = (sz, Some rf, None) ->
     peers s !! from = None ->
     handleMessageGetFile fuel s from id key
     = Done (Some (Errorf "peer not in map"), s)) /\
  (forall data peer,
     Store_Read (store s) (disk s) id key
     = (len data, Some (mkRFile (File data) 0), None) ->
     peers s !! from = Some peer -> healthy peer ->
     (length data < fuel)%nat ->
     handleMessageGetFile fuel s from id key
     = Done (None,
             set_peers s (<[from := sent peer (IncomingStream :: le_bytes8 (len data)
                                                 ++ data)]> (peers s)))).
Proof.
  split; [|split].
  - intros Hh. unfold handleMessageGetFile. now rewrite Hh.
  - intros sz rf Hr Hp. unfold handleMessageGetFile.
    rewrite (Has_true_of_Read _ _ _ _ _ _ Hr), Hr, Hp. reflexivity.
  - intros data peer Hr Hp Hpeer Hf.
    exact (handleMessageGetFile_ok fuel s from id key data peer Hr Hp Hpeer Hf).
Qed.

End HandlerProps.

Lemma TCPPeer_Read_error (p : TCPPeer) n e :
  c_in (conn p) = [] -> c_in_err (conn p) = Some e -> (0 < n)%nat ->
  Read p n = Some ([], Some e, p).
Proof.
  intros Hin He Hn. unfold Read at 1, TCPPeer_Reader.
  rewrite (Conn_Read_error _ _ _ Hin He Hn). now rewrite with_conn_id.
Qed.

(** A limited reader over a peer whose connection ends before the limit:
    it gives what the connection holds. *)
Lemma Limited_drains_short : forall (k : nat) (p : TCPPeer) (N : nat),
  length (c_in (conn p)) = k ->
  (k <= N)%nat ->
  c_in_err (conn p) = Some EOF ->
  exists N',
    drains (mkLimited p (Z.of_nat N)) (c_in (conn p))
           (mkLimited (with_conn p (set_c_in (conn p) [])) N').
Proof.
  intros k. induction (lt_wf k) as [k _ IH]. intros p N Hk HN Herr.
  pose proof chunk_pos as Hc.
  destruct (c_in (conn p)) as [|x rest] eqn:Hin.
  - assert (Hp : with_conn p (set_c_in (conn p) []) = p).
    { rewrite <- Hin. apply set_c_in_id. }
    rewrite Hp.
    destruct (Nat.eq_dec N 0%nat) as [-> | HN0].
    + exists 0. apply drains_eof. reflexivity.
    + exists (Z.of_nat N - len (@nil byte)). apply drains_eof.
      unfold Read at 1, Limited_Reader. cbn [lr_N lr_R].
      destruct (Z.leb_spec (Z.of_nat N) 0) as [Hle|_]; [lia|].
      assert (Hn : (0 < (if Z.ltb (Z.of_nat N) (Z.of_nat chunk)
                         then Z.to_nat (Z.of_nat N) else chunk))%nat)
        by (destruct (Z.ltb_spec (Z.of_nat N) (Z.of_nat chunk)); lia).
      now rewrite (TCPPeer_Read_error p _ EOF Hin Herr Hn).
  - cbn [length] in Hk.
    remember (Nat.min N chunk) as n' eqn:Hn'.
    assert (Hlen : length (take n' (x :: rest)) = Nat.min n' k).
    { rewrite length_take. cbn [length]. lia. }
    pose proof (Limited_Read_some p N x rest n' Hin ltac:(lia) Hn') as Hread.
    remember (with_conn p (set_c_in (conn p) (drop n' (x :: rest)))) as p1 eqn:Hp1.
    assert (Hin1 : c_in (conn p1) = drop n' (x :: rest)) by now subst p1.
    assert (Herr1 : c_in_err (conn p1) = Some EOF) by (subst p1; exact Herr).
    assert (HN1 : Z.of_nat N - len (take n' (x :: rest)) = Z.of_nat (N - Nat.min n' k)).
    { unfold len. rewrite Hlen. lia. }
    rewrite HN1 in Hread.
    assert (Hk1 : length (c_in (conn p1)) = (k - n')%nat).
    { rewrite Hin1, length_drop. cbn [length]. lia. }
    destruct (IH (k - n')%nat ltac:(lia) p1 (N - Nat.min n' k)%nat Hk1 ltac:(lia) Herr1)
      as [N' Hrest].
    exists N'.
    assert (Hp : with_conn p1 (set_c_in (conn p1) []) = with_conn p (set_c_in (conn p) []))
      by now subst p1.
    rewrite Hp, Hin1 in Hrest.
    rewrite <- (take_drop n' (x :: rest)).
    eapply drains_chunk; [exact Hread | | exact Hrest].
    intros Hnil. rewrite Hnil in Hlen. cbn [length] in Hlen. lia.
Qed.

Section StoreFileProps.

(** [handleMessageStoreFile] at its edges.  From a peer that is not in the
    map it returns an error and changes nothing.  When the peer's gate is
    not raised (the read loop has not seen the stream tag), it panics in
    [CloseStream] after it has written the file.  When the connection
    ends before the announced size, it keeps what came and returns nil. *)
Theorem handleMessageStoreFile_edges
    (fuel : nat) (s : FileServer) (from id key : string) (size : Z) :
  (peers s !! from = None ->
   handleMessageStoreFile fuel s from id key size
   = Done (Some (Errorf "peer could not be found in the peer list"), s)) /\
  (forall peer fs' f,
     peers s !! from = Some peer ->
     0 <= size <= len (c_in (conn peer)) ->
     (Z.to_nat size < fuel)%nat ->
     wg peer <= 0 ->
     openFileForWriting (store s) (disk s) id key = (fs', inr f) ->
     handleMessageStoreFile fuel s from id key size
     = Panic "sync: negative WaitGroup counter") /\
  (forall peer fs' f,
     peers s !! from = Some peer ->
     len (c_in (conn peer)) <= size ->
     c_in_err (conn peer) = Some EOF ->
     (length (c_in (conn peer)) < fuel)%nat ->
     1 <= wg peer ->
     openFileForWriting (store s) (disk s) id key = (fs', inr f) ->
     exists s',
       handleMessageStoreFile fuel s from id key size = Done (None, s') /\
       Store_Read (store s') (disk s') id key
       = (len (c_in (conn peer)), Some (mkRFile (File (c_in (conn peer))) 0), None) /\
       peers s' !! from
       = Some (mkTCPPeer (set_c_in (conn peer) []) (outbound peer) (wg peer - 1))).
Proof.
  split; [|split].
  - intros Hp. unfold handleMessageStoreFile. now rewrite Hp.
  - intros peer fs' f Hp Hsize Hf Hwg Ho.
    unfold handleMessageStoreFile. rewrite Hp.
    assert (HN : (Z.to_nat size <= length (c_in (conn peer)))%nat)
      by (unfold len in Hsize; lia).
    pose proof (Limited_drains (Z.to_nat size) peer HN) as Hd.
    rewrite Z2Nat.id in Hd by lia.
    rewrite (Store_Write_drains _ _ _ _ _ _ _ _ _ _ Ho Hd)
      by (rewrite length_take; lia).
    cbn [obind lr_R]. unfold CloseStream. cbn [wg with_conn].
    destruct (Z.ltb_spec (wg peer - 1) 0) as [_|Hge]; [reflexivity | lia].
  - intros peer fs' f Hp Hsize Herr Hf Hwg Ho.
    unfold handleMessageStoreFile. rewrite Hp.
    assert (HN : (length (c_in (conn peer)) <= Z.to_nat size)%nat)
      by (unfold len in Hsize; lia).
    destruct (Limited_drains_short _ peer (Z.to_nat size) eq_refl HN Herr) as [N' Hd].
    rewrite Z2Nat.id in Hd by (unfold len in Hsize; lia).
    rewrite (Store_Write_drains _ _ _ _ _ _ _ _ _ _ Ho Hd) by exact Hf.
    cbn [obind lr_R]. unfold CloseStream. cbn [wg with_conn].
    destruct (Z.ltb_spec (wg peer - 1) 0) as [Hlt|_]; [lia|].
    cbn [obind]. eexists. split; [reflexivity|].
    cbn [store disk peers set_peers set_disk conn outbound].
    split; [exact (written_file_read _ _ _ _ _ _ _ Ho)|].
    now rewrite lookup_insert_eq.
Qed.

End StoreFileProps.

Lemma peer_addrs_singleton s a peer :
  peers s = {[ a := peer ]} -> peer_addrs s = [a].
Proof. intros Hp. unfold peer_addrs. rewrite Hp, map_to_list_singleton. reflexivity. Qed.

Lemma TCPPeer_Read_wait (p : TCPPeer) n :
  c_in (conn p) = [] -> c_in_err (conn p) = None -> (0 < n)%nat -> Read p n = None.
Proof.
  intros Hin He Hn. unfold Read at 1, TCPPeer_Reader. unfold Read, Conn_Reader.
  rewrite Hin, He. destruct (Nat.eqb_spec n 0); [lia | reflexivity].
Qed.

Lemma ReadFull_peer fuel (p : TCPPeer) n hdr rest :
  c_in (conn p) = hdr ++ rest -> length hdr = n -> (0 < n)%nat -> (0 < fuel)%nat ->
  ReadFull fuel p n
  = Done (hdr, None, with_conn p (set_c_in (conn p) rest)).
Proof.
  intros Hin Hlen Hn Hf. unfold ReadFull.
  destruct (Nat.eqb_spec n 0) as [|_]; [lia|].
  destruct fuel as [|f]; [lia|]. cbn [ReadFull_loop length].
  rewrite Nat.sub_0_r.
  destruct hdr as [|x hdr]; [cbn [length] in Hlen; lia|].
  cbn [app] in Hin. rewrite (TCPPeer_Read_data p n x (hdr ++ rest) Hin).
  change (x :: hdr ++ rest) with ((x :: hdr) ++ rest).
  rewrite take_app_length' by (symmetry; exact Hlen).
  rewrite drop_app_length' by (symmetry; exact Hlen).
  cbn [app]. rewrite Hlen.
  destruct (Nat.leb_spec n n); [reflexivity | lia].
Qed.

Lemma ReadFull_peer_closed fuel (p : TCPPeer) n e :
  c_in (conn p) = [] -> c_in_err (conn p) = Some e -> (0 < n)%nat -> (0 < fuel)%nat ->
  exists e', ReadFull fuel p n = Done ([], Some e', p).
Proof.
  intros Hin He Hn Hf. unfold ReadFull.
  destruct (Nat.eqb_spec n 0) as [|_]; [lia|].
  destruct fuel as [|f]; [lia|]. cbn [ReadFull_loop length].
  rewrite Nat.sub_0_r, (TCPPeer_Read_error p n e Hin He Hn). cbn [app length].
  destruct (Nat.leb_spec n 0); [lia|].
  destruct e; eexists; reflexivity.
Qed.

(** [copyDecrypt] from a buffer and from a limited reader over a peer
    that holds the same bytes come to the same. *)
Lemma copyDecrypt_Buffer_any fuel key block stream pre :
  aes_NewCipher key = inr block ->
  stream <> [] ->
  (length (drop 16 stream) < fuel)%nat ->
  copyDecrypt fuel key (mkBuffer stream) (mkBuffer pre)
  = Done (16 + len (drop 16 stream), None, mkBuffer [],
          mkBuffer (pre ++ (XORKeyStream
                              (NewCTR block (take 16 stream
                                               ++ repeat Byte.x00 (16 - length (take 16 stream))))
                              (drop 16 stream)).1)).
Proof.
  intros Hb Hne Hf. unfold copyDecrypt. rewrite Hb.
  rewrite Buffer_Read_data by exact Hne.
  change Aes.BlockSize with 16%nat.
  now rewrite copyStream_Buffer by exact Hf.
Qed.

Lemma copyDecrypt_Limited {W} `{Writer W} `{!LawfulWriter W}
    fuel key block (p : TCPPeer) stream rest (dst : W) :
  aes_NewCipher key = inr block ->
  stream <> [] ->
  c_in (conn p) = stream ++ rest ->
  (length (drop 16 stream) < fuel)%nat ->
  copyDecrypt fuel key (mkLimited p (len stream)) dst
  = Done (16 + len (drop 16 stream), None,
          mkLimited (with_conn p (set_c_in (conn p) rest)) 0,
          wrote dst (XORKeyStream
                       (NewCTR block (take 16 stream
                                        ++ repeat Byte.x00 (16 - length (take 16 stream))))
                       (drop 16 stream)).1).
Proof.
  intros Hb Hne Hin Hf. unfold copyDecrypt. rewrite Hb.
  change Aes.BlockSize with 16%nat.
  destruct stream as [|x stream']; [congruence|].
  set (stream := x :: stream') in *.
  assert (Hlen0 : (0 < length stream)%nat) by (unfold stream; cbn [length]; lia).
  unfold Read at 1, Limited_Reader. cbn [lr_N lr_R].
  destruct (Z.leb_spec (len stream) 0) as [Hle|_]; [unfold len in Hle; lia|].
  set (n' := if len stream <? Z.of_nat 16 then Z.to_nat (len stream) else 16%nat).
  assert (Hn' : n' = Nat.min (length stream) 16).
  { unfold n', len. destruct (Z.ltb_spec (Z.of_nat (length stream)) (Z.of_nat 16)); lia. }
  cbn [app] in Hin. unfold stream in Hin. cbn [app] in Hin.
  rewrite (TCPPeer_Read_data p n' x (stream' ++ rest) Hin).
  change (x :: stream' ++ rest) with (stream ++ rest).
  assert (Htake : take n' (stream ++ rest) = take 16 stream).
  { rewrite Hn'. destruct (Nat.le_gt_cases (length stream) 16) as [Hle|Hgt].
    - rewrite Nat.min_l by exact Hle. rewrite take_app_length.
      now rewrite take_ge by exact Hle.
    - rewrite Nat.min_r by lia. rewrite take_app_le by lia. reflexivity. }
  assert (Hdrop : drop n' (stream ++ rest) = drop 16 stream ++ rest).
  { rewrite Hn'. destruct (Nat.le_gt_cases (length stream) 16) as [Hle|Hgt].
    - rewrite Nat.min_l by exact Hle. rewrite drop_app_length.
      now rewrite drop_ge by exact Hle.
    - rewrite Nat.min_r by lia. rewrite drop_app_le by lia. reflexivity. }
  rewrite Htake, Hdrop.
  set (p1 := with_conn p (set_c_in (conn p) (drop 16 stream ++ rest))).
  assert (HN : len stream - len (take 16 stream) = Z.of_nat (length (drop 16 stream))).
  { unfold len. rewrite length_take, length_drop. lia. }
  rewrite HN. unfold copyStream.
  assert (Hd : drains (mkLimited p1 (Z.of_nat (length (drop 16 stream))))
                 (drop 16 stream)
                 (mkLimited (with_conn p (set_c_in (conn p) rest)) 0)).
  { pose proof (Limited_drains (length (drop 16 stream)) p1) as Hd.
    unfold p1 in Hd |- *.
    cbn [conn with_conn c_in set_c_in outbound wg RemoteAddr c_in_err c_out c_out_err]
      in Hd.
    rewrite take_app_length, drop_app_length in Hd.
    apply Hd. rewrite length_app. lia. }
  rewrite (copyStream_loop_drains _ _ _ Hd) by exact Hf.
  reflexivity.
Qed.

Section GetProps.

Variable gob_encode : Message -> error + list byte.

Lemma singleton_healthy (m : gmap string TCPPeer) a peer :
  m = {[ a := peer ]} -> healthy peer ->
  forall b p, m !! b = Some p -> healthy p.
Proof.
  intros -> Hpeer b p Hb. apply lookup_singleton_Some in Hb as [_ <-]. exact Hpeer.
Qed.

(** What [Get] does up to the receiving loop, on a miss, with one peer
    that takes writes. *)
Lemma Get_miss_one_peer fuel s key a peer buf :
  Has (store s) (disk s) (ID s) key = false ->
  peers s = {[ a := peer ]} -> healthy peer ->
  gob_encode (mkMessage (Some (MessageGetFile (ID s) (hashKey key)))) = inr buf ->
  let p1 := sent peer (IncomingMessage :: buf) in
  let s1 := set_peers s {[ a := p1 ]} in
  Get gob_encode fuel s key
  = let* (bs, rerr, peer1) := ReadFull fuel p1 8 in
    let fileSize := match rerr with None => le_int64 bs | Some _ => 0 end in
    let* (n, err, fs', lr) :=
      WriteDecrypt fuel (store s) (disk s) (EncKey s) (ID s) key
                   (mkLimited peer1 fileSize) in
    let s2 := set_disk (set_peers s {[ a := lr_R lr ]}) fs' in
    match err with
    | Some e => Done (None, Some e, s2)
    | None =>
        let* peer2 := CloseStream (lr_R lr) in
        let s3 := set_peers s2 {[ a := peer2 ]} in
        let '(_, r, err) := Store_Read (store s) fs' (ID s) key in
        Done (r, err, s3)
    end.
Proof.
  intros Hhas Hp Hpeer Henc p1 s1. unfold Get. rewrite Hhas.
  rewrite (broadcast_healthy gob_encode s _ buf Henc (singleton_healthy _ _ _ Hp Hpeer)).
  rewrite Hp, map_fmap_singleton.
  change ([IncomingMessage] ++ buf) with (IncomingMessage :: buf). fold p1. fold s1.
  rewrite (peer_addrs_singleton s1 a p1 eq_refl).
  cbn [Get_receive]. cbn [peers set_peers s1]. rewrite lookup_singleton_eq.
  cbn [store disk EncKey ID set_peers s1].
  destruct (ReadFull fuel p1 8) as [[[bs rerr] peer1]| | |]; try reflexivity.
  cbn [obind].
  destruct (WriteDecrypt fuel (store s) (disk s) (EncKey s) (ID s) key _)
    as [[[[n err] fs'] lr]| | |]; try reflexivity.
  cbn [obind]. rewrite insert_singleton_eq.
  destruct err as [e|]; [reflexivity|].
  destruct (CloseStream (lr_R lr)) as [peer2| | |]; try reflexivity.
  cbn [obind peers set_peers set_disk store disk ID].
  rewrite insert_singleton_eq. reflexivity.
Qed.

(** The node after [Get] has fetched a reply, in full. *)
Lemma Get_fetch_explicit fuel s key a peer buf stream rest block fs' f :
  Has (store s) (disk s) (ID s) key = false ->
  peers s = {[ a := peer ]} -> healthy peer ->
  gob_encode (mkMessage (Some (MessageGetFile (ID s) (hashKey key)))) = inr buf ->
  c_in (conn peer) = le_bytes8 (len stream) ++ stream ++ rest ->
  stream <> [] ->
  (length stream < fuel)%nat ->
  len stream < 2 ^ 63 ->
  aes_NewCipher (EncKey s) = inr block ->
  1 <= wg peer ->
  openFileForWriting (store s) (disk s) (ID s) key = (fs', inr f) ->
  let data := (XORKeyStream
                 (NewCTR block (take 16 stream
                                  ++ repeat Byte.x00 (16 - length (take 16 stream))))
                 (drop 16 stream)).1 in
  Get gob_encode fuel s key
  = Done (Some (mkRFile (File data) 0), None,
          set_peers (set_disk s (wf_fs (wrote f data)))
            {[ a := mkTCPPeer (mkConn (RemoteAddr (conn peer)) rest (c_in_err (conn peer))
                                      (c_out (conn peer) ++ IncomingMessage :: buf)
                                      (c_out_err (conn peer)))
                              (outbound peer) (wg peer - 1) ]}).
Proof.
  intros Hhas Hp Hpeer Henc Hin Hne Hf Hsz Hb Hwg Ho data.
  assert (Hf16 : (length (drop 16 stream) < fuel)%nat) by (rewrite length_drop; lia).
  rewrite (Get_miss_one_peer fuel s key a peer buf Hhas Hp Hpeer Henc). cbv zeta.
  set (p1 := sent peer (IncomingMessage :: buf)).
  rewrite (ReadFull_peer fuel p1 8 (le_bytes8 (len stream)) (stream ++ rest));
    [| exact Hin | apply le_bytes8_length | lia | lia].
  cbn [obind]. rewrite le_int64_of_le_bytes8 by (unfold len in *; lia).
  unfold WriteDecrypt. rewrite Ho.
  set (p2 := with_conn p1 (set_c_in (conn p1) (stream ++ rest))).
  rewrite (copyDecrypt_Limited fuel (EncKey s) block p2 stream rest f Hb Hne eq_refl Hf16).
  fold data. cbn [obind lr_R].
  unfold CloseStream. cbn [wg with_conn p2 p1 sent].
  destruct (Z.ltb_spec (wg peer - 1) 0) as [Hlt|_]; [lia|].
  cbn [obind].
  rewrite (written_file_read _ _ _ _ _ _ data Ho). reflexivity.
Qed.

(** [Get] on a miss, with one peer whose connection holds a reply: the
    size header and then a stream that is, under the node's own key, the
    encryption of [data].  [Get] sends the GetFile message (key hashed) to
    the peer, takes the reply off the connection, stores [data] decrypted
    under the key, lowers the peer's gate and returns a reader over
    [data]. *)
Theorem Get_fetches_from_peer
    (fuel : nat) (s : FileServer) (key a : string) (peer : TCPPeer)
    (buf stream rest data : list byte) (n : Z) (fs' : FS) (f : WFile) :
  Has (store s) (disk s) (ID s) key = false ->
  peers s = {[ a := peer ]} -> healthy peer ->
  gob_encode (mkMessage (Some (MessageGetFile (ID s) (hashKey key)))) = inr buf ->
  c_in (conn peer) = le_bytes8 (len stream) ++ stream ++ rest ->
  stream <> [] ->
  (length stream < fuel)%nat ->
  len stream < 2 ^ 63 ->
  copyDecrypt fuel (EncKey s) (mkBuffer stream) (mkBuffer [])
  = Done (n, None, mkBuffer [], mkBuffer data) ->
  1 <= wg peer ->
  openFileForWriting (store s) (disk s) (ID s) key = (fs', inr f) ->
  exists s',
    Get gob_encode fuel s key = Done (Some (mkRFile (File data) 0), None, s') /\
    peers s'
    = {[ a := mkTCPPeer (mkConn (RemoteAddr (conn peer)) rest (c_in_err (conn peer))
                                (c_out (conn peer) ++ IncomingMessage :: buf)
                                (c_out_err (conn peer)))
                        (outbound peer) (wg peer - 1) ]} /\
    Store_Read (store s') (disk s') (ID s') key
    = (len data, Some (mkRFile (File data) 0), None).
Proof.
  intros Hhas Hp Hpeer Henc Hin Hne Hf Hsz Hdec Hwg Ho.
  assert (Hf16 : (length (drop 16 stream) < fuel)%nat) by (rewrite length_drop; lia).
  destruct (aes_NewCipher (EncKey s)) as [e|block] eqn:Hb.
  { unfold copyDecrypt in Hdec. rewrite Hb in Hdec. discriminate. }
  rewrite (copyDecrypt_Buffer_any _ _ _ _ _ Hb Hne Hf16) in Hdec.
  cbn [app] in Hdec. injection Hdec as _ Hdata.
  pose proof (Get_fetch_explicit fuel s key a peer buf stream rest block fs' f
                Hhas Hp Hpeer Henc Hin Hne Hf Hsz Hb Hwg Ho) as Hget.
  cbv zeta in Hget. rewrite Hdata in Hget.
  eexists. split; [exact Hget|]. split; [reflexivity|].
  cbn [store disk ID set_peers set_disk].
  exact (written_file_read _ _ _ _ _ _ data Ho).
Qed.

(** [Get] on a miss, with one peer whose connection was closed without a
    reply: [Get] returns [io.EOF], and the empty file it opened for the
    key stays on the disk; so the key is there afterwards, and a second
    [Get] returns a reader that gives nothing, with no error. *)
Theorem Get_failed_fetch_leaves_empty_file
    (fuel : nat) (s : FileServer) (key a : string) (peer : TCPPeer)
    (buf : list byte) (e : error) (fs' : FS) (f : WFile) :
  Has (store s) (disk s) (ID s) key = false ->
  peers s = {[ a := peer ]} -> healthy peer ->
  gob_encode (mkMessage (Some (MessageGetFile (ID s) (hashKey key)))) = inr buf ->
  c_in (conn peer) = [] -> c_in_err (conn peer) = Some e ->
  (length (EncKey s) = 16 \/ length (EncKey s) = 24 \/ length (EncKey s) = 32)%nat ->
  (0 < fuel)%nat ->
  openFileForWriting (store s) (disk s) (ID s) key = (fs', inr f) ->
  exists s',
    Get gob_encode fuel s key = Done (None, Some EOF, s') /\
    Has (store s') (disk s') (ID s') key = true /\
    Store_Read (store s') (disk s') (ID s') key
    = (0, Some (mkRFile (File []) 0), None) /\
    Get gob_encode fuel s' key = Done (Some (mkRFile (File []) 0), None, s').
Proof.
  intros Hhas Hp Hpeer Henc Hin Herr Hk Hf Ho.
  destruct (aes_NewCipher_ok _ Hk) as [block Hb].
  rewrite (Get_miss_one_peer fuel s key a peer buf Hhas Hp Hpeer Henc). cbv zeta.
  set (p1 := sent peer (IncomingMessage :: buf)).
  destruct (ReadFull_peer_closed fuel p1 8 e Hin Herr ltac:(lia) Hf) as [e' ->].
  cbn [obind]. unfold WriteDecrypt. rewrite Ho.
  unfold copyDecrypt. rewrite Hb. change Aes.BlockSize with 16%nat.
  unfold Read at 1, Limited_Reader. cbn [lr_N lr_R Z.leb Z.compare obind].
  pose proof (written_file_read _ _ _ _ _ _ [] Ho) as Hr.
  rewrite wrote_nil in Hr.
  eexists. split; [reflexivity|].
  cbn [store disk ID set_peers set_disk].
  split; [exact (Has_true_of_Read _ _ _ _ _ _ Hr)|]. split; [exact Hr|].
  unfold Get. cbn [store disk ID set_peers set_disk].
  now rewrite (Has_true_of_Read _ _ _ _ _ _ Hr), Hr.
Qed.

(** [Get] on a miss without an answer.  With no peer at all it returns
    the not-exist error of the local read and the node is as it was.
    With one peer that has sent nothing and whose connection is open, it
    waits for ever: a peer that does not have the file sends no reply
    (see [handleMessageGetFile]). *)
Theorem Get_miss_without_reply (fuel : nat) (s : FileServer) (key : string)
    (buf : list byte) :
  Has (store s) (disk s) (ID s) key = false ->
  gob_encode (mkMessage (Some (MessageGetFile (ID s) (hashKey key)))) = inr buf ->
  (peers s = ∅ ->
   Get gob_encode fuel s key
   = Done (None,
           Some (PathError "open" (full_path (store s) (ID s) key) ENOENT), s)) /\
  (forall a peer,
     peers s = {[ a := peer ]} -> healthy peer ->
     c_in (conn peer) = [] -> c_in_err (conn peer) = None ->
     (0 < fuel)%nat ->
     Get gob_encode fuel s key = Blocked).
Proof.
  intros Hhas Henc. split.
  - intros Hp. unfold Get. rewrite Hhas.
    rewrite (broadcast_healthy gob_encode s _ buf Henc).
    2:{ intros a p. rewrite Hp, lookup_empty. discriminate. }
    rewrite Hp, fmap_empty.
    assert (Haddrs : peer_addrs (set_peers s ∅) = []).
    { unfold peer_addrs. cbn [peers set_peers]. now rewrite map_to_list_empty. }
    rewrite Haddrs. cbn [Get_receive obind store disk ID set_peers].
    assert (Hr : Store_Read (store s) (disk s) (ID s) key
                 = (0, None, Some (PathError "open" (full_path (store s) (ID s) key)
                                             ENOENT))).
    { revert Hhas. unfold Has, Store_Read, readStream, Stat, Open.
      fold (full_path (store s) (ID s) key).
      destruct (resolve (disk s) _) as [[]|l]; try discriminate; try reflexivity.
      destruct (kind (disk s) l); [discriminate | reflexivity]. }
    rewrite Hr. rewrite <- Hp. now destruct s.
  - intros a peer Hp Hpeer Hin Herr Hf.
    rewrite (Get_miss_one_peer fuel s key a peer buf Hhas Hp Hpeer Henc). cbv zeta.
    unfold ReadFull. cbn [Nat.eqb]. destruct fuel as [|fu]; [lia|].
    cbn [ReadFull_loop length]. rewrite TCPPeer_Read_wait; [reflexivity | | | lia].
    + exact Hin.
    + exact Herr.
Qed.

End GetProps.

Section FloodProps.

Variable hs : TCPPeer -> option error.
Variable onpeer : option (TCPPeer -> option error).

Lemma closed_conn_round (peer : TCPPeer) (q : list RPC) (e : error) :
  c_in (conn peer) = [] ->
  c_in_err (conn peer) = Some e ->
  (length q < rpcch_cap)%nat ->
  let rpc := mkRPC (RemoteAddr (conn peer)) [] false in
  run mkDefaultDecoder hs onpeer (mkConnState peer Decoding q)
      [LDecode; LEnqueue rpc] (mkConnState peer Decoding (q ++ [rpc])).
Proof.
  intros Hin Herr Hq rpc.
  assert (Hdec : Decode mkDefaultDecoder (conn peer) RPC_zero
                 = Some (None, RPC_zero, conn peer)).
  { apply (DefaultDecoder_Decode_first_error _ _ _ _ [] e).
    apply Conn_Read_error; [exact Hin | exact Herr | lia]. }
  assert (Hstep : decode_step mkDefaultDecoder peer = Some (peer, Sending rpc)).
  { unfold decode_step. rewrite Hdec. cbn. now rewrite with_conn_id. }
  eapply run_cons.
  - apply step_loop. apply step_decode. exact Hstep.
  - eapply run_cons; [|apply run_nil].
    apply step_loop. now apply step_enqueue.
Qed.

Lemma run_app s1 ls1 s2 ls2 s3 :
  run mkDefaultDecoder hs onpeer s1 ls1 s2 ->
  run mkDefaultDecoder hs onpeer s2 ls2 s3 ->
  run mkDefaultDecoder hs onpeer s1 (ls1 ++ ls2) s3.
Proof.
  induction 1 as [s | s l s' ls s'' Hstep Hrun IH]; intros H2; [exact H2|].
  cbn [app]. eapply run_cons; [exact Hstep | now apply IH].
Qed.

(** A connection that the other side has closed at a frame boundary is
    not dropped: the read loop goes round and round, and each round puts
    one more empty RPC on the queue, until the queue is full; then the
    loop is stuck at the send. *)
Theorem closed_connection_floods_queue
    (peer : TCPPeer) (q : list RPC) (e : error) (k : nat) :
  c_in (conn peer) = [] ->
  c_in_err (conn peer) = Some e ->
  (length q + k <= rpcch_cap)%nat ->
  let rpc := mkRPC (RemoteAddr (conn peer)) [] false in
  run mkDefaultDecoder hs onpeer (mkConnState peer Decoding q)
      (concat (repeat [LDecode; LEnqueue rpc] k))
      (mkConnState peer Decoding (q ++ repeat rpc k)) /\
  (forall q', length q' = rpcch_cap ->
     forall l s', ~ loop_step mkDefaultDecoder hs onpeer
                      (mkConnState peer (Sending rpc) q') l s').
Proof.
  intros Hin Herr Hk rpc. split.
  - revert q Hk. induction k as [|k IH]; intros q Hk.
    + cbn [repeat concat]. rewrite app_nil_r. apply run_nil.
    + cbn [repeat concat].
      eapply run_app.
      * apply (closed_conn_round peer q e Hin Herr). lia.
      * replace (q ++ rpc :: repeat rpc k) with ((q ++ [rpc]) ++ repeat rpc k)
          by now rewrite <- app_assoc.
        apply IH. rewrite length_app. cbn [length]. lia.
  - intros q' Hq' l s' Hl. inversion Hl; subst. lia.
Qed.

End FloodProps.

Lemma closed_connection_floods_queue_witness :
  let peer := mkTCPPeer (conn_closed "10.0.0.2:4000") false 0 in
  let rpc := mkRPC "10.0.0.2:4000" [] false in
  run mkDefaultDecoder NOPHandshakeFunc None (mkConnState peer Decoding [])
      (concat (repeat [LDecode; LEnqueue rpc] 3))
      (mkConnState peer Decoding ([] ++ repeat rpc 3)) /\
  (forall q', length q' = rpcch_cap ->
     forall l s', ~ loop_step mkDefaultDecoder NOPHandshakeFunc None
                      (mkConnState peer (Sending rpc) q') l s').
Proof.
  intros peer rpc.
  refine (closed_connection_floods_queue NOPHandshakeFunc None peer [] EOF 3 _ _ _).
  - reflexivity.
  - reflexivity.
  - unfold rpcch_cap. cbn [length]. lia.
Defined.

Section LoopProps.

Variable gob_encode : Message -> error + list byte.
Variable gob_decode : list byte -> error + Message.


End LoopProps.

(** ** New nodes and new keys *)

Lemma EncodeToString_proper bs :
  (2 <= length bs)%nat -> proper_name (Hex.EncodeToString bs) = true.
Proof. intros Hl. apply length_proper. rewrite EncodeToString_length. lia. Qed.

Lemma copyEncrypt_Buffer fuel rnd key block b pre :
  aes_NewCipher key = inr block ->
  (length b < fuel)%nat ->
  let iv := map (rand_at rnd) (seq (rand_pos rnd) 16) in
  copyEncrypt fuel rnd key (mkBuffer b) (mkBuffer pre)
  = Done (len b + 16, None, mkBuffer [],
          mkBuffer (pre ++ iv ++ (XORKeyStream (NewCTR block iv) b).1),
          mkRand (rand_at rnd) (rand_pos rnd + 16)).
Proof.
  intros Hb Hf iv. unfold copyEncrypt. rewrite Hb.
  rewrite ReadFull_rand by (unfold Aes.BlockSize; lia).
  cbn [obind]. change Aes.BlockSize with 16%nat. fold iv.
  change (Write (mkBuffer pre) iv) with (len iv, @None error, mkBuffer (pre ++ iv)).
  cbv beta iota zeta.
  rewrite copyStream_Buffer by exact Hf.
  cbn [obind]. rewrite <- app_assoc. do 5 f_equal. lia.
Qed.

(** A node made by [NewFileServer] has no peer and a store with a root
    folder; its ID is the one given, or, when none is given, 64 hex
    digits made of the next 32 bytes of entropy, which is an ordinary
    folder name without a slash. *)
Theorem NewFileServer_identity
    (fuel : nat) (opts : FileServerOpts) (fs : FS) (rnd : RandReader) :
  (0 < fuel)%nat ->
  exists s,
    NewFileServer fuel opts fs rnd = Done s /\
    peers s = ∅ /\ disk s = fs /\ EncKey s = o_EncKey opts /\
    String.eqb (s_Root (store s)) "" = false /\
    (o_ID opts <> "" -> ID s = o_ID opts /\ entropy s = rnd) /\
    (o_ID opts = "" ->
     ID s = Hex.EncodeToString (map (rand_at rnd) (seq (rand_pos rnd) 32)) /\
     String.length (ID s) = 64%nat /\
     proper_name (ID s) = true /\ no_slash (ID s) = true /\
     entropy s = mkRand (rand_at rnd) (rand_pos rnd + 32)).
Proof.
  intros Hf.
  assert (Hread : ReadFull fuel rnd 32
                  = Done (map (rand_at rnd) (seq (rand_pos rnd) 32), None,
                          mkRand (rand_at rnd) (rand_pos rnd + 32)))
    by (apply ReadFull_rand; lia).
  assert (Hlen : length (map (rand_at rnd) (seq (rand_pos rnd) 32)) = 32%nat)
    by now rewrite length_map, length_seq.
  unfold NewFileServer, generateID. rewrite Hread. cbn [obind].
  rewrite Hlen. cbn [Nat.sub repeat]. rewrite app_nil_r.
  destruct (o_ID opts) as [|c id] eqn:Hid.
  - cbn [String.length Nat.eqb obind]. eexists. split; [reflexivity|].
    cbn [peers disk EncKey store ID entropy].
    split; [reflexivity|]. split; [reflexivity|]. split; [reflexivity|].
    split; [apply NewStore_root_not_empty|].
    split; [congruence|]. intros _.
    split; [reflexivity|].
    split; [rewrite EncodeToString_length, Hlen; reflexivity|].
    split; [apply EncodeToString_proper; lia|].
    split; [apply EncodeToString_no_slash | reflexivity].
  - cbn [String.length Nat.eqb obind]. eexists. split; [reflexivity|].
    cbn [peers disk EncKey store ID entropy].
    split; [reflexivity|]. split; [reflexivity|]. split; [reflexivity|].
    split; [apply NewStore_root_not_empty|].
    split; [now intros _ | discriminate].
Qed.

Lemma NewFileServer_identity_witness :
  let opts := mkFileServerOpts "" sample_key "" (Some CASPathTransformFunc) ":3000" [] in
  exists s,
    NewFileServer 1 opts ∅ sample_rand = Done s /\
    peers s = ∅ /\ disk s = ∅ /\ EncKey s = o_EncKey opts /\
    String.eqb (s_Root (store s)) "" = false /\
    (o_ID opts <> "" -> ID s = o_ID opts /\ entropy s = sample_rand) /\
    (o_ID opts = "" ->
     ID s = Hex.EncodeToString (map (rand_at sample_rand) (seq (rand_pos sample_rand) 32)) /\
     String.length (ID s) = 64%nat /\
     proper_name (ID s) = true /\ no_slash (ID s) = true /\
     entropy s = mkRand (rand_at sample_rand) (rand_pos sample_rand + 32)).
Proof.
  intros opts. apply (NewFileServer_identity 1 opts ∅ sample_rand). lia.
Defined.

(** A key made by [newEncryptionKey] has 32 bytes, so the stream codec
    takes it: a stream encrypted under it is 16 bytes longer than the
    data, and decrypts under it to the data. *)
Theorem newEncryptionKey_round_trip
    (fuel : nat) (rnd : RandReader) (b : list byte) :
  (length b < fuel)%nat ->
  exists key rnd1 ct rnd2,
    newEncryptionKey fuel rnd = Done (key, rnd1) /\
    length key = 32%nat /\
    copyEncrypt fuel rnd1 key (mkBuffer b) (mkBuffer [])
    = Done (len b + 16, None, mkBuffer [], mkBuffer ct, rnd2) /\
    len ct = len b + 16 /\
    copyDecrypt fuel key (mkBuffer ct) (mkBuffer [])
    = Done (len b + 16, None, mkBuffer [], mkBuffer b).
Proof.
  intros Hb.
  assert (Hlen : length (map (rand_at rnd) (seq (rand_pos rnd) 32)) = 32%nat)
    by now rewrite length_map, length_seq.
  unfold newEncryptionKey.
  rewrite ReadFull_rand by lia. cbn [obind].
  rewrite Hlen. cbn [Nat.sub repeat]. rewrite app_nil_r.
  destruct (aes_NewCipher_ok _ (or_intror (or_intror Hlen))) as [block Hblock].
  eexists; eexists; eexists; eexists. split; [reflexivity|]. split; [exact Hlen|].
  split; [|split].
  - rewrite (copyEncrypt_Buffer _ _ _ _ _ _ Hblock Hb). cbn [app]. reflexivity.
  - unfold len. rewrite length_app, length_map, length_seq, XORKeyStream_length. lia.
  - apply (copyDecrypt_stream _ _ _ _ _ [] Hblock); [|exact Hb].
    now rewrite length_map, length_seq.
Qed.

Lemma newEncryptionKey_round_trip_witness :
  exists key rnd1 ct rnd2,
    newEncryptionKey 12 sample_rand = Done (key, rnd1) /\
    length key = 32%nat /\
    copyEncrypt 12 rnd1 key (mkBuffer sample_payload) (mkBuffer [])
    = Done (len sample_payload + 16, None, mkBuffer [], mkBuffer ct, rnd2) /\
    len ct = len sample_payload + 16 /\
    copyDecrypt 12 key (mkBuffer ct) (mkBuffer [])
    = Done (len sample_payload + 16, None, mkBuffer [], mkBuffer sample_payload).
Proof.
  apply (newEncryptionKey_round_trip 12 sample_rand sample_payload).
  vm_compute. lia.
Defined.

Lemma RemoveAll_kind fs path fs' e k :
  RemoveAll fs path = (fs', e) -> kind fs' k = None \/ kind fs' k = kind fs k.
Proof.
  unfold RemoveAll.
  destruct (String.eqb path ""); [intros Hr; injection Hr as <- _; now right|].
  destruct (endsWithDot path); [intros Hr; injection Hr as <- _; now right|].
  destruct (resolve fs path) as [[]|l];
    try (intros Hr; injection Hr as <- _; now right).
  destruct (kind fs l); [|intros Hr; injection Hr as <- _; now right].
  destruct l as [|c l].
  - intros Hr. injection Hr as <- _. apply kind_remove_tree.
  - destruct (String.eqb _ "." || _)%bool; intros Hr; injection Hr as <- _;
      apply kind_remove_tree.
Qed.

(** Under [CASPathTransformFunc], with no [..] in the root folder and the
    node's name: after a write of a key has returned nil, the delete of
    the key returns nil and the key is gone; and a write of the key after
    that returns nil again, the key then reading as the new content. *)
Theorem CAS_write_delete_write (root : string) (fs fs1 : FS) (id key : string)
    (data data2 : list byte) (fuel : nat) (n : Z) (r1 : Buffer) :
  let s := mkStore root CASPathTransformFunc in
  no_dotdot root = true -> no_dotdot id = true ->
  (length data < fuel)%nat -> (length data2 < fuel)%nat ->
  Store_Write fuel s fs id key (mkBuffer data) = Done (n, None, fs1, r1) ->
  exists fs2 fs3,
    Delete s fs1 id key = (fs2, None) /\
    Has s fs2 id key = false /\
    Store_Write fuel s fs2 id key (mkBuffer data2)
    = Done (len data2, None, fs3, mkBuffer []) /\
    Store_Read s fs3 id key = (len data2, Some (mkRFile (File data2) 0), None) /\
    Has s fs3 id key = true.
Proof.
  intros s Hroot Hid Hf Hf2 Hw.
  destruct (CAS_path_is_plain key) as (_ & _ & Hfirst & _).
  pose proof (Delete_after_Write_nil _ _ _ _ _ _ _ _ _ Hf Hw Hfirst) as Hnil.
  apply pair_eta_None in Hnil.
  set (fs2 := (Delete s fs1 id key).1) in *.
  destruct (Store_Write_inv_full _ _ _ _ _ _ _ _ _ Hf Hw) as (l & Hwalk & Hk & Hl & Hfs).
  set (fs0 := (MkdirAll fs _).1) in *.
  destruct (CAS_Filename_plain key) as [Hp Hn].
  pose proof (CAS_dir_plain root id key Hroot Hid) as Hnd.
  set (pk := CASPathTransformFunc key) in *.
  set (dir := Sprintf3 root id (PathName pk)) in *.
  assert (Hsplit : Split (full_path s id key) "/" = Split dir "/" ++ [Filename pk]).
  { unfold full_path, dir, s. cbn [s_Root s_PathTransformFunc]. fold pk.
    rewrite !Split_Sprintf3, Split_FullPath, (Split_no_slash _ Hn).
    now rewrite <- !app_assoc. }
  rewrite Hsplit in Hwalk.
  assert (Hdirs : forall q, q `prefix_of` names (Split dir "/") -> kind fs0 q = Some Dir).
  { intros q Hq. exact (walk_visits_dirs _ _ _ _ _ Hnd Hwalk q Hq). }
  assert (Hloc : l = names (Split dir "/") ++ [Filename pk]).
  { rewrite walk_app in Hwalk.
    destruct (walk fs0 [] (Split dir "/")) as [e|l0] eqn:Hw0; [discriminate|].
    apply walk_names in Hw0; [|exact Hnd]. cbn [app] in Hw0. subst l0.
    now apply (walk_singleton_proper fs0). }
  destruct (proj1 (Write_outcomes s fs2 id key data2 fuel Hnd Hp Hn Hf2))
    as (fs3 & Hw2 & Hr2 & Hh2).
  - intros q d Hq.
    destruct (RemoveAll_kind _ _ _ _ q Hnil) as [-> | ->]; [discriminate|].
    rewrite Hfs, kind_insert_ne.
    + rewrite (Hdirs q Hq). discriminate.
    + intros He. rewrite He, Hloc in Hq. apply prefix_length in Hq.
      rewrite length_app in Hq. cbn [length] in Hq.
      change (Sprintf3 (s_Root s) id (PathName (s_PathTransformFunc s key)))
        with dir in Hq. lia.
  - change (kind fs2 (names (Split dir "/") ++ [Filename pk]) <> Some Dir).
    rewrite <- Hloc.
    destruct (RemoveAll_kind _ _ _ _ l Hnil) as [-> | ->]; [discriminate|].
    rewrite Hfs, kind_insert_eq by exact Hl. discriminate.
  - exists fs2, fs3. split; [exact Hnil|]. split; [|now repeat split].
    apply Has_false_of_ENOENT. now apply (Delete_nil_bucket s fs1 id key fs2 key).
Qed.

Lemma CAS_write_delete_write_witness :
  let s := mkStore "ggnetwork" CASPathTransformFunc in
  let fs1 := written s ∅ "node" "momsbestpicture" sample_payload in
  exists fs2 fs3,
    Delete s fs1 "node" "momsbestpicture" = (fs2, None) /\
    Has s fs2 "node" "momsbestpicture" = false /\
    Store_Write 12 s fs2 "node" "momsbestpicture" (mkBuffer (bytes_of_string "v2"))
    = Done (2, None, fs3, mkBuffer []) /\
    Store_Read s fs3 "node" "momsbestpicture"
    = (2, Some (mkRFile (File (bytes_of_string "v2")) 0), None) /\
    Has s fs3 "node" "momsbestpicture" = true.
Proof.
  intros s fs1.
  refine (CAS_write_delete_write "ggnetwork" ∅ fs1 "node" "momsbestpicture"
            sample_payload (bytes_of_string "v2") 12 11 (mkBuffer [])
            eq_refl eq_refl _ _ _).
  - vm_compute. lia.
  - vm_compute. lia.
  - unfold fs1, written. apply outcome_eta. vm_compute. reflexivity.
Defined.

Lemma handleMessageStoreFile_exact fuel s from id key peer stream rest fs' f :
  peers s !! from = Some peer ->
  c_in (conn peer) = stream ++ rest ->
  (length stream < fuel)%nat ->
  1 <= wg peer ->
  openFileForWriting (store s) (disk s) id key = (fs', inr f) ->
  handleMessageStoreFile fuel s from id key (len stream)
  = Done (None,
          set_peers (set_disk s (wf_fs (wrote f stream)))
            (<[from := mkTCPPeer (set_c_in (conn peer) rest) (outbound peer)
                                 (wg peer - 1)]> (peers s))).
Proof.
  intros Hp Hin Hf Hwg Ho. unfold handleMessageStoreFile. rewrite Hp.
  pose proof (Limited_drains (length stream) peer) as Hd.
  rewrite Hin, take_app_length, drop_app_length in Hd.
  specialize (Hd ltac:(rewrite length_app; lia)).
  fold (len stream) in Hd.
  rewrite (Store_Write_drains _ _ _ _ _ _ _ _ _ _ Ho Hd) by exact Hf.
  cbn [obind lr_R]. unfold CloseStream. cbn [wg with_conn conn outbound].
  destruct (Z.ltb_spec (wg peer - 1) 0) as [Hlt|_]; [lia|].
  cbn [obind peers set_peers set_disk]. now rewrite insert_insert_eq.
Qed.

Section RoundTrip.

Variable gob_encode : Message -> error + list byte.

(** From [Store] on one node to [Get] on the same node, through a peer.
    What node A sends to its peers after the stream tag is a stream of
    [len(data) + 16] bytes.  On a node B whose connection from A holds
    that stream, with the gate raised, the StoreFile handler for the
    announced (ID, key, size) keeps it, and the GetFile handler for the
    same (ID, key) then sends back the stream tag and a reply.  On node
    A, in any later state in which the key is missing and whose
    connection to the peer holds that reply, with the gate raised, [Get]
    of the key returns a reader over [data] and leaves [data] on the
    disk. *)
Theorem replicated_file_comes_back
    (fuel : nat) (A : FileServer) (key : string) (data : list byte)
    (fsA' : FS) (fA : WFile) (bufS bufG : list byte) :
  (length data + 16 < fuel)%nat ->
  len data + 16 < 2 ^ 63 ->
  openFileForWriting (store A) (disk A) (ID A) key = (fsA', inr fA) ->
  gob_encode (mkMessage (Some (MessageStoreFile (ID A) (hashKey key) (len data + 16))))
  = inr bufS ->
  gob_encode (mkMessage (Some (MessageGetFile (ID A) (hashKey key)))) = inr bufG ->
  (forall a p, peers A !! a = Some p -> healthy p) ->
  (length (EncKey A) = 16 \/ length (EncKey A) = 24 \/ length (EncKey A) = 32)%nat ->
  exists A1 stream,
    FileServer_Store gob_encode fuel A key (mkBuffer data)
    = Done (None, A1, mkBuffer []) /\
    (forall a, peers A1 !! a
               = (fun p => sent p (IncomingMessage :: bufS ++ IncomingStream :: stream))
                   <$> peers A !! a) /\
    len stream = len data + 16 /\
    forall (B : FileServer) (a : string) (pB : TCPPeer) (rest : list byte)
           (fsB' : FS) (fB : WFile),
      peers B !! a = Some pB -> healthy pB ->
      c_in (conn pB) = stream ++ rest -> 1 <= wg pB ->
      openFileForWriting (store B) (disk B) (ID A) (hashKey key) = (fsB', inr fB) ->
      exists B1 B2 reply,
        handleMessageStoreFile fuel B a (ID A) (hashKey key) (len data + 16)
        = Done (None, B1) /\
        handleMessageGetFile fuel B1 a (ID A) (hashKey key) = Done (None, B2) /\
        (c_out ∘ conn) <$> peers B2 !! a
        = Some (c_out (conn pB) ++ IncomingStream :: reply) /\
        forall (A2 : FileServer) (b : string) (pA : TCPPeer) (rest' : list byte)
               (fsA2 : FS) (fA2 : WFile),
          ID A2 = ID A -> EncKey A2 = EncKey A ->
          peers A2 = {[ b := pA ]} -> healthy pA ->
          c_in (conn pA) = reply ++ rest' -> 1 <= wg pA ->
          Has (store A2) (disk A2) (ID A2) key = false ->
          openFileForWriting (store A2) (disk A2) (ID A2) key = (fsA2, inr fA2) ->
          exists A3,
            Get gob_encode fuel A2 key
            = Done (Some (mkRFile (File data) 0), None, A3) /\
            Store_Read (store A3) (disk A3) (ID A3) key
            = (len data, Some (mkRFile (File data) 0), None).
Proof.
  intros Hf Hsz HoA HencS HencG Hh Hk.
  destruct (aes_NewCipher_ok _ Hk) as [block Hb].
  set (iv := map (rand_at (entropy A)) (seq (rand_pos (entropy A)) 16)).
  assert (Hiv : length iv = 16%nat) by (unfold iv; now rewrite length_map, length_seq).
  set (ct := (XORKeyStream (NewCTR block iv) data).1).
  assert (Hct : length ct = length data) by apply XORKeyStream_length.
  set (stream := iv ++ ct).
  assert (Hlen : length stream = (length data + 16)%nat)
    by (unfold stream; rewrite length_app, Hiv, Hct; lia).
  assert (Hlen' : len stream = len data + 16) by (unfold len; rewrite Hlen; lia).
  eexists. exists stream.
  split; [exact (Store_explicit gob_encode fuel A key data fsA' fA bufS block
                   ltac:(lia) HoA HencS Hh Hb)|].
  split; [intros a; cbn [peers set_entropy set_peers]; now rewrite lookup_fmap|].
  split; [exact Hlen'|].
  intros B a pB rest fsB' fB HpB HhB HinB HwgB HoB.
  rewrite <- Hlen'.
  set (pB1 := mkTCPPeer (set_c_in (conn pB) rest) (outbound pB) (wg pB - 1)).
  set (B1 := set_peers (set_disk B (wf_fs (wrote fB stream))) (<[a := pB1]> (peers B))).
  set (reply := le_bytes8 (len stream) ++ stream).
  exists B1, (set_peers B1 (<[a := sent pB1 (IncomingStream :: reply)]> (peers B1))), reply.
  split; [exact (handleMessageStoreFile_exact fuel B a (ID A) (hashKey key) pB stream rest
                   fsB' fB HpB HinB ltac:(lia) HwgB HoB)|].
  split.
  { apply (handleMessageGetFile_ok fuel B1 a (ID A) (hashKey key) stream pB1).
    - unfold B1. cbn [store disk set_peers set_disk].
      exact (written_file_read _ _ _ _ _ _ stream HoB).
    - unfold B1. cbn [peers set_peers]. apply lookup_insert_eq.
    - exact HhB.
    - lia. }
  split.
  { cbn [peers set_peers]. rewrite lookup_insert_eq. reflexivity. }
  intros A2 b pA rest' fsA2 fA2 HID HKey HpA HhA HinA HwgA Hhas HoA2.
  assert (Hne : stream <> []) by (intros He; rewrite He in Hlen; cbn in Hlen; lia).
  rewrite <- HKey in Hb. rewrite <- HID in HencG.
  unfold reply in HinA. rewrite <- app_assoc in HinA.
  pose proof (Get_fetch_explicit gob_encode fuel A2 key b pA bufG stream rest' block
                fsA2 fA2 Hhas HpA HhA HencG HinA Hne ltac:(lia) ltac:(lia) Hb HwgA HoA2)
    as Hget.
  cbv zeta in Hget.
  assert (Hdata : (XORKeyStream
                     (NewCTR block (take 16 stream
                                      ++ repeat Byte.x00 (16 - length (take 16 stream))))
                     (drop 16 stream)).1 = data).
  { unfold stream.
    rewrite take_app_length' by (symmetry; exact Hiv).
    rewrite drop_app_length' by (symmetry; exact Hiv).
    rewrite Hiv. cbn [Nat.sub repeat]. rewrite app_nil_r.
    unfold ct. apply XORKeyStream_involutive. }
  rewrite Hdata in Hget.
  eexists. split; [exact Hget|].
  cbn [store disk ID set_peers set_disk].
  exact (written_file_read _ _ _ _ _ _ data HoA2).
Qed.

End RoundTrip.

(** ** The node on examples *)

Lemma open_eta s fs id key :
  opens s fs id key = true ->
  openFileForWriting s fs id key
  = ((openFileForWriting s fs id key).1, inr (opened s fs id key)).
Proof.
  unfold opens, opened. destruct (openFileForWriting s fs id key) as [fs' [e|f]];
    cbn [fst snd]; [discriminate | reflexivity].
Qed.

Lemma two_peers_healthy a p : two_peers !! a = Some p -> healthy p.
Proof.
  unfold two_peers. intros Hp.
  apply lookup_insert_Some in Hp as [[_ <-]|[_ Hp]]; [reflexivity|].
  apply lookup_singleton_Some in Hp as [_ <-]. reflexivity.
Qed.

Lemma Store_replicates_to_every_peer_witness :
  let s := example_node two_peers ∅ in
  let key := "momsbestpicture" in
  let data := sample_payload in
  exists s' stream,
    FileServer_Store example_gob 12 s key (mkBuffer data)
    = Done (None, s', mkBuffer []) /\
    Store_Read (store s') (disk s') (ID s') key
    = (len data, Some (mkRFile (File data) 0), None) /\
    (forall a, peers s' !! a
               = (fun p => sent p (IncomingMessage :: [Byte.x53] ++ IncomingStream :: stream))
                   <$> peers s !! a) /\
    len stream = len data + 16 /\
    copyDecrypt 12 (EncKey s) (mkBuffer stream) (mkBuffer [])
    = Done (len data + 16, None, mkBuffer [], mkBuffer data).
Proof.
  intros s key data.
  refine (Store_replicates_to_every_peer example_gob 12 s key data
            (openFileForWriting (store s) (disk s) (ID s) key).1
            (opened (store s) (disk s) (ID s) key) [Byte.x53] _ _ _ _ _).
  - vm_compute. lia.
  - apply open_eta. vm_compute. reflexivity.
  - reflexivity.
  - exact two_peers_healthy.
  - right. right. vm_compute. reflexivity.
Defined.

Lemma Store_with_bad_key_announces_then_fails_witness :
  let s := bad_key_node in
  let key := "momsbestpicture" in
  let data := sample_payload in
  exists s',
    FileServer_Store example_gob 12 s key (mkBuffer data)
    = Done (Some (KeySizeError (length (EncKey s))), s', mkBuffer []) /\
    Store_Read (store s') (disk s') (ID s') key
    = (len data, Some (mkRFile (File data) 0), None) /\
    (forall a, peers s' !! a
               = (fun p => sent p (IncomingMessage :: [Byte.x53] ++ [IncomingStream]))
                   <$> peers s !! a).
Proof.
  intros s key data.
  refine (Store_with_bad_key_announces_then_fails example_gob 12 s key data
            (openFileForWriting (store s) (disk s) (ID s) key).1
            (opened (store s) (disk s) (ID s) key) [Byte.x53] _ _ _ _ _ _ _).
  - vm_compute. lia.
  - apply open_eta. vm_compute. reflexivity.
  - reflexivity.
  - exact two_peers_healthy.
  - vm_compute. discriminate.
  - vm_compute. discriminate.
  - vm_compute. discriminate.
Defined.

Lemma Get_fetches_from_peer_witness :
  let s := answered_node in
  let peer := mkTCPPeer (conn_with "10.0.0.2:7000"
                           (le_bytes8 (len cipher_stream) ++ cipher_stream ++ []))
                        true 1 in
  exists s',
    Get example_gob 28 s "momsbestpicture"
    = Done (Some (mkRFile (File sample_payload) 0), None, s') /\
    peers s'
    = {[ "10.0.0.2:7000" :=
           mkTCPPeer (mkConn (RemoteAddr (conn peer)) [] (c_in_err (conn peer))
                             (c_out (conn peer) ++ IncomingMessage :: [Byte.x47])
                             (c_out_err (conn peer)))
                     (outbound peer) (wg peer - 1) ]} /\
    Store_Read (store s') (disk s') (ID s') "momsbestpicture"
    = (len sample_payload, Some (mkRFile (File sample_payload) 0), None).
Proof.
  intros s peer.
  refine (Get_fetches_from_peer example_gob 28 s "momsbestpicture" "10.0.0.2:7000" peer
            [Byte.x47] cipher_stream [] sample_payload 27
            (openFileForWriting (store s) (disk s) (ID s) "momsbestpicture").1
            (opened (store s) (disk s) (ID s) "momsbestpicture")
            _ _ _ _ _ _ _ _ _ _ _).
  - vm_compute. reflexivity.
  - reflexivity.
  - reflexivity.
  - reflexivity.
  - reflexivity.
  - vm_compute. discriminate.
  - vm_compute. lia.
  - vm_compute. reflexivity.
  - vm_compute. reflexivity.
  - cbn. lia.
  - apply open_eta. vm_compute. reflexivity.
Defined.

Lemma Get_failed_fetch_leaves_empty_file_witness :
  let s := closed_peer_node in
  exists s',
    Get example_gob 5 s "momsbestpicture" = Done (None, Some EOF, s') /\
    Has (store s') (disk s') (ID s') "momsbestpicture" = true /\
    Store_Read (store s') (disk s') (ID s') "momsbestpicture"
    = (0, Some (mkRFile (File []) 0), None) /\
    Get example_gob 5 s' "momsbestpicture"
    = Done (Some (mkRFile (File []) 0), None, s').
Proof.
  intros s.
  refine (Get_failed_fetch_leaves_empty_file example_gob 5 s "momsbestpicture"
            "10.0.0.2:4000" (mkTCPPeer (conn_closed "10.0.0.2:4000") true 0)
            [Byte.x47] EOF
            (openFileForWriting (store s) (disk s) (ID s) "momsbestpicture").1
            (opened (store s) (disk s) (ID s) "momsbestpicture")
            _ _ _ _ _ _ _ _ _).
  - vm_compute. reflexivity.
  - reflexivity.
  - reflexivity.
  - reflexivity.
  - reflexivity.
  - reflexivity.
  - right. right. vm_compute. reflexivity.
  - lia.
  - apply open_eta. vm_compute. reflexivity.
Defined.

Lemma Get_miss_without_reply_witness :
  let s := example_node ∅ ∅ in
  (peers s = ∅ ->
   Get example_gob 5 s "momsbestpicture"
   = Done (None,
           Some (PathError "open" (full_path (store s) (ID s) "momsbestpicture") ENOENT),
           s)) /\
  (forall a peer,
     peers s = {[ a := peer ]} -> healthy peer ->
     c_in (conn peer) = [] -> c_in_err (conn peer) = None ->
     (0 < 5)%nat ->
     Get example_gob 5 s "momsbestpicture" = Blocked).
Proof.
  intros s.
  refine (Get_miss_without_reply example_gob 5 s "momsbestpicture" [Byte.x47] _ _).
  - vm_compute. reflexivity.
  - reflexivity.
Defined.

(** The second half of that on a node with a peer that is silent. *)
Example Get_waits_for_silent_peer :
  Get example_gob 5
      (example_node {[ "10.0.0.2:4000" := NewTCPPeer (conn_with "10.0.0.2:4000" []) true ]} ∅)
      "momsbestpicture"
  = Blocked.
Proof. vm_compute. reflexivity. Qed.

Lemma replicated_file_comes_back_witness :
  let A := example_node
             {[ "10.0.0.2:7000" := NewTCPPeer (conn_with "10.0.0.2:7000" []) true ]} ∅ in
  let key := "momsbestpicture" in
  let data := sample_payload in
  exists A1 stream,
    FileServer_Store example_gob 28 A key (mkBuffer data)
    = Done (None, A1, mkBuffer []) /\
    (forall a, peers A1 !! a
               = (fun p => sent p (IncomingMessage :: [Byte.x53] ++ IncomingStream :: stream))
                   <$> peers A !! a) /\
    len stream = len data + 16 /\
    forall (B : FileServer) (a : string) (pB : TCPPeer) (rest : list byte)
           (fsB' : FS) (fB : WFile),
      peers B !! a = Some pB -> healthy pB ->
      c_in (conn pB) = stream ++ rest -> 1 <= wg pB ->
      openFileForWriting (store B) (disk B) (ID A) (hashKey key) = (fsB', inr fB) ->
      exists B1 B2 reply,
        handleMessageStoreFile 28 B a (ID A) (hashKey key) (len data + 16)
        = Done (None, B1) /\
        handleMessageGetFile 28 B1 a (ID A) (hashKey key) = Done (None, B2) /\
        (c_out ∘ conn) <$> peers B2 !! a
        = Some (c_out (conn pB) ++ IncomingStream :: reply) /\
        forall (A2 : FileServer) (b : string) (pA : TCPPeer) (rest' : list byte)
               (fsA2 : FS) (fA2 : WFile),
          ID A2 = ID A -> EncKey A2 = EncKey A ->
          peers A2 = {[ b := pA ]} -> healthy pA ->
          c_in (conn pA) = reply ++ rest' -> 1 <= wg pA ->
          Has (store A2) (disk A2) (ID A2) key = false ->
          openFileForWriting (store A2) (disk A2) (ID A2) key = (fsA2, inr fA2) ->
          exists A3,
            Get example_gob 28 A2 key
            = Done (Some (mkRFile (File data) 0), None, A3) /\
            Store_Read (store A3) (disk A3) (ID A3) key
            = (len data, Some (mkRFile (File data) 0), None).
Proof.
  intros A key data.
  refine (replicated_file_comes_back example_gob 28 A key data
            (openFileForWriting (store A) (disk A) (ID A) key).1
            (opened (store A) (disk A) (ID A) key) [Byte.x53] [Byte.x47]
            _ _ _ _ _ _ _).
  - vm_compute. lia.
  - vm_compute. reflexivity.
  - apply open_eta. vm_compute. reflexivity.
  - reflexivity.
  - reflexivity.
  - intros a p Hp. unfold A, example_node in Hp. cbn [peers] in Hp.
    apply lookup_singleton_Some in Hp as [_ <-]. reflexivity.
  - right. right. vm_compute. reflexivity.
Defined.

(** The edges of the StoreFile handler on node B of the scenario: with
    the gate not raised it panics; and when A's connection ends after
    five bytes of a stream announced as 27, the five bytes are kept. *)
Example handleMessageStoreFile_edges_examples :
  let B0 := mkFileServer "nodeB" sample_key ":7000"
              {[ "10.0.0.1:3000" := mkTCPPeer (conn_with "10.0.0.1:3000" cipher_stream)
                                              false 0 ]} cas_store ∅ sample_rand in
  let B1 := mkFileServer "nodeB" sample_key ":7000"
              {[ "10.0.0.1:3000" :=
                   mkTCPPeer (mkConn "10.0.0.1:3000" (take 5 cipher_stream) (Some EOF)
                                     [] None) false 1 ]} cas_store ∅ sample_rand in
  handleMessageStoreFile 28 B0 "10.0.0.1:3000" "nodeA" "key" 27
  = Panic "sync: negative WaitGroup counter" /\
  match handleMessageStoreFile 28 B1 "10.0.0.1:3000" "nodeA" "key" 27 with
  | Done (err, s') =>
      err = None /\
      Store_Read (store s') (disk s') "nodeA" "key"
      = (5, Some (mkRFile (File (take 5 cipher_stream)) 0), None)
  | _ => False
  end.
Proof. split; [vm_compute; reflexivity|]. vm_compute. split; reflexivity. Qed.
